(** * dup-fu: a shallow embedding of [main.go]

    The program walks a directory tree, fingerprints every regular
    non-empty file with CRC-32 (IEEE), groups the files by fingerprint and
    offers three bulk actions (delete, move, export) on the duplicates.

    Go values are modelled as follows: [int64], [uint32] and [uint64] are
    [Z] with the wrap-around written out, [[]byte] is [list Byte.byte],
    [string] is [string], the global [map[string][]tFileData] is a
    [gmap string (list tFileData)], a panic is the [Panic] outcome of the
    [result] type, and the process-wide variables are threaded explicitly. *)

From Stdlib Require Import ZArith Ascii String.
From stdpp Require Import gmap strings list fin_maps sorting pretty.

Set Warnings "-register-all".
Local Open Scope Z_scope.

(** ** Outcomes: a Go call either returns or panics *)

Inductive result (A : Type) : Type :=
| Ok (a : A)
| Panic (msg : string).
Arguments Ok {A} a.
Arguments Panic {A} msg.

Definition bind {A B : Type} (r : result A) (k : A → result B) : result B :=
  match r with
  | Ok a => k a
  | Panic msg => Panic msg
  end.

Notation "x ←! r ; k" := (bind r (λ x, k))
  (at level 20, r at level 100, k at level 200, right associativity, only parsing).

(** ** Machine integers *)

Definition uint32 (z : Z) : Z := z mod 2 ^ 32.
Definition uint64 (z : Z) : Z := z mod 2 ^ 64.
(** Conversion of a [uint32] to [rune] (an [int32]). *)
Definition rune (z : Z) : Z := (z + 2 ^ 31) mod 2 ^ 32 - 2 ^ 31.

(** ** The records of [main.go] *)

Record tFileData : Type := mkFileData {
  fd_path : string;
  fd_size : Z;              (* int64 *)
  fd_hash : list Byte.byte; (* nil until the checksum worker fills it *)
  fd_modified : Z           (* int64, nanoseconds *)
}.

Record tStats : Type := mkStats {
  st_seconds : Z;       (* uint64 *)
  st_count : Z;         (* uint32 *)
  st_size : Z;          (* uint64 *)
  st_duplicates : Z;    (* uint32 *)
  st_duplicateSize : Z; (* uint64 *)
  st_complted : bool
}.

Global Instance byte_eq_dec : EqDecision Byte.byte := Byte.byte_eq_dec.

Global Instance tFileData_eq_dec : EqDecision tFileData.
Proof. solve_decision. Defined.

(** ** hash/crc32 with the IEEE polynomial

    The generic table-driven implementation of the Go library: the table
    entry of [i] is [i] pushed eight times through the reflected
    polynomial, and a byte is absorbed by one table lookup. *)

Definition IEEE : Z := 0xedb88320.

Definition crc_bit (poly crc : Z) : Z :=
  if Z.testbit crc 0 then Z.lxor (Z.shiftr crc 1) poly else Z.shiftr crc 1.

Definition simpleMakeTable (poly : Z) (i : Z) : Z :=
  Nat.iter 8 (crc_bit poly) i.

Definition byte_val (b : Byte.byte) : Z := Z.of_N (Byte.to_N b).

Definition crc_step (crc : Z) (v : Byte.byte) : Z :=
  Z.lxor (simpleMakeTable IEEE (Z.lxor (Z.land crc 0xff) (byte_val v)))
         (Z.shiftr crc 8).

Definition simpleUpdate (crc : Z) (p : list Byte.byte) : Z :=
  Z.lxor (fold_left crc_step p (Z.lxor crc 0xffffffff)) 0xffffffff.

(** The digest of a hasher that starts at zero and is written [p]. *)
Definition crc32_IEEE (p : list Byte.byte) : Z := simpleUpdate 0 p.

Definition byte_of_Z (z : Z) : Byte.byte :=
  match Byte.of_N (Z.to_N (z mod 256)) with
  | Some b => b
  | None => Byte.x00
  end.

(** [h.Sum(nil)]: the four bytes of the digest, most significant first. *)
Definition crc32_Sum (s : Z) : list Byte.byte :=
  [ byte_of_Z (Z.shiftr s 24); byte_of_Z (Z.shiftr s 16);
    byte_of_Z (Z.shiftr s 8); byte_of_Z s ].

(** ** [fmt.Sprintf("%x", bytes)] *)

Definition hex_digit (z : Z) : Ascii.ascii :=
  match String.get (Z.to_nat z) "0123456789abcdef" with
  | Some c => c
  | None => "0"%char
  end.

Fixpoint Sprintf_x (bs : list Byte.byte) : string :=
  match bs with
  | [] => EmptyString
  | b :: bs' =>
      String (hex_digit (byte_val b / 16))
        (String (hex_digit (byte_val b mod 16)) (Sprintf_x bs'))
  end.


(** ** The pieces of the terminal list that [findDuplicates] drives *)

Record listItem : Type := mkItem {
  MainText : string;
  SecondaryText : string;
  Shortcut : Z (* rune *)
}.

Definition AddItem (main secondary : string) (shortcut : Z)
    (items : list listItem) : list listItem :=
  items ++ [mkItem main secondary shortcut].

Definition SetItemText (index : nat) (main secondary : string)
    (items : list listItem) : list listItem :=
  alter (λ it, mkItem main secondary (Shortcut it)) index items.

(** Digits of [%d] as the English message printer groups them. *)
Fixpoint group3 (ds : list Ascii.ascii) : list Ascii.ascii :=
  match ds with
  | a :: b :: c :: (_ :: _) as rest => a :: b :: c :: ","%char :: group3 rest
  | _ => ds
  end.

Definition Sprintf_d (n : Z) : string :=
  string_of_list_ascii
    (rev (group3 (rev (list_ascii_of_string (pretty (Z.to_N n)))))).

Definition Sprintf_more (n : Z) : string :=
  (" (+" +:+ Sprintf_d n +:+ " more)")%string.

(** ** The aggregator: [findDuplicates]

    [sort.Slice] belongs to the Go library, which promises a permutation
    of the slice that is ordered by [less] and does not promise to keep
    equal elements in their original order. The aggregator is therefore
    written over any sorting function; the promise is [SortSliceSpec]. *)

Definition less_modified (a b : tFileData) : bool :=
  bool_decide (fd_modified a < fd_modified b).

Record aggState : Type := mkAgg {
  duplicates : gmap string (list tFileData);
  stats : tStats;
  right : list listItem
}.

Definition stats_scanned (s : tStats) (d : tFileData) : tStats :=
  mkStats (st_seconds s) (uint32 (st_count s + 1))
    (uint64 (st_size s + uint64 (fd_size d)))
    (st_duplicates s) (st_duplicateSize s) (st_complted s).

Definition stats_duplicate (s : tStats) (d : tFileData) : tStats :=
  mkStats (st_seconds s) (st_count s) (st_size s)
    (uint32 (st_duplicates s + 1))
    (uint64 (st_duplicateSize s + uint64 (fd_size d))) (st_complted s).

Definition stats0 : tStats := mkStats 0 0 0 0 0 false.
Definition agg0 : aggState := mkAgg ∅ stats0 [].

Section Aggregator.

Variable sort_Slice :
  (tFileData → tFileData → bool) → list tFileData → list tFileData.

(** One iteration of the [for d := range checksumChannel] loop. *)
Definition findDuplicates_body (a : aggState) (d : tFileData)
    : result aggState :=
  let stats1 := stats_scanned (stats a) d in
  let hash := Sprintf_x (fd_hash d) in
  match duplicates a !! hash with
  | Some list0 =>
      let list1 := sort_Slice less_modified (list0 ++ [d]) in
      let stats2 := stats_duplicate stats1 d in
      match list1 with
      | head :: second :: rest =>
          let dupFiles :=
            if bool_decide (1 < Z.of_nat (length (second :: rest)))
            then (fd_path second +:+
                  Sprintf_more (Z.of_nat (length (second :: rest)) - 1))%string
            else fd_path second in
          let right1 :=
            match list_find (λ it, fd_path head = MainText it) (right a) with
            | None =>
                AddItem (fd_path head) dupFiles
                  (rune (uint32 (st_duplicates stats2 + 32))) (right a)
            | Some (currentIndex, _) =>
                SetItemText currentIndex (fd_path head) dupFiles (right a)
            end in
          Ok (mkAgg (<[hash := list1]> (duplicates a)) stats2 right1)
      | _ => Panic "index out of range"
      end
  | None =>
      Ok (mkAgg (<[hash := [d]]> (duplicates a)) stats1 (right a))
  end.

(** The loop itself, over the records received from the channel. *)
Fixpoint findDuplicates (ds : list tFileData) (a : aggState)
    : result aggState :=
  match ds with
  | [] => Ok a
  | d :: ds' => a' ←! findDuplicates_body a d; findDuplicates ds' a'
  end.

End Aggregator.

(** What the library promises of [sort.Slice] when [less] is a strict
    order whose incomparable elements may be taken as equal. *)
Record SortSliceSpec
    (sort_Slice : (tFileData → tFileData → bool) →
                  list tFileData → list tFileData) : Prop := {
  sort_Slice_perm : ∀ less l, sort_Slice less l ≡ₚ l;
  sort_Slice_sorted : ∀ less l,
    (∀ x y, less x y = true → less y x = false) →
    Sorted (λ x y, less y x = false) (sort_Slice less l)
}.

(** A sorting function that keeps the promise: it inserts one element at
    a time behind the elements it may not go ahead of, its equals among
    them. *)
Fixpoint insert_by (ahead : tFileData → tFileData → bool)
    (x : tFileData) (l : list tFileData) : list tFileData :=
  match l with
  | [] => [x]
  | y :: l' => if ahead x y then x :: l else y :: insert_by ahead x l'
  end.

Definition insertionSort (less : tFileData → tFileData → bool)
    (l : list tFileData) : list tFileData :=
  fold_left (λ acc x, insert_by less x acc) l [].

(** ** [sort.Slice] as the library implements it

    [sort.Slice] hands the slice to the routine generated for a [less]
    function: [data.Less(i, j)] is the closure of [findDuplicates]
    applied to the slice as it stands, [data.Swap] exchanges two elements
    in place. The slice is a list addressed by index. The routine has
    changed once. What is embedded of each generation is what it does
    with the short slices of the examples; everything else is left open
    ([beyond]). *)

Definition data_Less (less : tFileData → tFileData → bool)
    (l : list tFileData) (i j : nat) : bool :=
  match l !! i, l !! j with
  | Some x, Some y => less x y
  | _, _ => false
  end.

Definition data_Swap (i j : nat) (l : list tFileData) : list tFileData :=
  match l !! i, l !! j with
  | Some x, Some y => <[i := y]> (<[j := x]> l)
  | _, _ => l
  end.

(** Both generations have

      func insertionSort_func(data lessSwap, a, b int) {
        for i := a + 1; i < b; i++ {
          for j := i; j > a && data.Less(j, j-1); j-- {
            data.Swap(j, j-1)
          }
        }
      }

    [sink] is the inner loop, from [j] down. *)
Fixpoint sink (less : tFileData → tFileData → bool) (a j : nat)
    (l : list tFileData) : list tFileData :=
  match j with
  | O => l
  | S j' =>
      if bool_decide (a < j)%nat && data_Less less l j j'
      then sink less a j' (data_Swap j j' l)
      else l
  end.

Definition insertionSort_func (less : tFileData → tFileData → bool)
    (a b : nat) (l : list tFileData) : list tFileData :=
  foldl (λ acc i, sink less a i acc) l (seq (a + 1) (b - a - 1)).

(** *** Through Go 1.18

    The repository is built under [GOPATH] and installed with [go get]
    (Makefile, README). In the releases that work this way [sort.Slice]
    calls [quickSort_func(data, 0, length, maxDepth(length))], whose loop
    [for b-a > 12] partitions long ranges and which ends, for a range of
    at most twelve elements, with

      if b-a > 1 {
        // Do ShellSort pass with gap 6
        for i := a + 6; i < b; i++ {
          if data.Less(i, i-6) { data.Swap(i, i-6) }
        }
        insertionSort_func(data, a, b)
      }
 *)

Definition shellPass6 (less : tFileData → tFileData → bool)
    (a b : nat) (l : list tFileData) : list tFileData :=
  foldl (λ acc i,
           if data_Less less acc i (i - 6) then data_Swap i (i - 6) acc
           else acc)
        l (seq (a + 6) (b - a - 6)).

Definition quickSort_func
    (beyond : (tFileData → tFileData → bool) →
              list tFileData → list tFileData)
    (less : tFileData → tFileData → bool) (l : list tFileData)
    : list tFileData :=
  if bool_decide (12 < length l)%nat then beyond less l
  else if bool_decide (1 < length l)%nat
       then insertionSort_func less 0 (length l)
              (shellPass6 less 0 (length l) l)
       else l.

(** *** From Go 1.19 on

    [sort.Slice] calls [pdqsort_func(data, 0, length, bits.Len(length))]:

      for {
        length := b - a
        if length <= maxInsertion {           // 12
          insertionSort_func(data, a, b); return
        }
        if limit == 0 { heapSort_func(data, a, b); return }
        if !wasBalanced { breakPatterns_func(data, a, b); limit-- }
        pivot, hint := choosePivot_func(data, a, b)
        if hint == decreasingHint { ... }
        if wasBalanced && wasPartitioned && hint == increasingHint {
          if partialInsertionSort_func(data, a, b) { return }
        }
        if a > 0 && !data.Less(a-1, pivot) {
          mid := partitionEqual_func(data, a, b, pivot); a = mid; continue
        }
        mid, alreadyPartitioned := partition_func(data, a, b, pivot)
        wasPartitioned = alreadyPartitioned
        leftLen, rightLen := mid-a, b-mid
        balanceThreshold := length / 8
        if leftLen < rightLen {
          wasBalanced = leftLen >= balanceThreshold
          pdqsort_func(data, a, mid, limit); a = mid + 1
        } else {
          wasBalanced = rightLen >= balanceThreshold
          pdqsort_func(data, mid+1, b, limit); b = mid
        }
      }

    Embedded are the ranges of fewer than fifty elements as long as the
    limit is not used up, the last partition was balanced and
    [partitionEqual_func] is not called: there [choosePivot_func] takes
    the median of the elements at [a + l/4], [a + l/4*2] and
    [a + l/4*3] and counts the exchanges that would order them (none:
    [increasingHint]; [decreasingHint] takes twelve and cannot come up),
    and [partialInsertionSort_func] only tells whether the range is in
    order already. *)

(** [for i <= j && cond(i) { i++ }], with [n] the number of places from
    [i] to [j], and [for i <= j && cond(j) { j-- }]. *)
Fixpoint climb (n i : nat) (cond : nat → bool) : nat :=
  match n with
  | O => i
  | S n' => if cond i then climb n' (S i) cond else i
  end.

Fixpoint descend (n j : nat) (cond : nat → bool) : nat :=
  match n with
  | O => j
  | S n' => if cond j then descend n' (j - 1) cond else j
  end.

Definition order2_func (less : tFileData → tFileData → bool)
    (l : list tFileData) (a b swaps : nat) : nat * nat * nat :=
  if data_Less less l b a then (b, a, S swaps) else (a, b, swaps).

Definition median_func (less : tFileData → tFileData → bool)
    (l : list tFileData) (a b c swaps : nat) : nat * nat :=
  let '(a, b, swaps) := order2_func less l a b swaps in
  let '(b, c, swaps) := order2_func less l b c swaps in
  let '(a, b, swaps) := order2_func less l a b swaps in
  (b, swaps).

Definition choosePivot_func (less : tFileData → tFileData → bool)
    (l : list tFileData) (a b : nat) : nat * nat :=
  median_func less l (a + (b - a) / 4 * 1) (a + (b - a) / 4 * 2)
    (a + (b - a) / 4 * 3) 0.

Definition partialInsertionSort_func (less : tFileData → tFileData → bool)
    (l : list tFileData) (a b : nat) : bool :=
  bool_decide
    (climb (b - (a + 1)) (a + 1) (λ i, negb (data_Less less l i (i - 1))) = b).

(** The loop of [partition_func]:

      for {
        for i <= j && data.Less(i, a) { i++ }
        for i <= j && !data.Less(j, a) { j-- }
        if i > j { break }
        data.Swap(i, j); i++; j--
      }
      data.Swap(j, a)
      return j, false
 *)
Fixpoint partition_loop (less : tFileData → tFileData → bool) (fuel : nat)
    (l : list tFileData) (a i j : nat) : option (list tFileData * nat * bool) :=
  match fuel with
  | O => None
  | S fuel' =>
      let i1 := climb (S j - i) i (λ i, data_Less less l i a) in
      let j1 := descend (S j - i1) j (λ j, negb (data_Less less l j a)) in
      if bool_decide (j1 < i1)%nat then Some (data_Swap j1 a l, j1, false)
      else partition_loop less fuel' (data_Swap i1 j1 l) a (S i1) (j1 - 1)
  end.

(** What comes before the loop:

      data.Swap(a, pivot)
      i, j := a+1, b-1
      for i <= j && data.Less(i, a) { i++ }
      for i <= j && !data.Less(j, a) { j-- }
      if i > j { data.Swap(j, a); return j, true }
      data.Swap(i, j); i++; j--
 *)
Definition partition_func (less : tFileData → tFileData → bool)
    (l : list tFileData) (a b pivot : nat)
    : option (list tFileData * nat * bool) :=
  let l0 := data_Swap a pivot l in
  let i := climb (S (b - 1) - (a + 1)) (a + 1) (λ i, data_Less less l0 i a) in
  let j := descend (S (b - 1) - i) (b - 1)
             (λ j, negb (data_Less less l0 j a)) in
  if bool_decide (j < i)%nat then Some (data_Swap j a l0, j, true)
  else partition_loop less (b - a) (data_Swap i j l0) a (S i) (j - 1).

(** [None] where the embedding ends. *)
Fixpoint pdqsort_loop (less : tFileData → tFileData → bool) (fuel : nat)
    (l : list tFileData) (a b limit : nat) (wasBalanced wasPartitioned : bool)
    : option (list tFileData) :=
  match fuel with
  | O => None
  | S fuel' =>
      if bool_decide (b - a ≤ 12)%nat then Some (insertionSort_func less a b l)
      else if bool_decide (limit = 0)%nat then None
      else if negb wasBalanced then None
      else if bool_decide (50 ≤ b - a)%nat then None
      else
        let '(pivot, swaps) := choosePivot_func less l a b in
        if wasPartitioned && bool_decide (swaps = 0)%nat &&
           partialInsertionSort_func less l a b
        then Some l
        else if bool_decide (0 < a)%nat &&
                negb (data_Less less l (a - 1) pivot)
        then None
        else
          match partition_func less l a b pivot with
          | None => None
          | Some (l1, mid, alreadyPartitioned) =>
              if bool_decide (mid - a < b - mid)%nat
              then
                match pdqsort_loop less fuel' l1 a mid limit true true with
                | None => None
                | Some l2 =>
                    pdqsort_loop less fuel' l2 (mid + 1) b limit
                      (bool_decide ((b - a) / 8 ≤ mid - a)%nat)
                      alreadyPartitioned
                end
              else
                match pdqsort_loop less fuel' l1 (mid + 1) b limit true true
                with
                | None => None
                | Some l2 =>
                    pdqsort_loop less fuel' l2 a mid limit
                      (bool_decide ((b - a) / 8 ≤ b - mid)%nat)
                      alreadyPartitioned
                end
          end
  end.

(** [bits.Len]. *)
Definition bits_Len (n : nat) : nat := N.size_nat (N.of_nat n).

Definition pdqsort_func
    (beyond : (tFileData → tFileData → bool) →
              list tFileData → list tFileData)
    (less : tFileData → tFileData → bool) (l : list tFileData)
    : list tFileData :=
  match pdqsort_loop less (S (length l)) l 0 (length l)
          (bits_Len (length l)) true true with
  | Some l' => l'
  | None => beyond less l
  end.

(** ** path/filepath on a system whose separator is the slash *)

Fixpoint split_sep (sep : Ascii.ascii) (s : string) : list string :=
  match s with
  | EmptyString => [EmptyString]
  | String c s' =>
      if decide (c = sep) then EmptyString :: split_sep sep s'
      else match split_sep sep s' with
           | w :: ws => String c w :: ws
           | [] => [String c EmptyString]
           end
  end.

Definition clean_step (rooted : bool) (stack : list string) (comp : string)
    : list string :=
  if decide (comp = "" ∨ comp = ".")%string then stack
  else if decide (comp = "..")%string then
    match stack with
    | top :: below =>
        if decide (top = "..")%string then comp :: stack else below
    | [] => if rooted then [] else [comp]
    end
  else comp :: stack.

Definition filepath_Clean (p : string) : string :=
  if decide (p = "")%string then "."%string
  else
    let rooted := bool_decide (String.get 0 p = Some "/"%char) in
    let comps := rev (fold_left (clean_step rooted) (split_sep "/" p) []) in
    let body := String.concat "/" comps in
    if rooted then ("/" +:+ body)%string
    else if decide (body = "")%string then "."%string else body.

Definition filepath_Join (a b : string) : string :=
  if decide (a = "")%string then
    if decide (b = "")%string then ""%string else filepath_Clean b
  else filepath_Clean (a +:+ "/" +:+ b).

Definition filepath_Base (p : string) : string :=
  if decide (p = "")%string then "."%string
  else
    match last (filter (λ c, c ≠ ""%string) (split_sep "/" p)) with
    | Some c => c
    | None => "/"%string
    end.

(** ** The operating system, as far as the program touches it

    Regular files by path with their contents, the directories that
    exist, the paths that the system refuses to create, remove or rename,
    the files whose reads and writes fail, and the files it refuses to
    open. *)

Record osState : Type := mkOS {
  os_files : gmap string (list Byte.byte);
  os_dirs : gset string;
  os_denied : gset string;
  os_ioerr : gset string;
  os_unreadable : gset string
}.

Definition with_files (o : osState) (fs : gmap string (list Byte.byte))
    : osState :=
  mkOS fs (os_dirs o) (os_denied o) (os_ioerr o) (os_unreadable o).

Definition os_Open (o : osState) (name : string)
    : list Byte.byte + string :=
  if decide (name ∈ os_unreadable o) then inr "permission denied"%string
  else match os_files o !! name with
       | Some content => inl content
       | None => inr "no such file or directory"%string
       end.

(** Reading an open file to its end: the bytes, or the error. *)
Definition io_Copy (o : osState) (name : string) (content : list Byte.byte)
    : Z * option string :=
  if decide (name ∈ os_ioerr o) then (0, Some "input/output error"%string)
  else (Z.of_nat (length content), None).

Definition os_Remove (o : osState) (name : string)
    : osState * option string :=
  if decide (name ∈ os_denied o) then (o, Some "permission denied"%string)
  else match os_files o !! name with
       | Some _ => (with_files o (delete name (os_files o)), None)
       | None => (o, Some "no such file or directory"%string)
       end.

Definition os_Rename (o : osState) (oldpath newpath : string)
    : osState * option string :=
  if decide (oldpath ∈ os_denied o ∨ newpath ∈ os_denied o)
  then (o, Some "permission denied"%string)
  else if decide (newpath ∈ os_dirs o)
  then (o, Some "file exists"%string)
  else match os_files o !! oldpath with
       | Some content =>
           (with_files o (<[newpath := content]> (delete oldpath (os_files o))),
            None)
       | None => (o, Some "no such file or directory"%string)
       end.

Definition os_MkdirAll (o : osState) (dir : string)
    : osState * option string :=
  if decide (dir ∈ os_dirs o) then (o, None)
  else if decide (dir ∈ os_denied o)
  then (o, Some "permission denied"%string)
  else if decide (is_Some (os_files o !! dir))
  then (o, Some "not a directory"%string)
  else (mkOS (os_files o) ({[dir]} ∪ os_dirs o) (os_denied o) (os_ioerr o)
          (os_unreadable o),
        None).

Definition os_Create (o : osState) (name : string)
    : osState * option string :=
  if decide (name ∈ os_denied o) then (o, Some "permission denied"%string)
  else if decide (name ∈ os_dirs o) then (o, Some "is a directory"%string)
  else (with_files o (<[name := []]> (os_files o)), None).

Definition file_WriteString (o : osState) (name : string) (s : string)
    : osState * option string :=
  if decide (name ∈ os_ioerr o) then (o, Some "input/output error"%string)
  else match os_files o !! name with
       | Some content =>
           (with_files o
              (<[name := content ++ list_byte_of_string s]> (os_files o)),
            None)
       | None => (o, Some "file already closed"%string)
       end.

(** ** The walker *)

Inductive fileKind : Type :=
| Regular | Directory | Symlink | NamedPipe | Socket | Device.

Global Instance fileKind_eq_dec : EqDecision fileKind.
Proof. solve_decision. Defined.

(** What the program asks of an [os.FileInfo]. *)
Record FileInfo : Type := mkInfo {
  fi_kind : fileKind;
  fi_Size : Z;
  fi_ModTime : Z (* UnixNano *)
}.

Definition IsRegular (info : FileInfo) : bool :=
  bool_decide (fi_kind info = Regular).
Definition IsDir (info : FileInfo) : bool :=
  bool_decide (fi_kind info = Directory).

(** The callback handed to [filepath.Walk]. Its result is the record it
    sends on [fileChannel], if any; the error it returns is always nil.
    The branch taken on a non-nil [err] is empty, so [err] plays no part.
    The library passes no [FileInfo] when it could not stat the entry,
    and calling a method of the missing value panics. *)
Definition walk (path : string) (info : option FileInfo) (err : option string)
    : result (option tFileData) :=
  match info with
  | None => Panic "invalid memory address or nil pointer dereference"
  | Some info =>
      if negb (IsRegular info) then Ok None
      else if IsDir info then Ok None
      else
        let size := fi_Size info in
        if bool_decide (size > 0)
        then Ok (Some (mkFileData path size [] (fi_ModTime info)))
        else Ok None
  end.

(** A directory tree as [filepath.Walk] meets it: an entry without
    anything below it, an entry whose names can be read (given in the
    lexical order in which the library visits them), an entry whose names
    cannot be read, and a name that cannot be stat-ed. *)
Inductive tree : Type :=
| Entry (name : string) (info : FileInfo)
| Folder (name : string) (info : FileInfo) (children : list tree)
| Unreadable (name : string) (info : FileInfo) (err : string)
| Vanished (name : string) (err : string).

Definition tree_name (t : tree) : string :=
  match t with
  | Entry name _ | Folder name _ _ | Unreadable name _ _ | Vanished name _ =>
      name
  end.

(** What a stage has sent downstream, and the panic that ended it. *)
Definition sent : Type := list tFileData * option string.

Definition sent_of (r : result (option tFileData)) : sent :=
  match r with
  | Ok (Some d) => ([d], None)
  | Ok None => ([], None)
  | Panic msg => ([], Some msg)
  end.

Definition and_then (a : sent) (b : sent) : sent :=
  match a.2 with
  | Some _ => a
  | None => (a.1 ++ b.1, b.2)
  end.

(** [filepath.Walk] with [walk] as its callback. The library calls the
    callback on what is not a directory, does not look below it, and calls
    it on a directory once it has tried to read the names in it. As the
    callback returns nil whenever it returns, the library never cuts the
    traversal short. *)
Fixpoint walk_tree (path : string) (t : tree) : sent :=
  match t with
  | Entry _ info => sent_of (walk path (Some info) None)
  | Folder _ info children =>
      if negb (IsDir info) then sent_of (walk path (Some info) None)
      else
        and_then (sent_of (walk path (Some info) None))
          ((fix walk_children (ts : list tree) : sent :=
              match ts with
              | [] => ([], None)
              | t' :: ts' =>
                  and_then (walk_tree (filepath_Join path (tree_name t')) t')
                           (walk_children ts')
              end) children)
  | Unreadable _ info err =>
      if negb (IsDir info) then sent_of (walk path (Some info) None)
      else sent_of (walk path (Some info) (Some err))
  | Vanished _ err => sent_of (walk path None (Some err))
  end.

Definition filepath_Walk (root : string) (t : tree) : sent :=
  walk_tree root t.

(** The entries of a tree that can be stat-ed, each under the path at
    which the traversal meets it. *)
Fixpoint entries (path : string) (t : tree) : list (string * FileInfo) :=
  match t with
  | Entry _ info => [(path, info)]
  | Folder _ info children =>
      (path, info) ::
      if negb (IsDir info) then []
      else
        (fix entries_children (ts : list tree) : list (string * FileInfo) :=
           match ts with
           | [] => []
           | t' :: ts' =>
               entries (filepath_Join path (tree_name t')) t' ++
               entries_children ts'
           end) children
  | Unreadable _ info _ => [(path, info)]
  | Vanished _ _ => []
  end.

(** ** The checksum workers *)

Definition panicErr (err : option string) : result unit :=
  match err with
  | Some e => Panic e
  | None => Ok tt
  end.

(** [checksum] opens the file and copies it through the hasher. The copy
    hands the file over in pieces of at most 2 MiB; the hasher absorbs
    bytes one after the other, so the pieces do not show in the digest
    (see [simpleUpdate_app]). The second result is the number of bytes
    copied. *)
Definition checksum (o : osState) (file : string)
    : result (list Byte.byte * Z) :=
  match os_Open o file with
  | inr err => Panic err
  | inl content =>
      let '(size, err) := io_Copy o file content in
      _ ←! panicErr err;
      Ok (crc32_Sum (crc32_IEEE content), size)
  end.

Definition set_hash (data : tFileData) (h : list Byte.byte) : tFileData :=
  mkFileData (fd_path data) (fd_size data) h (fd_modified data).

(** One worker draining the records it receives from [fileChannel]; the
    byte count that [checksum] returns is thrown away. *)
Fixpoint calculateChecksum (o : osState) (queue : list tFileData) : sent :=
  match queue with
  | [] => ([], None)
  | data :: queue' =>
      match checksum o (fd_path data) with
      | Ok (h, _) =>
          and_then ([set_hash data h], None) (calculateChecksum o queue')
      | Panic msg => ([], Some msg)
      end
  end.

(** ** The actions *)

(** [listDuplicates] ranges over the map, whose iteration order Go leaves
    open: [order] is the order in which the entries come up, some
    permutation of the entries of the map. *)
Definition listDuplicates_in (order : list (string * list tFileData))
    : list string :=
  fold_left
    (λ result kv,
       if bool_decide (length kv.2 < 2)%nat then result
       else result ++ (fd_path <$> drop 1 kv.2))
    order [].

Definition range_order (m : gmap string (list tFileData))
    (order : list (string * list tFileData)) : Prop :=
  order ≡ₚ map_to_list m.

(** The outcome of an action: the system as the action left it, and the
    count it logs, unless it panicked on the way. *)
Fixpoint remove_each (o : osState) (paths : list string) (count : Z)
    : osState * result Z :=
  match paths with
  | [] => (o, Ok count)
  | path :: paths' =>
      let '(o', err) := os_Remove o path in
      match panicErr err with
      | Panic msg => (o', Panic msg)
      | Ok _ => remove_each o' paths' (count + 1)
      end
  end.

Definition deleteDuplicates (o : osState)
    (order : list (string * list tFileData)) : osState * result Z :=
  remove_each o (listDuplicates_in order) 0.

Definition ensureTargetDir (o : osState) (targetDir : string)
    : osState * result string :=
  let '(o', err) := os_MkdirAll o targetDir in
  match panicErr err with
  | Panic msg => (o', Panic msg)
  | Ok _ => (o', Ok targetDir)
  end.

Fixpoint rename_each (o : osState) (targetDir : string)
    (paths : list string) (count : Z) : osState * result Z :=
  match paths with
  | [] => (o, Ok count)
  | path :: paths' =>
      let '(o', err) :=
        os_Rename o path (filepath_Join targetDir (filepath_Base path)) in
      match panicErr err with
      | Panic msg => (o', Panic msg)
      | Ok _ => rename_each o' targetDir paths' (count + 1)
      end
  end.

Definition moveDuplicates (o : osState) (targetDir : string)
    (order : list (string * list tFileData)) : osState * result Z :=
  match ensureTargetDir o targetDir with
  | (o', Panic msg) => (o', Panic msg)
  | (o', Ok _) => rename_each o' targetDir (listDuplicates_in order) 0
  end.

Fixpoint write_each (o : osState) (file : string)
    (paths : list string) (count : Z) : osState * result Z :=
  match paths with
  | [] => (o, Ok count)
  | path :: paths' =>
      let '(o1, err) := file_WriteString o file path in
      match panicErr err with
      | Panic msg => (o1, Panic msg)
      | Ok _ =>
          let '(o2, _) := file_WriteString o1 file (String "010" EmptyString) in
          write_each o2 file paths' (count + 1)
      end
  end.

Definition exportDuplicates (o : osState) (targetDir : string)
    (order : list (string * list tFileData)) : osState * result Z :=
  match ensureTargetDir o targetDir with
  | (o1, Panic msg) => (o1, Panic msg)
  | (o1, Ok dir) =>
      let path := filepath_Join dir "duplicates.txt" in
      let '(o2, err) := os_Create o1 path in
      match panicErr err with
      | Panic msg => (o2, Panic msg)
      | Ok _ => write_each o2 path (listDuplicates_in order) 0
      end
  end.

(** Reading a manifest back: the text before each line feed is a line. *)
Definition manifest_lines (text : string) : list string :=
  removelast (split_sep "010" text).

Definition IsAbs (p : string) : bool :=
  bool_decide (String.get 0 p = Some "/"%char).

(** What is in the file once [paths] have been written to it. *)
Fixpoint manifest_text (paths : list string) : string :=
  match paths with
  | [] => EmptyString
  | path :: paths' => path +:+ String "010" (manifest_text paths')
  end.

Definition manifest_path (targetDir : string) : string :=
  filepath_Join targetDir "duplicates.txt".

Fixpoint has_char (c : Ascii.ascii) (s : string) : bool :=
  match s with
  | EmptyString => false
  | String c' s' => if decide (c' = c) then true else has_char c s'
  end.

(** ** The pipeline of [main]

    The goroutines are interleaved by a step relation. The walker sends
    what [filepath.Walk] makes the callback send, one record at a time,
    into [fileChannel] (200 places); [scan] then raises the flag. Two
    workers take records from [fileChannel] and put them, with their hash,
    into [checksumChannel] (100 places); the aggregator takes them from
    there. [updateStats] ticks, shows the counters and stops after the
    tick that saw the flag. A panic in any goroutine ends the process.

    A move of [step] is a whole round of a goroutine's loop, so that its
    states are those in which every goroutine is between two rounds. The
    moves inside a round are those of [fstep] further down. *)

Record pipeline : Type := mkPipe {
  walker : sent;
  fileChannel : list tFileData;
  workers : list (option tFileData);
  checksumChannel : list tFileData;
  agg : aggState;
  reporting : bool;
  shown : list tStats;
  crashed : option string
}.

Definition pipeline0 (w : sent) : pipeline :=
  mkPipe w [] [None; None] [] agg0 true [] None.

Definition set_complted (a : aggState) : aggState :=
  mkAgg (duplicates a)
    (mkStats (st_seconds (stats a)) (st_count (stats a)) (st_size (stats a))
       (st_duplicates (stats a)) (st_duplicateSize (stats a)) true)
    (right a).

Definition tick (a : aggState) : aggState :=
  mkAgg (duplicates a)
    (mkStats (uint64 (st_seconds (stats a) + 1)) (st_count (stats a))
       (st_size (stats a)) (st_duplicates (stats a))
       (st_duplicateSize (stats a)) (st_complted (stats a)))
    (right a).

Section Pipeline.

Variable sort_Slice :
  (tFileData → tFileData → bool) → list tFileData → list tFileData.
Variable o : osState.

Inductive step : pipeline → pipeline → Prop :=
| step_walk_send d todo end_ fc ws cc a rep sh :
    (length fc < 200)%nat →
    step (mkPipe (d :: todo, end_) fc ws cc a rep sh None)
         (mkPipe (todo, end_) (fc ++ [d]) ws cc a rep sh None)
| step_walk_panic msg fc ws cc a rep sh :
    step (mkPipe ([], Some msg) fc ws cc a rep sh None)
         (mkPipe ([], Some msg) fc ws cc a rep sh (Some msg))
| step_scan_done fc ws cc a rep sh :
    st_complted (stats a) = false →
    step (mkPipe ([], None) fc ws cc a rep sh None)
         (mkPipe ([], None) fc ws cc (set_complted a) rep sh None)
| step_worker_take i data h n w fc ws cc a rep sh :
    ws !! i = Some None →
    checksum o (fd_path data) = Ok (h, n) →
    step (mkPipe w (data :: fc) ws cc a rep sh None)
         (mkPipe w fc (<[i := Some (set_hash data h)]> ws) cc a rep sh None)
| step_worker_panic i data msg w fc ws cc a rep sh :
    ws !! i = Some None →
    checksum o (fd_path data) = Panic msg →
    step (mkPipe w (data :: fc) ws cc a rep sh None)
         (mkPipe w fc ws cc a rep sh (Some msg))
| step_worker_put i data w fc ws cc a rep sh :
    ws !! i = Some (Some data) →
    (length cc < 100)%nat →
    step (mkPipe w fc ws cc a rep sh None)
         (mkPipe w fc (<[i := None]> ws) (cc ++ [data]) a rep sh None)
| step_aggregate d a' w fc ws cc a rep sh :
    findDuplicates_body sort_Slice a d = Ok a' →
    step (mkPipe w fc ws (d :: cc) a rep sh None)
         (mkPipe w fc ws cc a' rep sh None)
| step_aggregate_panic d msg w fc ws cc a rep sh :
    findDuplicates_body sort_Slice a d = Panic msg →
    step (mkPipe w fc ws (d :: cc) a rep sh None)
         (mkPipe w fc ws cc a rep sh (Some msg))
| step_tick w fc ws cc a sh :
    step (mkPipe w fc ws cc a true sh None)
         (mkPipe w fc ws cc (tick a)
            (negb (st_complted (stats (tick a))))
            (sh ++ [stats (tick a)]) None).

Definition reachable (w : sent) (p : pipeline) : Prop :=
  rtc step (pipeline0 w) p.

(** Fingerprint jobs that are dispatched and not yet aggregated. *)
Definition in_flight (p : pipeline) : list tFileData :=
  fileChannel p ++ omap id (workers p) ++ checksumChannel p.

End Pipeline.

(** * Notions used in the statements, and sample inputs *)

(** ** The registry and its counters *)

Definition Zsum (zs : list Z) : Z := foldr Z.add 0 zs.

Definition sum_groups (f : list tFileData → Z)
    (m : gmap string (list tFileData)) : Z :=
  Zsum ((λ kv, f kv.2) <$> map_to_list m).

Definition usize (d : tFileData) : Z := uint64 (fd_size d).

(** The two quantities the counters are meant to track. *)
Definition duplicateCount_of (m : gmap string (list tFileData)) : Z :=
  sum_groups (λ l, Z.max 0 (Z.of_nat (length l) - 1)) m.

Definition duplicateBytes_of (m : gmap string (list tFileData)) : Z :=
  sum_groups (λ l, Zsum (usize <$> drop 1 l)) m.

(** The key under which a record is filed, and the records of a stream
    that are filed under a given key, in the order of their arrival. *)
Definition key (d : tFileData) : string := Sprintf_x (fd_hash d).

Definition arrivals (h : string) (ds : list tFileData) : list tFileData :=
  filter (λ d, key d = h) ds.

Definition registry_inv (ds : list tFileData) (a : aggState) : Prop :=
  ∀ h, match duplicates a !! h with
       | Some l => l ≠ [] ∧ l ≡ₚ arrivals h ds
       | None => arrivals h ds = []
       end.

Definition by_modified (x y : tFileData) : Prop :=
  fd_modified x ≤ fd_modified y.

Definition groups_sorted (a : aggState) : Prop :=
  ∀ h l, duplicates a !! h = Some l → StronglySorted by_modified l.

Definition same_size_per_key (ds : list tFileData) : Prop :=
  ∀ d1 d2, d1 ∈ ds → d2 ∈ ds → key d1 = key d2 → fd_size d1 = fd_size d2.

Definition count_inv (a : aggState) : Prop :=
  st_duplicates (stats a) = uint32 (duplicateCount_of (duplicates a)).

Definition bytes_inv (a : aggState) : Prop :=
  st_duplicateSize (stats a) = uint64 (duplicateBytes_of (duplicates a)).

Definition agg_inv (ds : list tFileData) (a : aggState) : Prop :=
  registry_inv ds a ∧ groups_sorted a ∧ count_inv a ∧
  (same_size_per_key ds → bytes_inv a).

(** ** Files with one CRC-32

    Two contents of five and six bytes whose CRC-32 is the same. *)

Definition content_five : list Byte.byte :=
  byte_of_Z <$> [97; 67; 190; 183; 232].
Definition content_six : list Byte.byte :=
  byte_of_Z <$> [98; 99; 56; 43; 169; 194].

Definition os_collision : osState :=
  mkOS (<["/d/old" := content_five]> (<["/d/new" := content_six]> ∅)) ∅ ∅ ∅ ∅.

(** [/d/old] is met first by the walker; [/d/new] carries the earlier
    modification time. *)
Definition rec_five : tFileData := mkFileData "/d/old" 5 [] 200.
Definition rec_six : tFileData := mkFileData "/d/new" 6 [] 100.

(** What a worker has sent on for a queue, panic or not. *)
Definition fingerprinted (o : osState) (queue : list tFileData)
    : list tFileData :=
  (calculateChecksum o queue).1.

(** Two records with one hash and one modification time. *)
Definition tie_first : tFileData :=
  mkFileData "/d/a" 3 (crc32_Sum 7) 50.
Definition tie_second : tFileData :=
  mkFileData "/d/b" 3 (crc32_Sum 7) 50.
(** A third one with the same hash, modified before the other two. *)
Definition older_third : tFileData :=
  mkFileData "/d/c" 3 (crc32_Sum 7) 20.

(** More records with that hash and one modification time, named by
    their place in the order of arrival: six of them, and a seventh
    modified before them. *)
Definition alike (path : string) : tFileData :=
  mkFileData path 3 (crc32_Sum 7) 50.
Definition six_then_earlier : list tFileData :=
  [alike "/d/1"; alike "/d/2"; alike "/d/3"; alike "/d/4"; alike "/d/5";
   alike "/d/6"; mkFileData "/d/7" 3 (crc32_Sum 7) 20].
(** Twelve of them, and a thirteenth modified before them. *)
Definition twelve_then_earlier : list tFileData :=
  [alike "/d/1"; alike "/d/2"; alike "/d/3"; alike "/d/4"; alike "/d/5";
   alike "/d/6"; alike "/d/7"; alike "/d/8"; alike "/d/9"; alike "/d/10";
   alike "/d/11"; alike "/d/12"; mkFileData "/d/13" 3 (crc32_Sum 7) 20].

(** [x] came in before [y]. *)
Definition arrived_before (ds : list tFileData) (x y : tFileData) : Prop :=
  ∃ p q : nat, (p < q)%nat ∧ ds !! p = Some x ∧ ds !! q = Some y.

Definition ties_keep_arrival_order (ds l : list tFileData) : Prop :=
  ∀ (i j : nat) x y, (i < j)%nat → l !! i = Some x → l !! j = Some y →
    fd_modified x = fd_modified y → arrived_before ds x y.

(** ** Workers and actions *)

Definition readable (o : osState) (file : string) : Prop :=
  (file ∉ os_unreadable o) ∧ (file ∉ os_ioerr o) ∧
  is_Some (os_files o !! file).

(** The record a worker sends on for [data]: everything as the walker
    found it, and the hash of what the file holds now. *)
Definition fingerprint_of (o : osState) (data : tFileData) : tFileData :=
  set_hash data
    (crc32_Sum (crc32_IEEE (default [] (os_files o !! fd_path data)))).

(** A one-byte file that the walker saw with five bytes, and a file that
    cannot be opened in front of a file that can. *)
Definition os_shrunk : osState :=
  mkOS (<["/d/f" := [Byte.x61]]> (<["/d/g" := [Byte.x62]]> ∅))
       ∅ ∅ ∅ {["/d/g"]}.
Definition rec_shrunk : tFileData := mkFileData "/d/f" 5 [] 10.
Definition rec_denied : tFileData := mkFileData "/d/g" 1 [] 10.

(** What one group adds to the listing. *)
Definition group_duplicates (kv : string * list tFileData) : list string :=
  if bool_decide (length kv.2 < 2)%nat then [] else fd_path <$> drop 1 kv.2.

(** [path] is the path of a member other than the first of a group with
    at least two members. *)
Definition non_canonical_path (m : gmap string (list tFileData))
    (path : string) : Prop :=
  ∃ h l (i : nat) d,
    m !! h = Some l ∧ (2 ≤ length l)%nat ∧ l !! S i = Some d ∧ fd_path d = path.

Definition removable (o : osState) (path : string) : Prop :=
  (path ∉ os_denied o) ∧ is_Some (os_files o !! path).

(** What is left of the files once [gone] have been removed. *)
Definition files_without (gone : list string) (o o' : osState) : Prop :=
  ∀ q, os_files o' !! q = if decide (q ∈ gone) then None else os_files o !! q.

(** Four files with one hash, all readable; the system refuses to remove
    the third. *)
Definition os_guarded : osState :=
  mkOS (<["/d/k" := [Byte.x61]]> (<["/d/a" := [Byte.x61]]>
         (<["/d/b" := [Byte.x61]]> (<["/d/c" := [Byte.x61]]> ∅))))
       ∅ {["/d/b"]} ∅ ∅.

Definition four_alike : list tFileData :=
  fingerprinted os_guarded
    [mkFileData "/d/k" 1 [] 10; mkFileData "/d/a" 1 [] 20;
     mkFileData "/d/b" 1 [] 30; mkFileData "/d/c" 1 [] 40].

(** Where Move puts a duplicate. *)
Definition destination (targetDir path : string) : string :=
  filepath_Join targetDir (filepath_Base path).

Definition movable (o : osState) (targetDir path : string) : Prop :=
  (path ∉ os_denied o) ∧ is_Some (os_files o !! path) ∧
  (destination targetDir path ∉ os_denied o) ∧
  (destination targetDir path ∉ os_dirs o) ∧
  destination targetDir path ≠ targetDir.

Definition creatable (o : osState) (dir : string) : Prop :=
  dir ∈ os_dirs o ∨ (dir ∉ os_denied o) ∧ os_files o !! dir = None.

(** The oldest file lies in the directory the duplicates are moved to. *)
Definition os_keep : osState :=
  mkOS (<["/t/f" := content_six]> (<["/s/f" := content_five]> ∅))
       {["/t"]} ∅ ∅ ∅.

Definition keep_records : list tFileData :=
  fingerprinted os_keep
    [mkFileData "/s/f" 5 [] 200; mkFileData "/t/f" 6 [] 100].

(** Three files alike, to be moved into a directory that does not exist
    yet. *)
Definition os_apart : osState :=
  mkOS (<["/s/k" := [Byte.x61]]> (<["/s/x/a" := [Byte.x61]]>
         (<["/s/y/b" := [Byte.x61]]> ∅))) ∅ ∅ ∅ ∅.

Definition apart_records : list tFileData :=
  fingerprinted os_apart
    [mkFileData "/s/k" 1 [] 10; mkFileData "/s/x/a" 1 [] 20;
     mkFileData "/s/y/b" 1 [] 30].

(** ** Trees *)

(** [d] stands for a regular file of the tree that is not empty. *)
Definition from_regular_nonempty (root : string) (t : tree) (d : tFileData)
    : Prop :=
  ∃ info, (fd_path d, info) ∈ entries root t ∧
          fi_kind info = Regular ∧ 0 < fi_Size info ∧
          fd_size d = fi_Size info ∧ fd_modified d = fi_ModTime info.

Definition dir_info : FileInfo := mkInfo Directory 4096 1.

(** A directory with a regular file, an empty file, a symbolic link, a
    subdirectory with a regular file, and a named pipe. *)
Definition tree_mixed : tree :=
  Folder "r" dir_info
    [ Entry "a.txt" (mkInfo Regular 1 30);
      Entry "empty" (mkInfo Regular 0 31);
      Entry "link" (mkInfo Symlink 5 32);
      Folder "sub" dir_info [Entry "b.txt" (mkInfo Regular 1 20)];
      Entry "pipe" (mkInfo NamedPipe 0 33) ].

Definition os_mixed : osState :=
  mkOS (<["/r/a.txt" := [Byte.x61]]> (<["/r/sub/b.txt" := [Byte.x61]]> ∅))
       ∅ ∅ ∅ ∅.

(** A directory in which one name cannot be stat-ed, between two regular
    files. *)
Definition tree_gone : tree :=
  Folder "r" dir_info
    [ Entry "a" (mkInfo Regular 1 30);
      Vanished "gone" "no such file or directory";
      Entry "z" (mkInfo Regular 1 31) ].

(** A scan of the working directory, and a file with a line feed in its
    name. *)
Definition tree_here : tree :=
  Folder "." dir_info
    [ Entry "a.txt" (mkInfo Regular 1 10);
      Entry "b.txt" (mkInfo Regular 1 20) ].

Definition os_here : osState :=
  mkOS (<["a.txt" := [Byte.x61]]> (<["b.txt" := [Byte.x61]]> ∅)) ∅ ∅ ∅ ∅.

Definition two_lines : string := "/r/x" +:+ String "010" "y".

Definition os_feed : osState :=
  mkOS (<["/r/k" := [Byte.x61]]> (<[two_lines := [Byte.x61]]> ∅)) ∅ ∅ ∅ ∅.

Definition feed_records : list tFileData :=
  fingerprinted os_feed
    [mkFileData "/r/k" 1 [] 10; mkFileData two_lines 1 [] 20].

(** The lines of a file of the system. *)
Definition read_lines (o : osState) (file : string) : list string :=
  manifest_lines (string_of_list_byte (default [] (os_files o !! file))).

(** ** The flag *)

Definition flag (p : pipeline) : bool := st_complted (stats (agg p)).

(** The flag is up only if the walker is through, and a snapshot that
    shows the flag up was taken with the flag up. *)
Definition flag_inv (p : pipeline) : Prop :=
  (flag p = true → walker p = ([], None)) ∧
  Forall (λ s, st_complted s = true → flag p = true) (shown p).

Definition mixed_a : tFileData := mkFileData "/r/a.txt" 1 [] 30.
Definition mixed_b : tFileData := mkFileData "/r/sub/b.txt" 1 [] 20.

(** Both records sent, the flag raised and shown, nothing fingerprinted. *)
Definition early_flag : pipeline :=
  mkPipe ([], None) [mixed_a; mixed_b] [None; None] []
    (tick (set_complted agg0)) false [stats (tick (set_complted agg0))] None.

(** ** More notions: the walker on a tree whose entries can all be stat-ed *)

(** Some name that the traversal reaches cannot be stat-ed. *)
Fixpoint stat_fails (t : tree) : bool :=
  match t with
  | Entry _ _ => false
  | Folder _ info children =>
      if negb (IsDir info) then false
      else
        (fix any_fails (ts : list tree) : bool :=
           match ts with
           | [] => false
           | t' :: ts' => stat_fails t' || any_fails ts'
           end) children
  | Unreadable _ _ _ => false
  | Vanished _ _ => true
  end.

(** The record that stands for an entry, if the entry is a regular file
    that is not empty. *)
Definition record_of (e : string * FileInfo) : option tFileData :=
  if IsRegular e.2 && bool_decide (fi_Size e.2 > 0)
  then Some (mkFileData e.1 (fi_Size e.2) [] (fi_ModTime e.2))
  else None.

(** ** More notions: the members of the registry *)

(** All members of all groups. *)
Definition all_members (m : gmap string (list tFileData)) : list tFileData :=
  map_to_list m ≫= snd.

(** ** More notions: the rows of the terminal list *)

(** The second line of the row of a group whose members behind the first
    are [second :: rest]. *)
Definition dupFiles_of (second : tFileData) (rest : list tFileData) : string :=
  if bool_decide (1 < Z.of_nat (length (second :: rest)))
  then (fd_path second +:+
        Sprintf_more (Z.of_nat (length (second :: rest)) - 1))%string
  else fd_path second.

(** No two rows have one first line, and every group with a duplicate
    has a row that shows its canonical file and its duplicates. *)
Definition rows_inv (a : aggState) : Prop :=
  NoDup (MainText <$> right a) ∧
  ∀ h head second rest,
    duplicates a !! h = Some (head :: second :: rest) →
    ∃ (i : nat) shortcut,
      right a !! i =
        Some (mkItem (fd_path head) (dupFiles_of second rest) shortcut).

(** ** More notions: reading a key back *)

Definition hex_val (c : Ascii.ascii) : Z :=
  let n := Z.of_N (Ascii.N_of_ascii c) in
  if bool_decide (n ≤ 57) then n - 48 else n - 87.

Fixpoint unhex (s : string) : list Byte.byte :=
  match s with
  | String hi (String lo s') =>
      byte_of_Z (16 * hex_val hi + hex_val lo) :: unhex s'
  | _ => []
  end.

(** ** More notions: the system after an export *)



(** ** More notions: what the pipeline keeps *)

(** The channels hold no more than their places, and there are two
    workers. *)
Definition bounds_inv (p : pipeline) : Prop :=
  (length (fileChannel p) ≤ 200)%nat ∧
  (length (checksumChannel p) ≤ 100)%nat ∧
  length (workers p) = 2%nat.

(** ** The pipeline, one access to shared memory at a time

    [step] lets a goroutine go once round its loop in one move. What the
    other goroutines can find while one of them is in the middle of an
    iteration takes finer moves: here a move is one channel operation, or
    one read or one update of one shared variable. (Every field of
    [stats] and the map are each written by one goroutine only, so that
    [stats.count++] and the like can be taken as one move.) A read or an
    update of one variable is taken to be indivisible, and the moves to
    take effect in the order in which they are made.

    A worker is at [range fileChannel], or holds a record it has
    received, or holds the record with its hash. *)

Inductive workerAt : Type :=
| WIdle
| WGot (data : tFileData)
| WReady (data : tFileData).

(** Where the aggregator is in [findDuplicates], and its local variables
    [d] and [list]; [list0] is the slice the map gave at line 217, kept
    for the statements after line 219 has overwritten the variable.
    [shared] says that [append] found room in the array of that slice, so
    that the slice in the map and [list] lie over one array. *)
Inductive aggregatorAt : Type :=
| AWait                                             (* line 213 *)
| AGot (d : tFileData)                              (* received *)
| ACounted (d : tFileData)                          (* after 214 *)
| ASized (d : tFileData)                            (* after 215 *)
| AFresh (d : tFileData)                            (* 217, not found *)
| AFound (d : tFileData) (list0 : list tFileData)   (* 217, found *)
| AAppended (d : tFileData) (list0 : list tFileData) (shared : bool)
| ASorted (d : tFileData) (list0 list1 : list tFileData)    (* after 223 *)
| ADup (d : tFileData) (list0 list1 : list tFileData)       (* after 224 *)
| ADupSized (d : tFileData) (list0 list1 : list tFileData)  (* after 225 *)
| ARowed (d : tFileData) (list0 list1 : list tFileData).    (* after 242 *)

(** The places where [updateStats] reads a counter for the text it
    shows: [formatPercent] (lines 83 and 86), the speed (line 259) and
    the arguments of [Sprintf] (lines 263 to 265). *)
Inductive slot : Type :=
| GuardSize | PercentDuplicateSize | PercentSize
| SpeedSize | SpeedSeconds
| ArgSeconds | ArgCount | ArgSize | ArgDuplicates | ArgDuplicateSize.

Definition read_slot (s : slot) (st : tStats) : Z :=
  match s with
  | GuardSize | PercentSize | SpeedSize | ArgSize => st_size st
  | PercentDuplicateSize | ArgDuplicateSize => st_duplicateSize st
  | SpeedSeconds | ArgSeconds => st_seconds st
  | ArgCount => st_count st
  | ArgDuplicates => st_duplicates st
  end.

Inductive stage : Type := Guard | Percent | Speed | Args.

(** The operands of one expression are read in an order the language
    leaves open: the reads of a stage may come in any order. After the
    guard of [formatPercent] the quotient is computed only if the size
    read was at least one. *)
Definition next_stage (st : stage) (got : list (slot * Z))
    : option (stage * list slot) :=
  match st with
  | Guard =>
      match got with
      | [(GuardSize, size)] =>
          if bool_decide (size < 1) then Some (Speed, [SpeedSize; SpeedSeconds])
          else Some (Percent, [PercentDuplicateSize; PercentSize])
      | _ => None
      end
  | Percent => Some (Speed, [SpeedSize; SpeedSeconds])
  | Speed =>
      Some (Args, [ArgSeconds; ArgCount; ArgSize; ArgDuplicates;
                   ArgDuplicateSize])
  | Args => None
  end.

(** What a text shown by [updateStats] is made of: the flag as read at
    line 255, and the counters as read for it. *)
Record report : Type := mkReport {
  shown_done : bool;
  shown_read : list (slot * Z)
}.

Inductive reporterAt : Type :=
| RWait                                   (* at [range time.Tick] *)
| RTicked                                 (* after line 253 *)
| RReading (done : bool) (st : stage) (pending : list slot)
    (got : list (slot * Z))               (* after line 255 *)
| RShown                                  (* after [SetText] *)
| RStopped.                               (* after [break] *)

Record fine : Type := mkFine {
  f_walker : sent;
  f_fileChannel : list tFileData;
  f_workers : list workerAt;
  f_checksumChannel : list tFileData;
  f_duplicates : gmap string (list tFileData);
  f_stats : tStats;
  f_right : list listItem;
  f_agg : aggregatorAt;
  f_rep : reporterAt;
  f_shown : list report;
  f_crashed : option string
}.

Definition fine0 (w : sent) : fine :=
  mkFine w [] [WIdle; WIdle] [] ∅ stats0 [] AWait RWait [] None.

Definition upd_walker (w : sent) (p : fine) : fine :=
  mkFine w (f_fileChannel p) (f_workers p) (f_checksumChannel p)
    (f_duplicates p) (f_stats p) (f_right p) (f_agg p) (f_rep p)
    (f_shown p) (f_crashed p).
Definition upd_fileChannel (fc : list tFileData) (p : fine) : fine :=
  mkFine (f_walker p) fc (f_workers p) (f_checksumChannel p)
    (f_duplicates p) (f_stats p) (f_right p) (f_agg p) (f_rep p)
    (f_shown p) (f_crashed p).
Definition upd_workers (ws : list workerAt) (p : fine) : fine :=
  mkFine (f_walker p) (f_fileChannel p) ws (f_checksumChannel p)
    (f_duplicates p) (f_stats p) (f_right p) (f_agg p) (f_rep p)
    (f_shown p) (f_crashed p).
Definition upd_checksumChannel (cc : list tFileData) (p : fine) : fine :=
  mkFine (f_walker p) (f_fileChannel p) (f_workers p) cc
    (f_duplicates p) (f_stats p) (f_right p) (f_agg p) (f_rep p)
    (f_shown p) (f_crashed p).
Definition upd_duplicates (m : gmap string (list tFileData)) (p : fine)
    : fine :=
  mkFine (f_walker p) (f_fileChannel p) (f_workers p) (f_checksumChannel p)
    m (f_stats p) (f_right p) (f_agg p) (f_rep p) (f_shown p) (f_crashed p).
Definition upd_stats (s : tStats) (p : fine) : fine :=
  mkFine (f_walker p) (f_fileChannel p) (f_workers p) (f_checksumChannel p)
    (f_duplicates p) s (f_right p) (f_agg p) (f_rep p) (f_shown p)
    (f_crashed p).
Definition upd_right (r : list listItem) (p : fine) : fine :=
  mkFine (f_walker p) (f_fileChannel p) (f_workers p) (f_checksumChannel p)
    (f_duplicates p) (f_stats p) r (f_agg p) (f_rep p) (f_shown p)
    (f_crashed p).
Definition upd_agg (a : aggregatorAt) (p : fine) : fine :=
  mkFine (f_walker p) (f_fileChannel p) (f_workers p) (f_checksumChannel p)
    (f_duplicates p) (f_stats p) (f_right p) a (f_rep p) (f_shown p)
    (f_crashed p).
Definition upd_rep (r : reporterAt) (p : fine) : fine :=
  mkFine (f_walker p) (f_fileChannel p) (f_workers p) (f_checksumChannel p)
    (f_duplicates p) (f_stats p) (f_right p) (f_agg p) r (f_shown p)
    (f_crashed p).
Definition upd_shown (sh : list report) (p : fine) : fine :=
  mkFine (f_walker p) (f_fileChannel p) (f_workers p) (f_checksumChannel p)
    (f_duplicates p) (f_stats p) (f_right p) (f_agg p) (f_rep p) sh
    (f_crashed p).
Definition upd_crashed (msg : string) (p : fine) : fine :=
  mkFine (f_walker p) (f_fileChannel p) (f_workers p) (f_checksumChannel p)
    (f_duplicates p) (f_stats p) (f_right p) (f_agg p) (f_rep p)
    (f_shown p) (Some msg).

(** The updates of the fields of [stats], one field each. *)
Definition count_up (s : tStats) : tStats :=
  mkStats (st_seconds s) (uint32 (st_count s + 1)) (st_size s)
    (st_duplicates s) (st_duplicateSize s) (st_complted s).
Definition size_up (d : tFileData) (s : tStats) : tStats :=
  mkStats (st_seconds s) (st_count s)
    (uint64 (st_size s + uint64 (fd_size d)))
    (st_duplicates s) (st_duplicateSize s) (st_complted s).
Definition duplicates_up (s : tStats) : tStats :=
  mkStats (st_seconds s) (st_count s) (st_size s)
    (uint32 (st_duplicates s + 1)) (st_duplicateSize s) (st_complted s).
Definition duplicateSize_up (d : tFileData) (s : tStats) : tStats :=
  mkStats (st_seconds s) (st_count s) (st_size s) (st_duplicates s)
    (uint64 (st_duplicateSize s + uint64 (fd_size d))) (st_complted s).
Definition seconds_up (s : tStats) : tStats :=
  mkStats (uint64 (st_seconds s + 1)) (st_count s) (st_size s)
    (st_duplicates s) (st_duplicateSize s) (st_complted s).
Definition complted_up (s : tStats) : tStats :=
  mkStats (st_seconds s) (st_count s) (st_size s) (st_duplicates s)
    (st_duplicateSize s) true.

(** Lines 226 to 242: the row of the group whose members are now
    [list1], with [stats.duplicates] as line 239 reads it. *)
Definition update_rows (duplicatesNow : Z) (right0 : list listItem)
    (list1 : list tFileData) : result (list listItem) :=
  match list1 with
  | head :: second :: rest =>
      let dupFiles :=
        if bool_decide (1 < Z.of_nat (length (second :: rest)))
        then (fd_path second +:+
              Sprintf_more (Z.of_nat (length (second :: rest)) - 1))%string
        else fd_path second in
      Ok match list_find (λ it, fd_path head = MainText it) right0 with
         | None =>
             AddItem (fd_path head) dupFiles
               (rune (uint32 (duplicatesNow + 32))) right0
         | Some (currentIndex, _) =>
             SetItemText currentIndex (fd_path head) dupFiles right0
         end
  | _ => Panic "index out of range"
  end.

Section FinePipeline.

Variable sort_Slice :
  (tFileData → tFileData → bool) → list tFileData → list tFileData.
Variable o : osState.

(** The moves. In every one of them nothing has panicked before.
    Whether [append] finds room in the array is a matter of the capacity
    the runtime gave it: both outcomes are moves. The sort of line 221
    works in place: while it runs and the array is shared, the slice in
    the map shows the first [len(list0)] places of the array as the
    exchanges, which are not indivisible, have left them
    ([fs_agg_exchange] lets it show anything of that length), and when
    the sort is over, the first [len(list0)] elements of the sorted
    slice; the map gets the new slice only at line 247. *)
Inductive fstep : fine → fine → Prop :=
(* scan: filepath.Walk with walk, then line 202 *)
| fs_walk_send p d todo end_ :
    f_crashed p = None →
    f_walker p = (d :: todo, end_) →
    (length (f_fileChannel p) < 200)%nat →
    fstep p (upd_walker (todo, end_)
               (upd_fileChannel (f_fileChannel p ++ [d]) p))
| fs_walk_panic p msg :
    f_crashed p = None →
    f_walker p = ([], Some msg) →
    fstep p (upd_crashed msg p)
| fs_scan_done p :
    f_crashed p = None →
    f_walker p = ([], None) →
    st_complted (f_stats p) = false →
    fstep p (upd_stats (complted_up (f_stats p)) p)
(* calculateChecksum: lines 206, 207, 208 *)
| fs_worker_receive p (i : nat) data fc :
    f_crashed p = None →
    f_workers p !! i = Some WIdle →
    f_fileChannel p = data :: fc →
    fstep p (upd_workers (<[i := WGot data]> (f_workers p))
               (upd_fileChannel fc p))
| fs_worker_checksum p (i : nat) data h n :
    f_crashed p = None →
    f_workers p !! i = Some (WGot data) →
    checksum o (fd_path data) = Ok (h, n) →
    fstep p (upd_workers (<[i := WReady (set_hash data h)]> (f_workers p)) p)
| fs_worker_panic p (i : nat) data msg :
    f_crashed p = None →
    f_workers p !! i = Some (WGot data) →
    checksum o (fd_path data) = Panic msg →
    fstep p (upd_crashed msg p)
| fs_worker_send p (i : nat) data :
    f_crashed p = None →
    f_workers p !! i = Some (WReady data) →
    (length (f_checksumChannel p) < 100)%nat →
    fstep p (upd_workers (<[i := WIdle]> (f_workers p))
               (upd_checksumChannel (f_checksumChannel p ++ [data]) p))
(* findDuplicates *)
| fs_agg_receive p d cc :                                    (* line 213 *)
    f_crashed p = None →
    f_agg p = AWait →
    f_checksumChannel p = d :: cc →
    fstep p (upd_agg (AGot d) (upd_checksumChannel cc p))
| fs_agg_count p d :                                         (* line 214 *)
    f_crashed p = None →
    f_agg p = AGot d →
    fstep p (upd_agg (ACounted d) (upd_stats (count_up (f_stats p)) p))
| fs_agg_size p d :                                          (* line 215 *)
    f_crashed p = None →
    f_agg p = ACounted d →
    fstep p (upd_agg (ASized d) (upd_stats (size_up d (f_stats p)) p))
| fs_agg_found p d list0 :                                   (* line 217 *)
    f_crashed p = None →
    f_agg p = ASized d →
    f_duplicates p !! key d = Some list0 →
    fstep p (upd_agg (AFound d list0) p)
| fs_agg_fresh p d :                                         (* line 217 *)
    f_crashed p = None →
    f_agg p = ASized d →
    f_duplicates p !! key d = None →
    fstep p (upd_agg (AFresh d) p)
| fs_agg_append p d list0 shared :                           (* line 219 *)
    f_crashed p = None →
    f_agg p = AFound d list0 →
    fstep p (upd_agg (AAppended d list0 shared) p)
| fs_agg_exchange p d list0 seen :                    (* lines 221-223 *)
    f_crashed p = None →
    f_agg p = AAppended d list0 true →
    length seen = length list0 →
    fstep p (upd_duplicates (<[key d := seen]> (f_duplicates p)) p)
| fs_agg_sorted p d list0 shared :                    (* lines 221-223 *)
    f_crashed p = None →
    f_agg p = AAppended d list0 shared →
    fstep p
      (upd_agg (ASorted d list0 (sort_Slice less_modified (list0 ++ [d])))
         (upd_duplicates
            (if shared
             then <[key d := take (length list0)
                               (sort_Slice less_modified (list0 ++ [d]))]>
                    (f_duplicates p)
             else f_duplicates p) p))
| fs_agg_duplicates p d list0 list1 :                        (* line 224 *)
    f_crashed p = None →
    f_agg p = ASorted d list0 list1 →
    fstep p (upd_agg (ADup d list0 list1)
               (upd_stats (duplicates_up (f_stats p)) p))
| fs_agg_duplicateSize p d list0 list1 :                     (* line 225 *)
    f_crashed p = None →
    f_agg p = ADup d list0 list1 →
    fstep p (upd_agg (ADupSized d list0 list1)
               (upd_stats (duplicateSize_up d (f_stats p)) p))
| fs_agg_rows p d list0 list1 right1 :                (* lines 226-242 *)
    f_crashed p = None →
    f_agg p = ADupSized d list0 list1 →
    update_rows (st_duplicates (f_stats p)) (f_right p) list1 = Ok right1 →
    fstep p (upd_agg (ARowed d list0 list1) (upd_right right1 p))
| fs_agg_rows_panic p d list0 list1 msg :                    (* line 226 *)
    f_crashed p = None →
    f_agg p = ADupSized d list0 list1 →
    update_rows (st_duplicates (f_stats p)) (f_right p) list1 = Panic msg →
    fstep p (upd_crashed msg p)
| fs_agg_store_joined p d list0 list1 :                      (* line 247 *)
    f_crashed p = None →
    f_agg p = ARowed d list0 list1 →
    fstep p (upd_agg AWait
               (upd_duplicates (<[key d := list1]> (f_duplicates p)) p))
| fs_agg_store_fresh p d :                            (* lines 244-247 *)
    f_crashed p = None →
    f_agg p = AFresh d →
    fstep p (upd_agg AWait
               (upd_duplicates (<[key d := [d]]> (f_duplicates p)) p))
(* updateStats *)
| fs_rep_tick p :                                            (* line 253 *)
    f_crashed p = None →
    f_rep p = RWait →
    fstep p (upd_rep RTicked (upd_stats (seconds_up (f_stats p)) p))
| fs_rep_done p :                                            (* line 255 *)
    f_crashed p = None →
    f_rep p = RTicked →
    fstep p (upd_rep (RReading (st_complted (f_stats p)) Guard [GuardSize] [])
               p)
| fs_rep_read p done st before s after got :
    f_crashed p = None →
    f_rep p = RReading done st (before ++ s :: after) got →
    fstep p (upd_rep (RReading done st (before ++ after)
                        (got ++ [(s, read_slot s (f_stats p))])) p)
| fs_rep_next p done st got st' pending :
    f_crashed p = None →
    f_rep p = RReading done st [] got →
    next_stage st got = Some (st', pending) →
    fstep p (upd_rep (RReading done st' pending got) p)
| fs_rep_show p done got :                                   (* line 260 *)
    f_crashed p = None →
    f_rep p = RReading done Args [] got →
    fstep p (upd_rep RShown
               (upd_shown (f_shown p ++ [mkReport done got]) p))
| fs_rep_again p :                                           (* line 269 *)
    f_crashed p = None →
    f_rep p = RShown →
    st_complted (f_stats p) = false →
    fstep p (upd_rep RWait p)
| fs_rep_break p :                                    (* lines 269-270 *)
    f_crashed p = None →
    f_rep p = RShown →
    st_complted (f_stats p) = true →
    fstep p (upd_rep RStopped p).

Definition freachable (w : sent) (p : fine) : Prop :=
  rtc fstep (fine0 w) p.

End FinePipeline.

(** The record a worker holds. *)
Definition hold (x : workerAt) : list tFileData :=
  match x with
  | WIdle => []
  | WGot data | WReady data => [data]
  end.

(** Fingerprint jobs on their way from the walker to the aggregator. *)
Definition f_in_flight (p : fine) : list tFileData :=
  f_fileChannel p ++ (f_workers p ≫= hold) ++ f_checksumChannel p.

(** The record the aggregator has received and not yet stored. *)
Definition in_hand (a : aggregatorAt) : list tFileData :=
  match a with
  | AWait => []
  | AGot d | ACounted d | ASized d | AFresh d | AFound d _
  | AAppended d _ _ | ASorted d _ _ | ADup d _ _ | ADupSized d _ _
  | ARowed d _ _ => [d]
  end.

(** The registry as the aggregator found it when it looked up the key of
    the record in its hand: the map, with the group the aggregator is
    sorting put back as it was. *)
Definition committed_of (a : aggregatorAt)
    (m : gmap string (list tFileData)) : gmap string (list tFileData) :=
  match a with
  | AFound d list0 | AAppended d list0 _ | ASorted d list0 _
  | ADup d list0 _ | ADupSized d list0 _ | ARowed d list0 _ =>
      <[key d := list0]> m
  | _ => m
  end.

Definition committed (p : fine) : gmap string (list tFileData) :=
  committed_of (f_agg p) (f_duplicates p).

(** Between line 224 and line 247 the counter of duplicates has counted
    a record that the map does not hold yet. *)
Definition ahead (a : aggregatorAt) : Z :=
  match a with
  | ADup _ _ _ | ADupSized _ _ _ | ARowed _ _ _ => 1
  | _ => 0
  end.

(** The texts begun: those shown, and the one being put together. *)
Definition begun (p : fine) : nat :=
  length (f_shown p) +
  match f_rep p with
  | RTicked | RReading _ _ _ _ => 1
  | _ => 0
  end.

(** What the aggregator's place says of the map. *)
Definition place_inv (sort_Slice :
      (tFileData → tFileData → bool) → list tFileData → list tFileData)
    (a : aggregatorAt) (m : gmap string (list tFileData)) : Prop :=
  match a with
  | AWait | AGot _ | ACounted _ | ASized _ => True
  | AFresh d => m !! key d = None
  | AFound d list0 | AAppended d list0 _ =>
      ∃ v, m !! key d = Some v ∧ length v = length list0
  | ASorted d list0 list1 | ADup d list0 list1 | ADupSized d list0 list1
  | ARowed d list0 list1 =>
      (∃ v, m !! key d = Some v ∧ length v = length list0) ∧
      list1 = sort_Slice less_modified (list0 ++ [d])
  end.

(** The committed registry stands for a stream [ds]; the counter is the
    count of that registry, or one ahead; and as long as nothing has
    panicked, the files of [ds], the file in the aggregator's hand and
    the files [others] are together the files the walker has to send. *)
Definition fine_inv_on (sort_Slice :
      (tFileData → tFileData → bool) → list tFileData → list tFileData)
    (all : list string) (others : list string)
    (m : gmap string (list tFileData)) (duplicatesNow : Z)
    (a : aggregatorAt) (crashed : option string) : Prop :=
  ∃ ds,
    registry_inv ds (mkAgg (committed_of a m) stats0 []) ∧
    groups_sorted (mkAgg (committed_of a m) stats0 []) ∧
    all_members (committed_of a m) ≡ₚ ds ∧
    duplicatesNow = uint32 (duplicateCount_of (committed_of a m) + ahead a) ∧
    place_inv sort_Slice a m ∧
    (crashed = None →
     (fd_path <$> ds) ++ (fd_path <$> in_hand a) ++ others ≡ₚ all).

Definition fine_inv (sort_Slice :
      (tFileData → tFileData → bool) → list tFileData → list tFileData)
    (w : sent) (p : fine) : Prop :=
  fine_inv_on sort_Slice (fd_path <$> w.1)
    (fd_path <$> f_in_flight p ++ (f_walker p).1)
    (f_duplicates p) (st_duplicates (f_stats p)) (f_agg p) (f_crashed p).

(** The seconds count the texts begun. A text that shows the flag up was
    put together with the flag up, and while the reporter waits for the
    next tick no text has shown it up. *)
Definition rep_inv_on (seconds : Z) (complted : bool) (r : reporterAt)
    (sh : list report) : Prop :=
  match r with
  | RWait =>
      seconds = uint64 (Z.of_nat (length sh)) ∧
      Forall (λ t, shown_done t = false) sh
  | RTicked =>
      seconds = uint64 (Z.of_nat (length sh + 1)) ∧
      Forall (λ t, shown_done t = false) sh
  | RReading done _ _ _ =>
      seconds = uint64 (Z.of_nat (length sh + 1)) ∧
      Forall (λ t, shown_done t = false) sh ∧
      (done = true → complted = true)
  | RShown =>
      seconds = uint64 (Z.of_nat (length sh)) ∧
      ∃ sh0 t, sh = sh0 ++ [t] ∧
               Forall (λ t', shown_done t' = false) sh0 ∧
               (shown_done t = true → complted = true)
  | RStopped =>
      seconds = uint64 (Z.of_nat (length sh)) ∧
      ∃ sh0 t, sh = sh0 ++ [t] ∧
               Forall (λ t', shown_done t' = false) sh0 ∧
               complted = true
  end.

Definition rep_inv (p : fine) : Prop :=
  rep_inv_on (st_seconds (f_stats p)) (st_complted (f_stats p)) (f_rep p)
    (f_shown p).

(** The channels hold no more than their places, there are two workers,
    the flag is up only if the walker is through, and a text that shows
    the flag up was put together with the flag up. *)
Definition flow_inv_on (fc cc : list tFileData) (ws : list workerAt)
    (complted : bool) (wk : sent) (r : reporterAt) (sh : list report) : Prop :=
  (length fc ≤ 200)%nat ∧ (length cc ≤ 100)%nat ∧ length ws = 2%nat ∧
  (complted = true → wk = ([], None)) ∧
  Forall (λ t, shown_done t = true → complted = true) sh ∧
  match r with
  | RReading done _ _ _ => done = true → complted = true
  | _ => True
  end.

Definition flow_inv (p : fine) : Prop :=
  flow_inv_on (f_fileChannel p) (f_checksumChannel p) (f_workers p)
    (st_complted (f_stats p)) (f_walker p) (f_rep p) (f_shown p).

(** The counters that the aggregator writes. *)
Definition counters (s : tStats) : Z * Z * Z * Z :=
  (st_count s, st_size s, st_duplicates s, st_duplicateSize s).

(** The map, the counters and the rows in the middle of a round of the
    aggregator, in terms of what they were at the head of the round
    ([a]): the counters are those of line 214, 215, 224 or 225, the group
    of the record in hand is in the map as it was found unless the sort
    has begun, and the rows are changed after line 242. *)
Definition round_inv (sort_Slice :
      (tFileData → tFileData → bool) → list tFileData → list tFileData)
    (a : aggState) (at_ : aggregatorAt)
    (m : gmap string (list tFileData)) (c : Z * Z * Z * Z)
    (r : list listItem) : Prop :=
  match at_ with
  | AWait | AGot _ =>
      m = duplicates a ∧ c = counters (stats a) ∧ r = right a
  | ACounted d =>
      m = duplicates a ∧ c = counters (count_up (stats a)) ∧ r = right a
  | ASized d =>
      m = duplicates a ∧ c = counters (stats_scanned (stats a) d) ∧
      r = right a
  | AFresh d =>
      m = duplicates a ∧ c = counters (stats_scanned (stats a) d) ∧
      r = right a ∧ duplicates a !! key d = None
  | AFound d list0 =>
      m = duplicates a ∧ c = counters (stats_scanned (stats a) d) ∧
      r = right a ∧ duplicates a !! key d = Some list0
  | AAppended d list0 _ =>
      <[key d := list0]> m = duplicates a ∧
      c = counters (stats_scanned (stats a) d) ∧
      r = right a ∧ duplicates a !! key d = Some list0
  | ASorted d list0 list1 =>
      <[key d := list0]> m = duplicates a ∧
      c = counters (stats_scanned (stats a) d) ∧
      r = right a ∧ duplicates a !! key d = Some list0 ∧
      list1 = sort_Slice less_modified (list0 ++ [d])
  | ADup d list0 list1 =>
      <[key d := list0]> m = duplicates a ∧
      c = counters (duplicates_up (stats_scanned (stats a) d)) ∧
      r = right a ∧ duplicates a !! key d = Some list0 ∧
      list1 = sort_Slice less_modified (list0 ++ [d])
  | ADupSized d list0 list1 =>
      <[key d := list0]> m = duplicates a ∧
      c = counters (stats_duplicate (stats_scanned (stats a) d) d) ∧
      r = right a ∧ duplicates a !! key d = Some list0 ∧
      list1 = sort_Slice less_modified (list0 ++ [d])
  | ARowed d list0 list1 =>
      <[key d := list0]> m = duplicates a ∧
      c = counters (stats_duplicate (stats_scanned (stats a) d) d) ∧
      update_rows
        (st_duplicates (stats_duplicate (stats_scanned (stats a) d) d))
        (right a) list1 = Ok r ∧
      duplicates a !! key d = Some list0 ∧
      list1 = sort_Slice less_modified (list0 ++ [d])
  end.

(** The loop, run on the stream [ds] of the records stored so far, has
    come to the head of this round; and as long as nothing has panicked,
    the files of [ds], the file in the aggregator's hand and the files
    [others] are together the files the walker has to send. *)
Definition loop_inv_on (sort_Slice :
      (tFileData → tFileData → bool) → list tFileData → list tFileData)
    (all : list string) (others : list string) (crashed : option string)
    (at_ : aggregatorAt)
    (m : gmap string (list tFileData)) (c : Z * Z * Z * Z)
    (r : list listItem) : Prop :=
  ∃ ds a,
    findDuplicates sort_Slice ds agg0 = Ok a ∧
    round_inv sort_Slice a at_ m c r ∧
    (crashed = None →
     (fd_path <$> ds) ++ (fd_path <$> in_hand at_) ++ others ≡ₚ all).

Definition loop_inv (sort_Slice :
      (tFileData → tFileData → bool) → list tFileData → list tFileData)
    (w : sent) (p : fine) : Prop :=
  loop_inv_on sort_Slice (fd_path <$> w.1)
    (fd_path <$> f_in_flight p ++ (f_walker p).1) (f_crashed p)
    (f_agg p) (f_duplicates p) (counters (f_stats p)) (f_right p).

(** Two files with one content have been sent and fingerprinted; the
    first is stored, the second has been counted as a duplicate at line
    224 and is not in the map yet. *)
Definition counted_not_stored : fine :=
  mkFine ([], None) [] [WIdle; WIdle] []
    (<[key (fingerprint_of os_mixed mixed_a) :=
         [fingerprint_of os_mixed mixed_a]]> ∅)
    (mkStats 0 2 2 1 0 false) []
    (ADup (fingerprint_of os_mixed mixed_b)
       [fingerprint_of os_mixed mixed_a]
       [fingerprint_of os_mixed mixed_b; fingerprint_of os_mixed mixed_a])
    RWait [] None.

(** The round of the second file is over: both files are in one group,
    the younger behind the older, and the group has its row. *)
Definition both_stored : fine :=
  mkFine ([], None) [] [WIdle; WIdle] []
    (<[key (fingerprint_of os_mixed mixed_a) :=
         [fingerprint_of os_mixed mixed_b;
          fingerprint_of os_mixed mixed_a]]> ∅)
    (mkStats 0 2 2 1 1 false)
    [mkItem "/r/sub/b.txt" "/r/a.txt" 33]
    AWait RWait [] None.

(** Nothing to scan: the one text was put together before [scan] raised
    the flag, and the reporter has found the flag up at line 269. *)
Definition stopped_after_no : fine :=
  mkFine ([], None) [] [WIdle; WIdle] [] ∅ (mkStats 1 0 0 0 0 true) [] AWait
    RStopped
    [mkReport false
       [(GuardSize, 0); (SpeedSize, 0); (SpeedSeconds, 1); (ArgSeconds, 1);
        (ArgCount, 0); (ArgSize, 0); (ArgDuplicates, 0);
        (ArgDuplicateSize, 0)]]
    None.

(** * Properties *)

(** ** The CRC-32 of a file read in pieces *)

Example crc32_check_value :
  Sprintf_x (crc32_Sum (crc32_IEEE
    (map byte_of_Z [49; 50; 51; 52; 53; 54; 55; 56; 57]))) = "cbf43926"%string.
Proof. vm_compute. reflexivity. Qed.

Lemma lxor_twice x m : Z.lxor (Z.lxor x m) m = x.
Proof. by rewrite Z.lxor_assoc, Z.lxor_nilpotent, Z.lxor_0_r. Qed.

Lemma simpleUpdate_app crc p q :
  simpleUpdate (simpleUpdate crc p) q = simpleUpdate crc (p ++ q).
Proof. unfold simpleUpdate. by rewrite lxor_twice, fold_left_app. Qed.

(** However the copy cuts the file into pieces, the hasher ends with the
    CRC-32 of the whole. *)
Lemma digest_of_pieces pieces :
  ∀ crc, fold_left simpleUpdate pieces crc = simpleUpdate crc (concat pieces).
Proof.
  induction pieces as [|p pieces IH]; intros crc; simpl.
  - unfold simpleUpdate. simpl. by rewrite lxor_twice.
  - by rewrite IH, simpleUpdate_app.
Qed.

(** ** Sums over the registry *)

Lemma Zsum_app xs ys : Zsum (xs ++ ys) = Zsum xs + Zsum ys.
Proof.
  unfold Zsum. induction xs as [|x xs IH]; simpl; [done | rewrite IH; lia].
Qed.

Lemma Zsum_perm xs ys : xs ≡ₚ ys → Zsum xs = Zsum ys.
Proof. unfold Zsum. induction 1; simpl; lia. Qed.

Lemma sum_groups_empty f : sum_groups f ∅ = 0.
Proof. unfold sum_groups. by rewrite map_to_list_empty. Qed.

Lemma sum_groups_insert_fresh f (m : gmap string (list tFileData)) h l :
  m !! h = None → sum_groups f (<[h := l]> m) = f l + sum_groups f m.
Proof.
  intros Hh. unfold sum_groups.
  rewrite (Zsum_perm _ _ (fmap_Permutation _ _ _ (map_to_list_insert m h l Hh))).
  done.
Qed.

Lemma sum_groups_insert_over f (m : gmap string (list tFileData)) h l0 l :
  m !! h = Some l0 →
  sum_groups f (<[h := l]> m) = sum_groups f m - f l0 + f l.
Proof.
  intros Hh.
  rewrite <- (insert_delete_eq m h l).
  rewrite <- (insert_id m h l0 Hh) at 2.
  rewrite <- (insert_delete_eq m h l0).
  rewrite !sum_groups_insert_fresh by apply lookup_delete_eq.
  lia.
Qed.

Local Arguments uint32 : simpl never.
Local Arguments uint64 : simpl never.

Lemma uint32_succ z : uint32 (uint32 z + 1) = uint32 (z + 1).
Proof. unfold uint32. by rewrite Zplus_mod_idemp_l. Qed.

Lemma uint64_add z s : uint64 (uint64 z + s) = uint64 (z + s).
Proof. unfold uint64. by rewrite Zplus_mod_idemp_l. Qed.

Lemma tail_sum (x : tFileData) l :
  Zsum (usize <$> drop 1 (x :: l)) = Zsum (usize <$> x :: l) - usize x.
Proof. unfold Zsum. rewrite fmap_cons. simpl. rewrite drop_0. lia. Qed.

(** ** What the promise of [sort.Slice] gives the aggregator *)

Lemma less_modified_asym x y :
  less_modified x y = true → less_modified y x = false.
Proof.
  unfold less_modified. intros H%bool_decide_eq_true.
  apply bool_decide_eq_false. lia.
Qed.

Lemma sorted_by_modified sort_Slice l :
  SortSliceSpec sort_Slice →
  StronglySorted by_modified (sort_Slice less_modified l).
Proof.
  intros Hs. apply Sorted_StronglySorted.
  { intros x y z. unfold by_modified. lia. }
  pose proof (sort_Slice_sorted _ Hs less_modified l less_modified_asym) as H.
  induction H as [|x l' Hl IH Hhd]; constructor; [done|].
  destruct Hhd as [|y l'' Hxy]; constructor.
  unfold less_modified in Hxy. apply bool_decide_eq_false in Hxy.
  unfold by_modified. lia.
Qed.

Lemma head_is_earliest x l :
  StronglySorted by_modified (x :: l) → ∀ y, y ∈ x :: l → by_modified x y.
Proof.
  intros Hs y Hy. apply StronglySorted_inv in Hs as [_ Hall].
  apply elem_of_cons in Hy as [->|Hy]; [unfold by_modified; lia|].
  by eapply Forall_forall in Hall.
Qed.

(** ** One record through the aggregator *)

Lemma arrivals_snoc h ds d :
  arrivals h (ds ++ [d]) =
  arrivals h ds ++ (if decide (key d = h) then [d] else []).
Proof.
  unfold arrivals. rewrite filter_app. f_equal.
Qed.

Lemma arrivals_elem h ds d : d ∈ arrivals h ds → d ∈ ds ∧ key d = h.
Proof. unfold arrivals. rewrite list_elem_of_filter. tauto. Qed.

Section AggregatorFacts.

Variable sort_Slice :
  (tFileData → tFileData → bool) → list tFileData → list tFileData.
Hypothesis sort_ok : SortSliceSpec sort_Slice.

Lemma findDuplicates_body_join a d l0 :
  duplicates a !! key d = Some l0 → l0 ≠ [] →
  ∃ head second rest right1,
    sort_Slice less_modified (l0 ++ [d]) = head :: second :: rest ∧
    findDuplicates_body sort_Slice a d =
      Ok (mkAgg (<[key d := head :: second :: rest]> (duplicates a))
            (stats_duplicate (stats_scanned (stats a) d) d) right1).
Proof.
  intros Hl0 Hne.
  pose proof (sort_Slice_perm _ sort_ok less_modified (l0 ++ [d])) as Hp.
  apply Permutation_length in Hp. rewrite length_app in Hp. simpl in Hp.
  unfold findDuplicates_body. fold (key d). rewrite Hl0.
  destruct (sort_Slice less_modified (l0 ++ [d])) as [|x [|y r]] eqn:E;
    simpl in Hp.
  - lia.
  - destruct l0; [done | simpl in Hp; lia].
  - do 4 eexists. split; reflexivity.
Qed.

Lemma findDuplicates_body_new a d :
  duplicates a !! key d = None →
  findDuplicates_body sort_Slice a d =
    Ok (mkAgg (<[key d := [d]]> (duplicates a))
          (stats_scanned (stats a) d) (right a)).
Proof. intros H. unfold findDuplicates_body. fold (key d). by rewrite H. Qed.

Lemma findDuplicates_body_step ds a d :
  registry_inv ds a →
  ∃ a', findDuplicates_body sort_Slice a d = Ok a' ∧
        registry_inv (ds ++ [d]) a' ∧
        (groups_sorted a → groups_sorted a') ∧
        (count_inv a → count_inv a') ∧
        (same_size_per_key (ds ++ [d]) → bytes_inv a → bytes_inv a') ∧
        st_complted (stats a') = st_complted (stats a).
Proof.
  intros Hreg. pose proof (Hreg (key d)) as Hk.
  destruct (duplicates a !! key d) as [l0|] eqn:E.
  - destruct Hk as [Hne Hperm].
    destruct (findDuplicates_body_join a d l0 E Hne)
      as (x & y & r & right1 & Hsort & ->).
    pose proof (sort_Slice_perm _ sort_ok less_modified (l0 ++ [d])) as Hp.
    rewrite Hsort in Hp.
    eexists; split; [done|].
    unfold registry_inv, groups_sorted; simpl. repeat split.
    + intros h. destruct (decide (key d = h)) as [<-|Hh].
      * rewrite lookup_insert_eq. split; [done|].
        rewrite arrivals_snoc, decide_True by done.
        by rewrite Hp, Hperm.
      * rewrite lookup_insert_ne by done.
        rewrite arrivals_snoc, decide_False, app_nil_r by done.
        apply Hreg.
    + intros Hso h l. destruct (decide (key d = h)) as [<-|Hh].
      * rewrite lookup_insert_eq. intros [= <-]. rewrite <- Hsort.
        by apply sorted_by_modified.
      * rewrite lookup_insert_ne by done. apply Hso.
    + unfold count_inv, duplicateCount_of. simpl. intros ->.
      rewrite (sum_groups_insert_over _ _ _ l0) by done.
      rewrite uint32_succ. f_equal.
      apply Permutation_length in Hp. rewrite length_app in Hp.
      simpl in Hp. destruct l0; [done|]. simpl in *. lia.
    + unfold bytes_inv, duplicateBytes_of. simpl. intros Hsz ->.
      rewrite (sum_groups_insert_over _ _ _ l0) by done.
      fold (usize d). rewrite uint64_add. f_equal.
      destruct l0 as [|x0 t0]; [done|].
      rewrite !tail_sum.
      rewrite (Zsum_perm _ _ (fmap_Permutation usize _ _ Hp)).
      rewrite fmap_app, Zsum_app.
      assert (usize x = usize x0) as ->; [|unfold Zsum; simpl; lia].
      unfold usize. f_equal. apply Hsz.
      * assert (x ∈ (x0 :: t0) ++ [d]) as Hx by (rewrite <- Hp; left).
        apply elem_of_app. apply elem_of_app in Hx as [Hl|Hr]; [left|by right].
        rewrite Hperm in Hl. by apply arrivals_elem in Hl as [Hin _].
      * assert (x0 ∈ arrivals (key d) ds) as Hx by (rewrite <- Hperm; left).
        apply elem_of_app. left. by apply arrivals_elem in Hx as [Hin _].
      * assert (x ∈ (x0 :: t0) ++ [d]) as Hx by (rewrite <- Hp; left).
        assert (x0 ∈ arrivals (key d) ds) as Hx0 by (rewrite <- Hperm; left).
        apply arrivals_elem in Hx0 as [_ Hk0]. rewrite Hk0.
        apply elem_of_app in Hx as [Hl|Hr].
        -- rewrite Hperm in Hl. by apply arrivals_elem in Hl as [_ Hkx].
        -- apply list_elem_of_singleton in Hr. by subst x.
  - rewrite (findDuplicates_body_new a d E).
    eexists; split; [done|].
    unfold registry_inv, groups_sorted; simpl. repeat split.
    + intros h. destruct (decide (key d = h)) as [<-|Hh].
      * rewrite lookup_insert_eq. split; [done|].
        by rewrite arrivals_snoc, decide_True, Hk.
      * rewrite lookup_insert_ne by done.
        rewrite arrivals_snoc, decide_False, app_nil_r by done.
        apply Hreg.
    + intros Hso h l. destruct (decide (key d = h)) as [<-|Hh].
      * rewrite lookup_insert_eq. intros [= <-]. repeat constructor.
      * rewrite lookup_insert_ne by done. apply Hso.
    + unfold count_inv, duplicateCount_of. simpl. intros ->.
      by rewrite sum_groups_insert_fresh.
    + unfold bytes_inv, duplicateBytes_of. simpl. intros _ ->.
      by rewrite sum_groups_insert_fresh.
Qed.

End AggregatorFacts.

(** ** The insertion sort keeps the promise *)

Lemma insert_by_perm ahead x l : insert_by ahead x l ≡ₚ x :: l.
Proof.
  induction l as [|y l IH]; simpl; [done|].
  destruct (ahead x y); [done|]. rewrite IH. apply Permutation_swap.
Qed.

Lemma fold_insert_perm ahead l :
  ∀ acc, fold_left (λ acc x, insert_by ahead x acc) l acc ≡ₚ l ++ acc.
Proof.
  induction l as [|x l IH]; intros acc; simpl; [done|].
  rewrite IH, insert_by_perm. by rewrite Permutation_middle.
Qed.

Section InsertSorted.

Variable R : tFileData → tFileData → Prop.
Variable ahead : tFileData → tFileData → bool.
Hypothesis ahead_true : ∀ x y, ahead x y = true → R x y.
Hypothesis ahead_false : ∀ x y, ahead x y = false → R y x.

Lemma insert_by_sorted x l : Sorted R l → Sorted R (insert_by ahead x l).
Proof.
  induction 1 as [|y l Hl IH Hhd]; simpl; [by repeat constructor|].
  destruct (ahead x y) eqn:E.
  - repeat constructor; auto.
  - constructor; [done|].
    destruct Hhd as [|z l' Hyz]; simpl.
    + constructor. auto.
    + destruct (ahead x z); constructor; auto.
Qed.

Lemma fold_insert_sorted l :
  ∀ acc, Sorted R acc →
         Sorted R (fold_left (λ acc x, insert_by ahead x acc) l acc).
Proof.
  induction l as [|x l IH]; intros acc Hacc; simpl; [done|].
  by apply IH, insert_by_sorted.
Qed.

End InsertSorted.

Lemma insertionSort_ok : SortSliceSpec insertionSort.
Proof.
  split.
  - intros less l. unfold insertionSort.
    by rewrite fold_insert_perm, app_nil_r.
  - intros less l Hasym. unfold insertionSort.
    apply fold_insert_sorted; [auto | auto | constructor].
Qed.

(** ** The whole loop *)

Lemma agg_inv_init : agg_inv [] agg0.
Proof.
  split; [|split; [|split]].
  - intros h. simpl. by rewrite lookup_empty.
  - intros h l. simpl. by rewrite lookup_empty.
  - unfold count_inv, duplicateCount_of. simpl. by rewrite sum_groups_empty.
  - intros _. unfold bytes_inv, duplicateBytes_of. simpl.
    by rewrite sum_groups_empty.
Qed.

Lemma same_size_per_key_prefix ds d :
  same_size_per_key (ds ++ [d]) → same_size_per_key ds.
Proof.
  intros H d1 d2 H1 H2. apply H; apply elem_of_app; by left.
Qed.

Section Loop.

Variable sort_Slice :
  (tFileData → tFileData → bool) → list tFileData → list tFileData.
Hypothesis sort_ok : SortSliceSpec sort_Slice.

Lemma agg_inv_step ds a d :
  agg_inv ds a →
  ∃ a', findDuplicates_body sort_Slice a d = Ok a' ∧
        agg_inv (ds ++ [d]) a' ∧
        st_complted (stats a') = st_complted (stats a).
Proof.
  intros (Hreg & Hso & Hc & Hb).
  destruct (findDuplicates_body_step _ sort_ok ds a d Hreg)
    as (a' & Hrun & Hreg' & Hso' & Hc' & Hb' & Hfl).
  exists a'. repeat split; auto.
  intros Hsz. apply Hb'; [done|].
  by apply Hb, same_size_per_key_prefix with d.
Qed.

Lemma agg_inv_run ds :
  ∀ pre a, agg_inv pre a →
    ∃ a', findDuplicates sort_Slice ds a = Ok a' ∧ agg_inv (pre ++ ds) a'.
Proof.
  induction ds as [|d ds IH]; intros pre a Hinv; simpl.
  - exists a. by rewrite app_nil_r.
  - destruct (agg_inv_step pre a d Hinv) as (a1 & -> & Hinv1 & _). simpl.
    destruct (IH _ _ Hinv1) as (a' & Hrun & Hinv').
    exists a'. split; [done|]. by rewrite <- app_assoc in Hinv'.
Qed.

Lemma findDuplicates_total ds :
  ∃ a, findDuplicates sort_Slice ds agg0 = Ok a ∧ agg_inv ds a.
Proof. apply (agg_inv_run ds [] agg0 agg_inv_init). Qed.

Lemma findDuplicates_app ds1 ds2 a :
  findDuplicates sort_Slice (ds1 ++ ds2) a =
  (a1 ←! findDuplicates sort_Slice ds1 a; findDuplicates sort_Slice ds2 a1).
Proof.
  revert a. induction ds1 as [|d ds1 IH]; intros a; simpl; [done|].
  destruct (findDuplicates_body sort_Slice a d); simpl; auto.
Qed.

End Loop.

(** ** C1: the counters after every record *)

(** C1, as stated, fails: [stats.duplicateSize] grows by the size of the
    record that joins, not by the size of the record that ends up behind
    the canonical one. With two files of five and six bytes and equal
    CRC-32, the six-byte file arriving second and ranking first, the
    counter reads 6 while the only non-canonical member has 5 bytes. *)
Lemma duplicateBytes_off_after_rerank :
  ∃ a, findDuplicates insertionSort
         (fingerprinted os_collision [rec_five; rec_six]) agg0 = Ok a ∧
       SortSliceSpec insertionSort ∧
       st_duplicateSize (stats a) = 6 ∧
       duplicateBytes_of (duplicates a) = 5.
Proof.
  eexists. split; [vm_compute; reflexivity|].
  split; [apply insertionSort_ok|]. split; vm_compute; reflexivity.
Qed.

(** C1, amended: after every record (every prefix of the stream) the loop
    has returned, [stats.duplicates] is the sum over the groups of
    max(0, members - 1) as a [uint32], and [stats.duplicateSize] is the
    sum of the sizes of the non-canonical members as a [uint64] whenever
    records filed under one key have one size. *)
Theorem counters_after_every_record sort_Slice ds (n : nat) :
  SortSliceSpec sort_Slice →
  ∃ a, findDuplicates sort_Slice (take n ds) agg0 = Ok a ∧
       st_duplicates (stats a) = uint32 (duplicateCount_of (duplicates a)) ∧
       (same_size_per_key (take n ds) →
        st_duplicateSize (stats a) =
          uint64 (duplicateBytes_of (duplicates a))).
Proof.
  intros Hs.
  destruct (findDuplicates_total _ Hs (take n ds))
    as (a & Hrun & _ & _ & Hc & Hb).
  exists a. auto.
Qed.

Lemma same_size_example :
  same_size_per_key [tie_first; tie_second; older_third].
Proof.
  intros d1 d2 H1 H2 _.
  repeat (apply elem_of_cons in H1 as [->|H1]);
    repeat (apply elem_of_cons in H2 as [->|H2]);
    try reflexivity; by apply elem_of_nil in H1 || by apply elem_of_nil in H2.
Qed.

Lemma counters_after_every_record_witness :
  ∃ a, findDuplicates insertionSort
         (take 3 [tie_first; tie_second; older_third]) agg0 = Ok a ∧
       st_duplicates (stats a) = uint32 (duplicateCount_of (duplicates a)) ∧
       st_duplicateSize (stats a) = uint64 (duplicateBytes_of (duplicates a)) ∧
       st_duplicates (stats a) = 2 ∧ st_duplicateSize (stats a) = 6.
Proof.
  destruct (counters_after_every_record insertionSort
              [tie_first; tie_second; older_third] 3 insertionSort_ok)
    as (a & Hrun & Hc & Hb).
  exists a. split; [exact Hrun|]. split; [exact Hc|].
  split; [exact (Hb same_size_example)|].
  vm_compute in Hrun. injection Hrun as <-. split; reflexivity.
Defined.

(** ** C2: the order inside a group *)

(** C2, as stated, fails: [sort.Slice] is not a stable sort, and nothing
    else in the loop keeps ties in arrival order.

    Through Go 1.18: six files with one fingerprint and one modification
    time arrive, then a seventh that was modified before them. The group
    of seven is sorted by the last branch of [quickSort_func]: the pass
    with gap six finds the seventh in front of the first and exchanges
    the two, and the insertion sort that follows has nothing left to
    move. The file that arrived first is now behind the five that
    arrived after it.

    From Go 1.19 on a group of up to twelve is sorted by insertion, and
    the same happens with the thirteenth member: twelve such files
    arrive, then one that was modified before them. [choosePivot_func]
    takes the seventh file for pivot, [partition_func] puts it in front,
    exchanges the second with the thirteenth and then the pivot with the
    thirteenth, and the two remaining ranges are in order. The seventh
    arrival is now in front of the third, and the second is last. *)
Lemma ties_need_not_keep_arrival_order :
  (∃ l,
     l = [mkFileData "/d/7" 3 (crc32_Sum 7) 20; alike "/d/2"; alike "/d/3";
          alike "/d/4"; alike "/d/5"; alike "/d/6"; alike "/d/1"] ∧
     (∀ beyond, ∃ a,
        findDuplicates (quickSort_func beyond) six_then_earlier agg0 = Ok a ∧
        duplicates a !! key (alike "/d/1") = Some l) ∧
     l ≡ₚ six_then_earlier ∧
     StronglySorted by_modified l ∧
     ¬ ties_keep_arrival_order six_then_earlier l) ∧
  (∃ l,
     l = [mkFileData "/d/13" 3 (crc32_Sum 7) 20; alike "/d/7"; alike "/d/3";
          alike "/d/4"; alike "/d/5"; alike "/d/6"; alike "/d/1";
          alike "/d/8"; alike "/d/9"; alike "/d/10"; alike "/d/11";
          alike "/d/12"; alike "/d/2"] ∧
     (∀ beyond, ∃ a,
        findDuplicates (pdqsort_func beyond) twelve_then_earlier agg0 = Ok a ∧
        duplicates a !! key (alike "/d/1") = Some l) ∧
     l ≡ₚ twelve_then_earlier ∧
     StronglySorted by_modified l ∧
     ¬ ties_keep_arrival_order twelve_then_earlier l).
Proof.
  split.
  - eexists. split; [reflexivity|].
    split; [intros beyond; eexists; split; vm_compute; reflexivity|].
    split; [unfold six_then_earlier; solve_Permutation|].
    split; [repeat constructor; unfold by_modified; simpl; lia|].
    intros H.
    destruct (H 1%nat 6%nat (alike "/d/2") (alike "/d/1"))
      as (p & q & Hpq & Hp & Hq); [lia | done | done | done |].
    do 7 (destruct q as [|q]; [first [lia | done]|]). done.
  - eexists. split; [reflexivity|].
    split; [intros beyond; eexists; split; vm_compute; reflexivity|].
    split; [unfold twelve_then_earlier; solve_Permutation|].
    split; [repeat constructor; unfold by_modified; simpl; lia|].
    intros H.
    destruct (H 1%nat 2%nat (alike "/d/7") (alike "/d/3"))
      as (p & q & Hpq & Hp & Hq); [lia | done | done | done |].
    do 13 (destruct q as [|q];
           [first [lia | done
                  | do 13 (destruct p as [|p]; [first [lia | done]|]); lia]|]).
    done.
Qed.

(** C2, amended: after every record the loop has returned, and every
    group holds exactly the records that arrived under its key, in
    non-decreasing order of modification time, so that member 0 is a file
    modified no later than any other member; the order among members
    with one modification time is whatever [sort.Slice] leaves. *)
Theorem groups_sorted_after_every_record sort_Slice ds (n : nat) :
  SortSliceSpec sort_Slice →
  ∃ a, findDuplicates sort_Slice (take n ds) agg0 = Ok a ∧
       ∀ h l, duplicates a !! h = Some l →
         l ≡ₚ arrivals h (take n ds) ∧
         StronglySorted by_modified l ∧
         ∃ canonical others,
           l = canonical :: others ∧
           ∀ d, d ∈ l → fd_modified canonical ≤ fd_modified d.
Proof.
  intros Hs.
  destruct (findDuplicates_total _ Hs (take n ds))
    as (a & Hrun & Hreg & Hso & _ & _).
  exists a. split; [done|]. intros h l Hl.
  pose proof (Hreg h) as Hh. rewrite Hl in Hh. destruct Hh as [Hne Hperm].
  pose proof (Hso h l Hl) as Hsorted.
  split; [done|]. split; [done|].
  destruct l as [|x l']; [done|].
  exists x, l'. split; [done|]. by apply head_is_earliest.
Qed.

Lemma groups_sorted_after_every_record_witness :
  ∃ a, findDuplicates insertionSort
         (take 3 [tie_first; tie_second; older_third]) agg0 = Ok a ∧
       ∀ h l, duplicates a !! h = Some l →
         l ≡ₚ arrivals h (take 3 [tie_first; tie_second; older_third]) ∧
         StronglySorted by_modified l ∧
         ∃ canonical others,
           l = canonical :: others ∧
           ∀ d, d ∈ l → fd_modified canonical ≤ fd_modified d.
Proof.
  exact (groups_sorted_after_every_record insertionSort
           [tie_first; tie_second; older_third] 3 insertionSort_ok).
Defined.

(** ** C10: grouping looks at the CRC-32 and at nothing else *)

Lemma checksum_readable o file content :
  os_files o !! file = Some content →
  file ∉ os_unreadable o → file ∉ os_ioerr o →
  checksum o file =
    Ok (crc32_Sum (crc32_IEEE content), Z.of_nat (length content)).
Proof.
  intros Hf Hd Hi. unfold checksum, os_Open, io_Copy.
  by rewrite decide_False, Hf, decide_False.
Qed.

(** C10: two readable files whose contents have one CRC-32 are
    fingerprinted alike whatever their sizes and bytes; wherever the
    first sits in the stream, it is in the registry when the second
    comes, the second joins its group, and both counters of duplicates
    go up for the second. *)
Theorem equal_crc_same_group sort_Slice o r1 r2 c1 c2 ds1 ds2 :
  SortSliceSpec sort_Slice →
  os_files o !! fd_path r1 = Some c1 →
  os_files o !! fd_path r2 = Some c2 →
  fd_path r1 ∉ os_unreadable o → fd_path r1 ∉ os_ioerr o →
  fd_path r2 ∉ os_unreadable o → fd_path r2 ∉ os_ioerr o →
  crc32_IEEE c1 = crc32_IEEE c2 →
  ∃ d1 d2 a1 a2 l,
    calculateChecksum o [r1; r2] = ([d1; d2], None) ∧
    d1 = set_hash r1 (crc32_Sum (crc32_IEEE c1)) ∧
    d2 = set_hash r2 (crc32_Sum (crc32_IEEE c2)) ∧
    findDuplicates sort_Slice (ds1 ++ d1 :: ds2) agg0 = Ok a1 ∧
    findDuplicates_body sort_Slice a1 d2 = Ok a2 ∧
    duplicates a2 !! Sprintf_x (crc32_Sum (crc32_IEEE c1)) = Some l ∧
    d1 ∈ l ∧ d2 ∈ l ∧
    st_duplicates (stats a2) = uint32 (st_duplicates (stats a1) + 1) ∧
    st_duplicateSize (stats a2) =
      uint64 (st_duplicateSize (stats a1) + uint64 (fd_size r2)).
Proof.
  intros Hs Hf1 Hf2 Hd1 Hi1 Hd2 Hi2 Hcrc.
  set (d1 := set_hash r1 (crc32_Sum (crc32_IEEE c1))).
  set (d2 := set_hash r2 (crc32_Sum (crc32_IEEE c2))).
  assert (key d2 = key d1) as Hkey by (unfold key; simpl; by rewrite Hcrc).
  destruct (findDuplicates_total _ Hs (ds1 ++ d1 :: ds2))
    as (a1 & Hrun & Hreg & _).
  pose proof (Hreg (key d1)) as Hk.
  assert (d1 ∈ arrivals (key d1) (ds1 ++ d1 :: ds2)) as Hin.
  { apply list_elem_of_filter. split; [done|].
    apply elem_of_app. right. left. }
  destruct (duplicates a1 !! key d1) as [l0|] eqn:E;
    [|rewrite Hk in Hin; by apply elem_of_nil in Hin].
  destruct Hk as [Hne Hperm].
  rewrite <- Hkey in E.
  destruct (findDuplicates_body_join _ Hs a1 d2 l0 E Hne)
    as (x & y & r & right1 & Hsort & Hbody).
  pose proof (sort_Slice_perm _ Hs less_modified (l0 ++ [d2])) as Hp.
  rewrite Hsort in Hp.
  exists d1, d2, a1. eexists. exists (x :: y :: r).
  split.
  { simpl. rewrite (checksum_readable _ _ _ Hf1 Hd1 Hi1).
    by rewrite (checksum_readable _ _ _ Hf2 Hd2 Hi2). }
  do 4 (split; [done|]).
  split.
  { change (Sprintf_x (crc32_Sum (crc32_IEEE c1))) with (key d1).
    rewrite <- Hkey. simpl. apply lookup_insert_eq. }
  split; [rewrite Hp, elem_of_app; left; by rewrite Hperm|].
  split; [rewrite Hp, elem_of_app; right; left|].
  done.
Qed.

Lemma equal_crc_same_group_witness :
  crc32_IEEE content_five = crc32_IEEE content_six ∧
  length content_five ≠ length content_six ∧
  ∃ d1 d2 a1 a2 l,
    calculateChecksum os_collision [rec_five; rec_six] = ([d1; d2], None) ∧
    d1 = set_hash rec_five (crc32_Sum (crc32_IEEE content_five)) ∧
    d2 = set_hash rec_six (crc32_Sum (crc32_IEEE content_six)) ∧
    findDuplicates insertionSort ([] ++ d1 :: []) agg0 = Ok a1 ∧
    findDuplicates_body insertionSort a1 d2 = Ok a2 ∧
    duplicates a2 !! Sprintf_x (crc32_Sum (crc32_IEEE content_five)) = Some l ∧
    d1 ∈ l ∧ d2 ∈ l ∧
    st_duplicates (stats a2) = uint32 (st_duplicates (stats a1) + 1) ∧
    st_duplicateSize (stats a2) =
      uint64 (st_duplicateSize (stats a1) + uint64 (fd_size rec_six)).
Proof.
  split; [vm_compute; reflexivity|]. split; [vm_compute; lia|].
  apply (equal_crc_same_group insertionSort os_collision rec_five rec_six
           content_five content_six [] [] insertionSort_ok);
    first [ vm_compute; reflexivity | apply not_elem_of_empty ].
Defined.

(** ** C3: what a checksum worker does with a file it cannot read *)

Lemma checksum_unreadable o file :
  ¬ readable o file → ∃ msg, checksum o file = Panic msg.
Proof.
  intros Hn. unfold checksum, os_Open, io_Copy.
  destruct (decide (file ∈ os_unreadable o)); [eauto|].
  destruct (os_files o !! file) as [content|] eqn:E; [|eauto].
  destruct (decide (file ∈ os_ioerr o)); [simpl; eauto|].
  destruct Hn. by repeat split.
Qed.

Lemma checksum_of_readable o data :
  readable o (fd_path data) →
  ∃ n, checksum o (fd_path data) = Ok (fd_hash (fingerprint_of o data), n).
Proof.
  intros (Hd & Hi & [content Hf]).
  rewrite (checksum_readable _ _ _ Hf Hd Hi).
  unfold fingerprint_of. rewrite Hf. simpl. eauto.
Qed.

Lemma set_hash_fingerprint o data :
  set_hash data (fd_hash (fingerprint_of o data)) = fingerprint_of o data.
Proof. reflexivity. Qed.

(** C3, as stated, fails on both counts. A file whose byte count differs
    from the size seen by the walker is sent on and entered in registry
    and statistics with the old size; and a file that cannot be opened
    makes the worker panic, so that the file behind it in the queue is
    never processed. *)
Lemma mismatch_kept_and_failure_fatal :
  (∃ h a, checksum os_shrunk (fd_path rec_shrunk) = Ok (h, 1) ∧
          fd_size rec_shrunk = 5 ∧
          calculateChecksum os_shrunk [rec_shrunk] =
            ([set_hash rec_shrunk h], None) ∧
          findDuplicates insertionSort [set_hash rec_shrunk h] agg0 = Ok a ∧
          duplicates a !! key (set_hash rec_shrunk h) =
            Some [set_hash rec_shrunk h] ∧
          st_count (stats a) = 1 ∧ st_size (stats a) = 5) ∧
  calculateChecksum os_shrunk [rec_denied; rec_shrunk] =
    ([], Some "permission denied"%string).
Proof.
  split; [|vm_compute; reflexivity].
  do 2 eexists. split; [vm_compute; reflexivity|].
  repeat split; vm_compute; reflexivity.
Qed.

(** C3, amended: a worker sends on every record whose file it can open
    and read, with the size the walker reported, whatever the number of
    bytes it read, and with the CRC-32 of the bytes as hash; at the first
    file it cannot open or read it panics, having sent the records before
    it and none after it. *)
Theorem worker_forwards_until_panic o queue :
  Forall (λ data, readable o (fd_path data)) queue →
  calculateChecksum o queue = (fingerprint_of o <$> queue, None) ∧
  ∀ bad rest, ¬ readable o (fd_path bad) →
    ∃ msg, calculateChecksum o (queue ++ bad :: rest) =
             (fingerprint_of o <$> queue, Some msg).
Proof.
  induction 1 as [|data queue Hdata Hq [IH1 IH2]]; simpl.
  - split; [done|]. intros bad rest Hbad.
    destruct (checksum_unreadable _ _ Hbad) as [msg ->]. eauto.
  - destruct (checksum_of_readable _ _ Hdata) as [n ->].
    rewrite set_hash_fingerprint. split.
    + by rewrite IH1.
    + intros bad rest Hbad. destruct (IH2 bad rest Hbad) as [msg ->]. eauto.
Qed.

Lemma worker_forwards_until_panic_witness :
  calculateChecksum os_shrunk [rec_shrunk] =
    (fingerprint_of os_shrunk <$> [rec_shrunk], None) ∧
  ∀ bad rest, ¬ readable os_shrunk (fd_path bad) →
    ∃ msg, calculateChecksum os_shrunk ([rec_shrunk] ++ bad :: rest) =
             (fingerprint_of os_shrunk <$> [rec_shrunk], Some msg).
Proof.
  apply (worker_forwards_until_panic os_shrunk [rec_shrunk]).
  constructor; [|constructor].
  split; [|split].
  - simpl. intros H. by apply elem_of_singleton in H.
  - apply not_elem_of_empty.
  - vm_compute. eauto.
Defined.

(** ** The listing of the duplicates *)

Lemma listDuplicates_in_flat order :
  listDuplicates_in order = order ≫= group_duplicates.
Proof.
  unfold listDuplicates_in.
  enough (∀ acc,
    fold_left (λ result kv,
                 if bool_decide (length kv.2 < 2)%nat then result
                 else result ++ (fd_path <$> drop 1 kv.2)) order acc =
    acc ++ (order ≫= group_duplicates)) as H by apply (H []).
  induction order as [|kv order IH]; intros acc; simpl.
  - by rewrite app_nil_r.
  - rewrite IH. unfold group_duplicates at 2.
    destruct (bool_decide (length kv.2 < 2)%nat); simpl; [done|].
    by rewrite <- app_assoc.
Qed.

Lemma listDuplicates_in_spec m order path :
  range_order m order →
  path ∈ listDuplicates_in order ↔ non_canonical_path m path.
Proof.
  intros Hord. rewrite listDuplicates_in_flat, list_elem_of_bind. split.
  - intros ([h l] & Hpath & Hkv). unfold group_duplicates in Hpath.
    simpl in Hpath. case_bool_decide as Hlen; [by apply elem_of_nil in Hpath|].
    apply list_elem_of_fmap in Hpath as (d & -> & Hd).
    apply list_elem_of_lookup in Hd as [i Hi]. rewrite lookup_drop in Hi.
    exists h, l, i, d. repeat split; [|lia|done].
    apply elem_of_map_to_list. by rewrite <- Hord.
  - intros (h & l & i & d & Hl & Hlen & Hi & <-).
    exists (h, l). split.
    + unfold group_duplicates. simpl. rewrite bool_decide_eq_false_2 by lia.
      apply list_elem_of_fmap. exists d. split; [done|].
      apply list_elem_of_lookup. exists i. by rewrite lookup_drop.
    + rewrite Hord. by apply elem_of_map_to_list.
Qed.

(** ** C4: Delete *)

Lemma remove_each_all o paths count :
  NoDup paths → Forall (removable o) paths →
  ∃ o', remove_each o paths count =
          (o', Ok (count + Z.of_nat (length paths))) ∧
        files_without paths o o' ∧ os_denied o' = os_denied o.
Proof.
  revert o count. induction paths as [|p paths IH]; intros o count Hnd Hall.
  - exists o. simpl. rewrite Z.add_0_r. split; [done|]. split; [|done].
    intros q. by rewrite decide_False by apply not_elem_of_nil.
  - apply NoDup_cons in Hnd as [Hp Hnd].
    apply Forall_cons in Hall as [[Hden [c Hc]] Hall].
    simpl. unfold os_Remove. rewrite decide_False, Hc by done. simpl.
    destruct (IH (with_files o (delete p (os_files o))) (count + 1) Hnd)
      as (o' & -> & Hfiles & Hdenied).
    { apply Forall_forall. intros q Hq.
      destruct (proj1 (Forall_forall _ _) Hall q Hq) as [Hqd Hqf].
      split; [done|]. simpl.
      rewrite lookup_delete_ne; [done|]. by intros ->. }
    exists o'. split; [f_equal; f_equal; lia|]. split; [|done].
    intros q. rewrite Hfiles. simpl.
    destruct (decide (q ∈ paths)) as [Hin|Hnin].
    + by rewrite decide_True by (by right).
    + destruct (decide (q = p)) as [->|Hqp].
      * rewrite lookup_delete_eq. by rewrite decide_True by left.
      * rewrite lookup_delete_ne by done.
        rewrite decide_False; [done|]. by intros [?|?]%elem_of_cons.
Qed.

Lemma os_Remove_fails o path :
  ¬ removable o path → ∃ msg, os_Remove o path = (o, Some msg).
Proof.
  intros Hn. unfold os_Remove.
  destruct (decide (path ∈ os_denied o)); [eauto|].
  destruct (os_files o !! path) eqn:E; [|eauto].
  destruct Hn. split; [done|]. by rewrite E.
Qed.

Lemma remove_each_app o o1 done rest count count1 :
  remove_each o done count = (o1, Ok count1) →
  remove_each o (done ++ rest) count = remove_each o1 rest count1.
Proof.
  revert o count. induction done as [|p done IH]; intros o count; simpl.
  - by intros [= -> ->].
  - destruct (os_Remove o p) as [o' [msg|]]; simpl; [done|]. apply IH.
Qed.

(** C4, as stated, fails: of three duplicates of which the second cannot
    be removed, Delete removes the first and panics; the third is not
    removed and no count is returned. *)
Lemma delete_aborts_at_failure :
  ∃ a o',
    findDuplicates insertionSort four_alike agg0 = Ok a ∧
    listDuplicates_in (map_to_list (duplicates a)) = ["/d/a"; "/d/b"; "/d/c"]%string ∧
    deleteDuplicates os_guarded (map_to_list (duplicates a)) =
      (o', Panic "permission denied") ∧
    os_files o' !! "/d/a"%string = None ∧
    os_files o' !! "/d/b"%string = Some [Byte.x61] ∧
    os_files o' !! "/d/c"%string = Some [Byte.x61].
Proof.
  do 2 eexists. split; [vm_compute; reflexivity|].
  split; [vm_compute; reflexivity|].
  split; [vm_compute; reflexivity|].
  repeat split; vm_compute; reflexivity.
Qed.

(** C4, amended: Delete removes the duplicates in the order of the
    listing. When every removal succeeds it logs their number and exactly
    the listed files are gone. At the first removal that fails it panics:
    the files listed before are gone, every other file, the rest of the
    listing included, is as it was, and no count is logged. *)
Theorem delete_stops_at_first_failure o order done :
  NoDup done → Forall (removable o) done →
  (listDuplicates_in order = done →
   ∃ o', deleteDuplicates o order = (o', Ok (Z.of_nat (length done))) ∧
         files_without done o o') ∧
  (∀ bad rest,
     listDuplicates_in order = done ++ bad :: rest → ¬ removable o bad →
     ∃ o' msg, deleteDuplicates o order = (o', Panic msg) ∧
               files_without done o o').
Proof.
  intros Hnd Hall.
  destruct (remove_each_all o done 0 Hnd Hall) as (o1 & Hrun & Hfiles & Hden).
  simpl in Hrun. split.
  - intros Hlist. exists o1. unfold deleteDuplicates. by rewrite Hlist.
  - intros bad rest Hlist Hbad. unfold deleteDuplicates. rewrite Hlist.
    rewrite (remove_each_app _ _ _ _ _ _ Hrun). simpl.
    destruct (os_Remove_fails o1 bad) as [msg ->]; [|simpl; eauto].
    intros [Hd [c Hc]]. apply Hbad. rewrite Hden in Hd. split; [done|].
    rewrite Hfiles in Hc. destruct (decide (bad ∈ done)); [done|eauto].
Qed.

Lemma delete_stops_at_first_failure_witness :
  ∃ a,
    findDuplicates insertionSort four_alike agg0 = Ok a ∧
    ∃ o' msg,
      deleteDuplicates os_guarded (map_to_list (duplicates a)) =
        (o', Panic msg) ∧
      files_without ["/d/a"%string] os_guarded o'.
Proof.
  eexists. split; [vm_compute; reflexivity|].
  assert (NoDup ["/d/a"%string]) as Hnd.
  { apply NoDup_singleton. }
  assert (Forall (removable os_guarded) ["/d/a"%string]) as Hall.
  { apply Forall_singleton. split.
    - simpl. by intros ?%elem_of_singleton.
    - vm_compute. eauto. }
  apply (proj2 (delete_stops_at_first_failure os_guarded _ _ Hnd Hall)
           "/d/b"%string ["/d/c"%string]).
  - vm_compute. reflexivity.
  - intros [Hd _]. apply Hd. simpl. by apply elem_of_singleton.
Defined.

(** ** C5: Move *)

Lemma ensureTargetDir_ok o dir :
  creatable o dir →
  ∃ o', ensureTargetDir o dir = (o', Ok dir) ∧
        os_files o' = os_files o ∧ os_denied o' = os_denied o ∧
        os_dirs o' = {[dir]} ∪ os_dirs o ∧ os_ioerr o' = os_ioerr o.
Proof.
  intros Hc. unfold ensureTargetDir, os_MkdirAll.
  destruct (decide (dir ∈ os_dirs o)) as [Hin|Hnin].
  - exists o. simpl. repeat split.
    symmetry. apply subseteq_union_1_L. by apply singleton_subseteq_l.
  - destruct Hc as [?|[Hd Hf]]; [done|].
    rewrite decide_False by done.
    rewrite decide_False by (rewrite Hf; by intros [? ?]).
    simpl. eauto 10.
Qed.

Lemma rename_each_all targetDir paths :
  ∀ o count,
    NoDup paths → NoDup (destination targetDir <$> paths) →
    (∀ p q, p ∈ paths → q ∈ paths → destination targetDir p ≠ q) →
    Forall (λ p, (p ∉ os_denied o) ∧ is_Some (os_files o !! p) ∧
                 (destination targetDir p ∉ os_denied o) ∧
                 (destination targetDir p ∉ os_dirs o)) paths →
    ∃ o', rename_each o targetDir paths count =
            (o', Ok (count + Z.of_nat (length paths))) ∧
          (∀ p, p ∈ paths →
                os_files o' !! destination targetDir p = os_files o !! p ∧
                os_files o' !! p = None) ∧
          (∀ q, q ∉ paths → q ∉ destination targetDir <$> paths →
                os_files o' !! q = os_files o !! q).
Proof.
  induction paths as [|p paths IH]; intros o count Hnd Hndd Hsep Hall.
  - exists o. simpl. rewrite Z.add_0_r. split; [done|].
    split; [by intros p ?%elem_of_nil | done].
  - apply NoDup_cons in Hnd as [Hp Hnd]. rewrite fmap_cons in Hndd.
    apply NoDup_cons in Hndd as [Hdp Hndd].
    apply Forall_cons in Hall as [(Hpd & [c Hc] & Hdd & Hdir) Hall].
    assert (destination targetDir p ≠ p) as Hself by (apply Hsep; left).
    assert (destination targetDir p ∉ paths) as Hdst.
    { intros Hin.
      apply (Hsep p (destination targetDir p)); [left|by right|done]. }
    simpl. fold (destination targetDir p). unfold os_Rename.
    rewrite decide_False by (by intros [?|?]).
    rewrite decide_False, Hc by done. simpl.
    set (o1 := with_files o
                 (<[destination targetDir p := c]> (delete p (os_files o)))).
    assert (∀ q, q ∈ paths → os_files o1 !! q = os_files o !! q) as Hsame.
    { intros q Hq. simpl. rewrite lookup_insert_ne by (by intros <-).
      rewrite lookup_delete_ne; [done|]. by intros <-. }
    destruct (IH o1 (count + 1) Hnd Hndd) as (o' & -> & Hmoved & Hother).
    { intros x y Hx Hy. apply Hsep; by right. }
    { apply Forall_forall. intros q Hq.
      destruct (proj1 (Forall_forall _ _) Hall q Hq) as (? & ? & ? & ?).
      repeat split; try done. by rewrite Hsame. }
    exists o'. split; [f_equal; f_equal; simpl; lia|]. split.
    + intros q [->|Hq]%elem_of_cons.
      * rewrite !Hother; try done.
        -- simpl. rewrite lookup_insert_eq, lookup_insert_ne by done.
           by rewrite lookup_delete_eq.
        -- intros (q & Hq1 & Hq2)%list_elem_of_fmap.
           by apply (Hsep q p); [right|left|].
      * destruct (Hmoved q Hq) as [-> ->]. by rewrite Hsame.
    + intros q Hq Hqd.
      apply not_elem_of_cons in Hq as [Hq1 Hq2].
      apply not_elem_of_cons in Hqd as [Hqd1 Hqd2].
      rewrite Hother by done. simpl.
      rewrite lookup_insert_ne by done. by rewrite lookup_delete_ne.
Qed.

(** C5, as stated, fails: nothing looks at what the destination already
    holds. Here the canonical file lies in the destination directory
    under the base name of its duplicate; Move renames the duplicate over
    it, logs one moved file, and the content of the canonical file is
    gone. *)
Lemma move_overwrites_canonical :
  ∃ a o',
    findDuplicates insertionSort keep_records agg0 = Ok a ∧
    (λ kv : string * list tFileData, (kv.1, fd_path <$> kv.2))
      <$> map_to_list (duplicates a) =
      [("2144df1c", ["/t/f"; "/s/f"])]%string ∧
    moveDuplicates os_keep "/t" (map_to_list (duplicates a)) = (o', Ok 1) ∧
    os_files os_keep !! "/t/f"%string = Some content_six ∧
    os_files o' !! "/t/f"%string = Some content_five ∧
    os_files o' !! "/s/f"%string = None.
Proof.
  do 2 eexists. split; [vm_compute; reflexivity|].
  split; [vm_compute; reflexivity|].
  split; [vm_compute; reflexivity|].
  repeat split; vm_compute; reflexivity.
Qed.

(** C5, amended: Move makes sure of the destination directory and renames
    each duplicate to the destination directory joined with its base
    name. When the duplicates are distinct, lead to distinct destination
    names and none of these names is itself a duplicate, every duplicate
    ends under its destination name, replacing whatever file had that
    name, its old path is gone, the number of duplicates is logged, and
    every file that is neither a duplicate nor at a destination name, the
    canonical ones among them, is untouched. *)
Theorem move_renames_into_target o targetDir order :
  creatable o targetDir →
  NoDup (listDuplicates_in order) →
  NoDup (destination targetDir <$> listDuplicates_in order) →
  (∀ p q, p ∈ listDuplicates_in order → q ∈ listDuplicates_in order →
          destination targetDir p ≠ q) →
  Forall (movable o targetDir) (listDuplicates_in order) →
  ∃ o', moveDuplicates o targetDir order =
          (o', Ok (Z.of_nat (length (listDuplicates_in order)))) ∧
        (∀ p, p ∈ listDuplicates_in order →
              os_files o' !! destination targetDir p = os_files o !! p ∧
              os_files o' !! p = None) ∧
        (∀ q, q ∉ listDuplicates_in order →
              q ∉ destination targetDir <$> listDuplicates_in order →
              os_files o' !! q = os_files o !! q).
Proof.
  intros Hc Hnd Hndd Hsep Hall. unfold moveDuplicates.
  destruct (ensureTargetDir_ok o targetDir Hc)
    as (o1 & -> & Hf & Hd & Hdirs & _).
  destruct (rename_each_all targetDir (listDuplicates_in order) o1 0
              Hnd Hndd Hsep) as (o' & -> & Hmoved & Hother).
  { apply Forall_forall. intros p Hp.
    destruct (proj1 (Forall_forall _ _) Hall p Hp) as (? & ? & ? & ? & ?).
    rewrite Hf, Hd, Hdirs. repeat split; try done.
    intros [?%elem_of_singleton|?]%elem_of_union; done. }
  exists o'. split; [done|]. rewrite <- Hf. by split.
Qed.

Lemma move_renames_into_target_witness :
  ∃ a,
    findDuplicates insertionSort apart_records agg0 = Ok a ∧
    listDuplicates_in (map_to_list (duplicates a)) =
      ["/s/x/a"; "/s/y/b"]%string ∧
    destination "/t" <$> listDuplicates_in (map_to_list (duplicates a)) =
      ["/t/a"; "/t/b"]%string ∧
    ∃ o', moveDuplicates os_apart "/t" (map_to_list (duplicates a)) =
            (o', Ok (Z.of_nat (length
                       (listDuplicates_in (map_to_list (duplicates a)))))) ∧
          (∀ p, p ∈ listDuplicates_in (map_to_list (duplicates a)) →
                os_files o' !! destination "/t" p = os_files os_apart !! p ∧
                os_files o' !! p = None) ∧
          (∀ q, q ∉ listDuplicates_in (map_to_list (duplicates a)) →
                q ∉ destination "/t" <$>
                      listDuplicates_in (map_to_list (duplicates a)) →
                os_files o' !! q = os_files os_apart !! q).
Proof.
  eexists. split; [vm_compute; reflexivity|].
  split; [vm_compute; reflexivity|].
  split; [vm_compute; reflexivity|].
  apply (move_renames_into_target os_apart "/t").
  - right. split; [apply not_elem_of_empty | vm_compute; reflexivity].
  - apply (bool_decide_unpack _). vm_compute. exact I.
  - apply (bool_decide_unpack _). vm_compute. exact I.
  - intros p q Hp Hq.
    replace (listDuplicates_in _) with ["/s/x/a"; "/s/y/b"]%string in Hp, Hq
      by (vm_compute; reflexivity).
    repeat (apply elem_of_cons in Hp as [->|Hp]);
      repeat (apply elem_of_cons in Hq as [->|Hq]);
      try (by apply elem_of_nil in Hp); try (by apply elem_of_nil in Hq);
      vm_compute; discriminate.
  - replace (listDuplicates_in _) with ["/s/x/a"; "/s/y/b"]%string
      by (vm_compute; reflexivity).
    repeat constructor; try apply not_elem_of_empty;
      try (vm_compute; eauto; discriminate).
Defined.

(** ** C6 and C8: the walker *)

Lemma tree_induction (P : tree → Prop) :
  (∀ name info, P (Entry name info)) →
  (∀ name info children, Forall P children → P (Folder name info children)) →
  (∀ name info err, P (Unreadable name info err)) →
  (∀ name err, P (Vanished name err)) →
  ∀ t, P t.
Proof.
  intros HE HF HU HV. fix IH 1.
  intros [name info|name info children|name info err|name err].
  - apply HE.
  - apply HF. induction children as [|t ts IHts]; constructor.
    + apply IH.
    + exact IHts.
  - apply HU.
  - apply HV.
Qed.

Lemma and_then_elem (a b : sent) d :
  d ∈ (and_then a b).1 → d ∈ a.1 ∨ d ∈ b.1.
Proof.
  unfold and_then. destruct a.2; simpl; [by left|].
  by intros ?%elem_of_app.
Qed.

Lemma walk_sends path info err d :
  d ∈ (sent_of (walk path info err)).1 →
  ∃ i, info = Some i ∧ fi_kind i = Regular ∧ 0 < fi_Size i ∧
       d = mkFileData path (fi_Size i) [] (fi_ModTime i).
Proof.
  unfold walk. destruct info as [i|]; [|by intros ?%elem_of_nil].
  unfold IsRegular, IsDir.
  destruct (decide (fi_kind i = Regular)) as [Hreg|Hreg].
  - rewrite bool_decide_eq_true_2 by done. simpl.
    rewrite bool_decide_eq_false_2 by (by rewrite Hreg).
    case_bool_decide as Hsize; simpl; [|by intros ?%elem_of_nil].
    intros ->%list_elem_of_singleton. exists i. repeat split; [done|lia].
  - rewrite bool_decide_eq_false_2 by done. simpl. by intros ?%elem_of_nil.
Qed.

Local Arguments walk : simpl never.

Lemma walk_tree_sends t :
  ∀ path d, d ∈ (walk_tree path t).1 →
    ∃ info, (fd_path d, info) ∈ entries path t ∧
            fi_kind info = Regular ∧ 0 < fi_Size info ∧
            d = mkFileData (fd_path d) (fi_Size info) [] (fi_ModTime info).
Proof.
  induction t as [name info|name info children IH|name info err|name err]
    using tree_induction; intros path d Hd; simpl in Hd.
  - apply walk_sends in Hd as (i & [= <-] & Hk & Hs & ->).
    exists info. simpl. repeat split; [left|done|done].
  - simpl. destruct (negb (IsDir info)).
    { apply walk_sends in Hd as (i & [= <-] & Hk & Hs & ->).
      exists info. simpl. repeat split; [left|done|done]. }
    apply and_then_elem in Hd as [Hd|Hd].
    + apply walk_sends in Hd as (i & [= <-] & Hk & Hs & ->).
      exists info. simpl. repeat split; [left|done|done].
    + simpl. induction IH as [|t ts Ht Hts IHts]; simpl in Hd.
      * by apply elem_of_nil in Hd.
      * apply and_then_elem in Hd as [Hd|Hd].
        -- destruct (Ht _ _ Hd) as (i & Hin & Hrest).
           exists i. split; [|done]. right. apply elem_of_app. by left.
        -- destruct (IHts Hd) as (i & Hin & Hrest).
           exists i. split; [|done].
           apply elem_of_cons in Hin as [Hin|Hin].
           ++ rewrite Hin. left.
           ++ right. apply elem_of_app. by right.
  - destruct (negb (IsDir info));
      apply walk_sends in Hd as (i & [= <-] & Hk & Hs & ->);
      exists info; simpl; repeat split; [left|done|done|left|done|done].
  - by apply elem_of_nil in Hd.
Qed.

Lemma findDuplicates_body_scanned sort_Slice a d a' :
  findDuplicates_body sort_Slice a d = Ok a' →
  st_count (stats a') = uint32 (st_count (stats a) + 1) ∧
  st_size (stats a') = uint64 (st_size (stats a) + usize d) ∧
  st_complted (stats a') = st_complted (stats a).
Proof.
  unfold findDuplicates_body.
  destruct (duplicates a !! Sprintf_x (fd_hash d)); [|by intros [= <-]].
  destruct (sort_Slice _ _) as [|x [|y r]]; [done|done|].
  by intros [= <-].
Qed.

Lemma findDuplicates_scanned sort_Slice ds :
  ∀ a a' c s, findDuplicates sort_Slice ds a = Ok a' →
    st_count (stats a) = uint32 c → st_size (stats a) = uint64 s →
    st_count (stats a') = uint32 (c + Z.of_nat (length ds)) ∧
    st_size (stats a') = uint64 (s + Zsum (usize <$> ds)).
Proof.
  induction ds as [|d ds IH]; intros a a' c s; simpl.
  - intros [= <-] -> ->. unfold Zsum. simpl. by rewrite !Z.add_0_r.
  - destruct (findDuplicates_body sort_Slice a d) as [a1|] eqn:E; [|done].
    simpl. intros Hrun Hc Hs.
    apply findDuplicates_body_scanned in E as (Hc1 & Hs1 & _).
    rewrite Hc, uint32_succ in Hc1. rewrite Hs, uint64_add in Hs1.
    destruct (IH _ _ _ _ Hrun Hc1 Hs1) as [-> ->].
    split; f_equal; [lia|]. unfold Zsum. simpl. symmetry. apply Z.add_assoc.
Qed.

Lemma fingerprinted_elem o queue d :
  d ∈ fingerprinted o queue → ∃ r h, r ∈ queue ∧ d = set_hash r h.
Proof.
  unfold fingerprinted. induction queue as [|r queue IH]; simpl.
  - by intros ?%elem_of_nil.
  - destruct (checksum o (fd_path r)) as [[h n]|]; simpl;
      [|by intros ?%elem_of_nil].
    intros [->|Hd]%elem_of_cons.
    + exists r, h. split; [left|done].
    + destruct (IH Hd) as (r' & h' & Hr & ->). exists r', h'.
      split; [by right|done].
Qed.

(** C6: the callback is where a traversal error on an entry is to be
    absorbed, and it is not. An entry that cannot be stat-ed comes without
    a [FileInfo], the callback calls a method of it all the same and
    panics, and the entries behind it are never visited; and where the
    [FileInfo] is there (a directory that cannot be read) the error is
    dropped without a report. *)
Theorem vanished_entry_crashes_walk :
  (∀ path err,
     walk path None (Some err) =
       Panic "invalid memory address or nil pointer dereference") ∧
  (∀ path info err, walk path (Some info) (Some err) =
                    walk path (Some info) None) ∧
  filepath_Walk "/r" tree_gone =
    ([mkFileData "/r/a" 1 [] 30],
     Some "invalid memory address or nil pointer dereference"%string).
Proof. repeat split. Qed.

(** C8: whatever the tree, the walker sends on only regular files with a
    size above zero; the aggregator takes in all it is sent, every member
    of every group stands for such a file, and the counters of scanned
    files and bytes count these records and nothing else. *)
Theorem only_regular_nonempty_files_counted sort_Slice o root t :
  SortSliceSpec sort_Slice →
  Forall (from_regular_nonempty root t) (filepath_Walk root t).1 ∧
  ∃ a, findDuplicates sort_Slice
         (fingerprinted o (filepath_Walk root t).1) agg0 = Ok a ∧
       (∀ h l d, duplicates a !! h = Some l → d ∈ l →
                 from_regular_nonempty root t d) ∧
       st_count (stats a) =
         uint32 (Z.of_nat (length (fingerprinted o (filepath_Walk root t).1))) ∧
       st_size (stats a) =
         uint64 (Zsum (usize <$> fingerprinted o (filepath_Walk root t).1)) ∧
       Forall (from_regular_nonempty root t)
         (fingerprinted o (filepath_Walk root t).1).
Proof.
  intros Hs.
  assert (∀ d, d ∈ (filepath_Walk root t).1 → from_regular_nonempty root t d)
    as Hwalk.
  { intros d Hd. apply walk_tree_sends in Hd as (info & Hin & Hk & Hsz & Hd).
    exists info. destruct d as [p sz hh md]. simpl in *.
    by injection Hd as -> _ ->. }
  assert (∀ d, d ∈ fingerprinted o (filepath_Walk root t).1 →
               from_regular_nonempty root t d) as Hfp.
  { intros d (r & h & Hr & ->)%fingerprinted_elem.
    destruct (Hwalk r Hr) as (info & Hinfo). by exists info. }
  split; [by apply Forall_forall|].
  destruct (findDuplicates_total _ Hs
              (fingerprinted o (filepath_Walk root t).1))
    as (a & Hrun & Hreg & _).
  exists a. split; [done|]. split.
  - intros h l d Hl Hd. pose proof (Hreg h) as Hh. rewrite Hl in Hh.
    destruct Hh as [_ Hperm]. rewrite Hperm in Hd.
    apply arrivals_elem in Hd as [Hd _]. by apply Hfp.
  - destruct (findDuplicates_scanned _ _ _ _ 0 0 Hrun) as [-> ->]; [done..|].
    rewrite !Z.add_0_l. repeat split. by apply Forall_forall.
Qed.

Lemma only_regular_nonempty_files_counted_witness :
  (filepath_Walk "/r" tree_mixed).1 =
    [mkFileData "/r/a.txt" 1 [] 30; mkFileData "/r/sub/b.txt" 1 [] 20] ∧
  Forall (from_regular_nonempty "/r" tree_mixed)
    (filepath_Walk "/r" tree_mixed).1 ∧
  ∃ a, findDuplicates insertionSort
         (fingerprinted os_mixed (filepath_Walk "/r" tree_mixed).1) agg0
       = Ok a ∧
       (∀ h l d, duplicates a !! h = Some l → d ∈ l →
                 from_regular_nonempty "/r" tree_mixed d) ∧
       st_count (stats a) =
         uint32 (Z.of_nat (length
           (fingerprinted os_mixed (filepath_Walk "/r" tree_mixed).1))) ∧
       st_size (stats a) =
         uint64 (Zsum (usize <$>
           fingerprinted os_mixed (filepath_Walk "/r" tree_mixed).1)) ∧
       Forall (from_regular_nonempty "/r" tree_mixed)
         (fingerprinted os_mixed (filepath_Walk "/r" tree_mixed).1).
Proof.
  split; [vm_compute; reflexivity|].
  exact (only_regular_nonempty_files_counted insertionSort os_mixed "/r"
           tree_mixed insertionSort_ok).
Defined.

(** ** C7: Export *)

Lemma list_byte_of_string_app s1 s2 :
  list_byte_of_string (s1 +:+ s2) =
  list_byte_of_string s1 ++ list_byte_of_string s2.
Proof.
  unfold list_byte_of_string.
  induction s1 as [|c s1 IH]; simpl; [done|]. by rewrite IH.
Qed.

Lemma write_each_all file paths :
  ∀ o count content,
    file ∉ os_ioerr o → os_files o !! file = Some content →
    ∃ o', write_each o file paths count =
            (o', Ok (count + Z.of_nat (length paths))) ∧
          os_files o' =
            <[file := content ++ list_byte_of_string (manifest_text paths)]>
              (os_files o).
Proof.
  induction paths as [|p paths IH]; intros o count content Hio Hf.
  - exists o. simpl. rewrite Z.add_0_r, app_nil_r. split; [done|].
    by rewrite insert_id.
  - simpl. unfold file_WriteString at 1. rewrite decide_False, Hf by done.
    simpl. unfold file_WriteString at 1. simpl.
    rewrite decide_False, lookup_insert_eq by done. simpl.
    rewrite insert_insert_eq.
    edestruct IH as (o' & -> & Hfiles);
      [|simpl; apply lookup_insert_eq|]; [done|].
    exists o'. split; [f_equal; f_equal; lia|].
    rewrite Hfiles. simpl. rewrite insert_insert_eq. f_equal.
    rewrite <- !app_assoc. f_equal.
    by rewrite (list_byte_of_string_app p (String "010" _)).
Qed.

Lemma split_sep_nonempty sep s : split_sep sep s ≠ [].
Proof.
  destruct s as [|c s]; simpl; [done|].
  destruct (decide (c = sep)); [done|]. by destruct (split_sep sep s).
Qed.

Lemma split_sep_line sep p rest :
  has_char sep p = false →
  split_sep sep (p +:+ String sep rest) = p :: split_sep sep rest.
Proof.
  induction p as [|c p IH]; simpl.
  - intros _. by rewrite decide_True.
  - destruct (decide (c = sep)); [done|]. intros H. by rewrite (IH H).
Qed.

Lemma manifest_round_trip paths :
  Forall (λ p, has_char "010" p = false) paths →
  manifest_lines (manifest_text paths) = paths.
Proof.
  unfold manifest_lines. induction 1 as [|p paths Hp Hps IH]; simpl; [done|].
  rewrite split_sep_line by done.
  pose proof (split_sep_nonempty "010" (manifest_text paths)) as Hne.
  simpl. destruct (split_sep "010" (manifest_text paths)); [done|].
  by rewrite IH.
Qed.

(** C7, as stated, fails twice. The paths written are the paths the
    walker built from the scan root, so a scan of [.] exports [b.txt], not
    an absolute path. And a path is written as it is, so a path with a
    line feed in it reads back as two lines, neither of which is a path of
    the registry. *)
Lemma manifest_not_absolute_not_line_safe :
  (∃ a o',
     findDuplicates insertionSort
       (fingerprinted os_here (filepath_Walk "." tree_here).1) agg0 = Ok a ∧
     exportDuplicates os_here (filepath_Join "." ".dup-fu")
       (map_to_list (duplicates a)) = (o', Ok 1) ∧
     read_lines o' ".dup-fu/duplicates.txt" = ["b.txt"%string] ∧
     IsAbs "b.txt" = false) ∧
  (∃ a o',
     findDuplicates insertionSort feed_records agg0 = Ok a ∧
     listDuplicates_in (map_to_list (duplicates a)) = [two_lines] ∧
     exportDuplicates os_feed "/t" (map_to_list (duplicates a)) =
       (o', Ok 1) ∧
     read_lines o' "/t/duplicates.txt" = ["/r/x"; "y"]%string).
Proof.
  split.
  - do 2 eexists. split; [vm_compute; reflexivity|].
    split; [vm_compute; reflexivity|]. split; vm_compute; reflexivity.
  - do 2 eexists. split; [vm_compute; reflexivity|].
    split; [vm_compute; reflexivity|]. split; vm_compute; reflexivity.
Qed.

(** C7, amended: Export creates [duplicates.txt] in the destination
    directory, writes every non-canonical path of the groups with two or
    more members, as the walker recorded it (the scan root joined with the
    names below it, absolute only if the scan root is), each followed by
    a line feed, and logs their number; when no path contains a line
    feed, the lines of the manifest are exactly these paths. *)
Theorem export_writes_listing o targetDir order m :
  range_order m order →
  creatable o targetDir →
  manifest_path targetDir ∉ os_denied o →
  manifest_path targetDir ∉ os_dirs o →
  manifest_path targetDir ≠ targetDir →
  manifest_path targetDir ∉ os_ioerr o →
  ∃ o', exportDuplicates o targetDir order =
          (o', Ok (Z.of_nat (length (listDuplicates_in order)))) ∧
        os_files o' !! manifest_path targetDir =
          Some (list_byte_of_string
                  (manifest_text (listDuplicates_in order))) ∧
        (∀ path, path ∈ listDuplicates_in order ↔ non_canonical_path m path) ∧
        (Forall (λ p, has_char "010" p = false) (listDuplicates_in order) →
         ∀ path, path ∈ read_lines o' (manifest_path targetDir) ↔
                 non_canonical_path m path).
Proof.
  intros Hord Hc Hden Hdir Hne Hio. unfold exportDuplicates.
  destruct (ensureTargetDir_ok o targetDir Hc)
    as (o1 & -> & Hf1 & Hd1 & Hdirs1 & Hio1).
  fold (manifest_path targetDir). unfold os_Create.
  rewrite decide_False by (by rewrite Hd1).
  rewrite decide_False
    by (rewrite Hdirs1; by intros [?%elem_of_singleton|?]%elem_of_union).
  simpl.
  edestruct (write_each_all (manifest_path targetDir)
               (listDuplicates_in order)) as (o' & -> & Hfiles);
    [|simpl; apply lookup_insert_eq|]; [simpl; by rewrite Hio1|].
  simpl in Hfiles.
  assert (os_files o' !! manifest_path targetDir =
            Some (list_byte_of_string
                    (manifest_text (listDuplicates_in order)))) as Hm.
  { rewrite Hfiles. apply lookup_insert_eq. }
  exists o'. split; [done|]. split; [done|]. split.
  - intros path. by apply listDuplicates_in_spec.
  - intros Hnl path. unfold read_lines. rewrite Hm. simpl.
    rewrite string_of_list_byte_of_string, manifest_round_trip by done.
    by apply listDuplicates_in_spec.
Qed.

Lemma export_writes_listing_witness :
  ∃ a,
    findDuplicates insertionSort
      (fingerprinted os_mixed (filepath_Walk "/r" tree_mixed).1) agg0 = Ok a ∧
    ∃ o', exportDuplicates os_mixed "/r/.dup-fu" (map_to_list (duplicates a)) =
            (o', Ok (Z.of_nat (length
                       (listDuplicates_in (map_to_list (duplicates a)))))) ∧
          os_files o' !! manifest_path "/r/.dup-fu" =
            Some (list_byte_of_string
                    (manifest_text
                       (listDuplicates_in (map_to_list (duplicates a))))) ∧
          (∀ path, path ∈ listDuplicates_in (map_to_list (duplicates a)) ↔
                   non_canonical_path (duplicates a) path) ∧
          (∀ path, path ∈ read_lines o' (manifest_path "/r/.dup-fu") ↔
                   non_canonical_path (duplicates a) path) ∧
          read_lines o' (manifest_path "/r/.dup-fu") = ["/r/a.txt"%string].
Proof.
  eexists. split; [vm_compute; reflexivity|].
  match goal with
  | |- ∃ o', exportDuplicates _ _ (map_to_list ?m) = _ ∧ _ =>
      destruct (export_writes_listing os_mixed "/r/.dup-fu"
                  (map_to_list m) m)
        as (o' & Hrun & Hfile & Hlist & Hlines)
  end.
  - unfold range_order. reflexivity.
  - right. split; [apply not_elem_of_empty | vm_compute; reflexivity].
  - apply not_elem_of_empty.
  - apply not_elem_of_empty.
  - vm_compute. discriminate.
  - apply not_elem_of_empty.
  - exists o'. split; [exact Hrun|]. split; [exact Hfile|].
    split; [exact Hlist|]. split.
    + apply Hlines. apply (bool_decide_unpack _). vm_compute. exact I.
    + unfold read_lines. rewrite Hfile. vm_compute. reflexivity.
Defined.

(** ** C9: when the flag goes up *)

Lemma early_flag_reachable sort_Slice o :
  reachable sort_Slice o ([mixed_a; mixed_b], None) early_flag.
Proof.
  unfold reachable, pipeline0, early_flag.
  eapply rtc_l; [by apply step_walk_send; simpl; lia|]. simpl.
  eapply rtc_l; [by apply step_walk_send; simpl; lia|]. simpl.
  eapply rtc_l; [by apply step_scan_done|].
  eapply rtc_l; [apply step_tick|]. simpl. apply rtc_refl.
Qed.

Lemma step_flag_inv sort_Slice o p p' :
  step sort_Slice o p p' → flag_inv p → flag_inv p'.
Proof.
  unfold flag_inv, flag.
  destruct 1 as [d todo e fc ws cc a rep sh Hlen
                |msg fc ws cc a rep sh
                |fc ws cc a rep sh Hfl
                |i data h n w fc ws cc a rep sh Hw Hck
                |i data msg w fc ws cc a rep sh Hw Hck
                |i data w fc ws cc a rep sh Hw Hlen
                |d a' w fc ws cc a rep sh Hbody
                |d msg w fc ws cc a rep sh Hbody
                |w fc ws cc a sh]; simpl; intros [Hw1 Hsh]; try done.
  - split; [|done]. intros Hf. by specialize (Hw1 Hf).
  - split; [done|]. eapply Forall_impl; [exact Hsh|]. done.
  - apply findDuplicates_body_scanned in Hbody as (_ & _ & Heq).
    rewrite Heq. done.
  - split; [done|]. apply Forall_app. split; [done|].
    by apply Forall_singleton.
Qed.

Lemma reachable_flag_inv sort_Slice o w p :
  reachable sort_Slice o w p → flag_inv p.
Proof.
  unfold reachable. revert p. apply rtc_ind_r.
  - split; [done|constructor].
  - intros q p _ Hstep Hq. by apply (step_flag_inv _ _ _ _ Hstep).
Qed.

(** C9, as stated, fails: [scan] raises the flag as soon as
    [filepath.Walk] has returned. With two files found, the flag is up
    and has been shown by the reporter, which then stops, while both
    fingerprint jobs wait in [fileChannel] and the aggregator has counted
    nothing. *)
Lemma flag_shown_with_jobs_in_flight :
  filepath_Walk "/r" tree_mixed = ([mixed_a; mixed_b], None) ∧
  reachable insertionSort os_mixed (filepath_Walk "/r" tree_mixed) early_flag ∧
  crashed early_flag = None ∧
  st_complted <$> shown early_flag = [true] ∧
  reporting early_flag = false ∧
  in_flight early_flag = [mixed_a; mixed_b] ∧
  st_count (stats (agg early_flag)) = 0.
Proof.
  split; [vm_compute; reflexivity|].
  split; [apply early_flag_reachable|]. repeat split.
Qed.

(** C9, amended: in every state the pipeline can reach, the flag is up,
    or has been shown up by the reporter, only if the walker has returned
    without a panic, having sent every record it had to send; fingerprint
    jobs may still be queued, in a worker or waiting for the aggregator. *)
Theorem flag_means_walker_done sort_Slice o w p :
  reachable sort_Slice o w p →
  flag p = true ∨ (∃ s, s ∈ shown p ∧ st_complted s = true) →
  walker p = ([], None).
Proof.
  intros Hreach Hflag.
  destruct (reachable_flag_inv _ _ _ _ Hreach) as [Hw Hsh].
  apply Hw. destruct Hflag as [Hf|(s & Hs & Hf)]; [done|].
  by apply (proj1 (Forall_forall _ _) Hsh s Hs).
Qed.

Lemma flag_means_walker_done_witness :
  flag early_flag = true ∧ walker early_flag = ([], None).
Proof.
  split; [reflexivity|].
  apply (flag_means_walker_done insertionSort os_mixed
           ([mixed_a; mixed_b], None) early_flag).
  - apply early_flag_reachable.
  - left. reflexivity.
Defined.

(** * Further properties *)

(** ** The walker on a tree whose entries can all be stat-ed *)

Lemma walk_with_info path info err :
  sent_of (walk path (Some info) err) =
    (omap record_of [(path, info)], None).
Proof.
  unfold walk, record_of, IsRegular, IsDir. simpl.
  destruct (decide (fi_kind info = Regular)) as [Hreg|Hreg].
  - rewrite bool_decide_eq_true_2 by done. simpl.
    rewrite bool_decide_eq_false_2 by (by rewrite Hreg).
    by destruct (bool_decide (fi_Size info > 0)).
  - by rewrite bool_decide_eq_false_2 by done.
Qed.

Lemma and_then_returned l1 (b : sent) :
  and_then (l1, None) b = (l1 ++ b.1, b.2).
Proof. reflexivity. Qed.

(** X1: on a tree in which every name the traversal reaches can be
    stat-ed, the walker does not panic and sends exactly the records of
    the regular non-empty entries, one each, in the order of the
    traversal. *)
Theorem walker_sends_all_regular_nonempty t :
  ∀ path, stat_fails t = false →
    filepath_Walk path t = (omap record_of (entries path t), None).
Proof.
  unfold filepath_Walk.
  induction t as [name info|name info children IH|name info err|name err]
    using tree_induction; intros path Hok.
  - apply walk_with_info.
  - simpl in *. destruct (negb (IsDir info)); [apply walk_with_info|].
    rewrite walk_with_info, and_then_returned.
    enough ((fix walk_children (ts : list tree) : sent :=
               match ts with
               | [] => ([], None)
               | t' :: ts' =>
                   and_then (walk_tree (filepath_Join path (tree_name t')) t')
                            (walk_children ts')
               end) children =
            (omap record_of
               ((fix entries_children (ts : list tree)
                   : list (string * FileInfo) :=
                   match ts with
                   | [] => []
                   | t' :: ts' =>
                       entries (filepath_Join path (tree_name t')) t' ++
                       entries_children ts'
                   end) children), None)) as ->
      by (cbn [fst snd]; by rewrite <- omap_app).
    induction IH as [|t ts Ht Hts IHts]; [done|].
    apply orb_false_iff in Hok as [Hok1 Hok2].
    rewrite (Ht _ Hok1), (IHts Hok2), and_then_returned. simpl.
    by rewrite omap_app.
  - simpl. destruct (negb (IsDir info)); apply walk_with_info.
  - done.
Qed.

Lemma walker_sends_all_regular_nonempty_witness :
  filepath_Walk "/r" tree_mixed =
    (omap record_of (entries "/r" tree_mixed), None) ∧
  omap record_of (entries "/r" tree_mixed) = [mixed_a; mixed_b].
Proof.
  split; [|vm_compute; reflexivity].
  apply (walker_sends_all_regular_nonempty tree_mixed "/r").
  vm_compute. reflexivity.
Defined.

(** ** Every record in one group, once *)

Lemma all_members_insert_fresh (m : gmap string (list tFileData)) h l :
  m !! h = None → all_members (<[h := l]> m) ≡ₚ l ++ all_members m.
Proof.
  intros Hh. unfold all_members. by rewrite (map_to_list_insert m h l Hh).
Qed.

Lemma all_members_lookup (m : gmap string (list tFileData)) h l :
  m !! h = Some l → all_members m ≡ₚ l ++ all_members (delete h m).
Proof.
  intros Hh. rewrite <- (insert_id m h l Hh) at 1.
  rewrite <- insert_delete_eq.
  apply all_members_insert_fresh, lookup_delete_eq.
Qed.

Lemma all_members_insert_over (m : gmap string (list tFileData)) h l :
  all_members (<[h := l]> m) ≡ₚ l ++ all_members (delete h m).
Proof.
  rewrite <- insert_delete_eq.
  apply all_members_insert_fresh, lookup_delete_eq.
Qed.

Section Members.

Variable sort_Slice :
  (tFileData → tFileData → bool) → list tFileData → list tFileData.
Hypothesis sort_ok : SortSliceSpec sort_Slice.

Lemma findDuplicates_body_members ds a d a' :
  registry_inv ds a →
  findDuplicates_body sort_Slice a d = Ok a' →
  all_members (duplicates a') ≡ₚ all_members (duplicates a) ++ [d].
Proof.
  intros Hreg. pose proof (Hreg (key d)) as Hk.
  destruct (duplicates a !! key d) as [l0|] eqn:E.
  - destruct Hk as [Hne _].
    destruct (findDuplicates_body_join _ sort_ok a d l0 E Hne)
      as (x & y & r & right1 & Hsort & ->).
    intros [= <-]. simpl.
    rewrite all_members_insert_over, (all_members_lookup _ _ _ E).
    rewrite <- Hsort, (sort_Slice_perm _ sort_ok).
    rewrite <- !app_assoc. apply Permutation_app_head, Permutation_app_comm.
  - rewrite (findDuplicates_body_new _ a d E). intros [= <-]. simpl.
    rewrite (all_members_insert_fresh _ _ _ E).
    apply (Permutation_app_comm [d]).
Qed.

Lemma findDuplicates_members ds :
  ∀ pre a a', agg_inv pre a →
    findDuplicates sort_Slice ds a = Ok a' →
    all_members (duplicates a) ≡ₚ pre →
    all_members (duplicates a') ≡ₚ pre ++ ds.
Proof.
  induction ds as [|d ds IH]; intros pre a a' Hinv; simpl.
  - intros [= <-]. by rewrite app_nil_r.
  - destruct (agg_inv_step _ sort_ok pre a d Hinv) as (a1 & E & Hinv1 & _).
    rewrite E. simpl. intros Hrun Hm.
    rewrite (app_assoc pre [d] ds : pre ++ d :: ds = (pre ++ [d]) ++ ds).
    apply (IH _ a1 a' Hinv1 Hrun).
    rewrite (findDuplicates_body_members pre a d a1 (proj1 Hinv) E).
    by rewrite Hm.
Qed.

End Members.

(** X2: once the loop has taken in a stream it has returned, the members
    of all groups together are the records of the stream, each as often
    as it came, and a record sits in no group but the one of its key. *)
Theorem every_record_in_one_group_once sort_Slice ds :
  SortSliceSpec sort_Slice →
  ∃ a, findDuplicates sort_Slice ds agg0 = Ok a ∧
       all_members (duplicates a) ≡ₚ ds ∧
       ∀ h l d, duplicates a !! h = Some l → d ∈ l → key d = h.
Proof.
  intros Hs.
  destruct (findDuplicates_total _ Hs ds) as (a & Hrun & Hinv).
  exists a. split; [done|]. split.
  - apply (findDuplicates_members _ Hs ds [] agg0 a agg_inv_init Hrun).
    unfold all_members. simpl. by rewrite map_to_list_empty.
  - intros h l d Hl Hd. pose proof (proj1 Hinv h) as Hh. rewrite Hl in Hh.
    destruct Hh as [_ Hperm]. rewrite Hperm in Hd.
    by apply arrivals_elem in Hd as [_ ?].
Qed.

Lemma every_record_in_one_group_once_witness :
  ∃ a, findDuplicates insertionSort [rec_five; tie_first; tie_second] agg0
         = Ok a ∧
       all_members (duplicates a) ≡ₚ [rec_five; tie_first; tie_second] ∧
       ∀ h l d, duplicates a !! h = Some l → d ∈ l → key d = h.
Proof.
  exact (every_record_in_one_group_once insertionSort
           [rec_five; tie_first; tie_second] insertionSort_ok).
Defined.

(** ** Scanned files, groups and duplicates *)

Lemma members_count (L : list (string * list tFileData)) :
  Forall (λ kv, kv.2 ≠ []) L →
  Z.of_nat (length (L ≫= snd)) =
    Z.of_nat (length L) +
    Zsum ((λ kv, Z.max 0 (Z.of_nat (length kv.2) - 1)) <$> L).
Proof.
  unfold Zsum. induction 1 as [|[h l] L Hl HL IH]; [done|].
  rewrite bind_cons, length_app, fmap_cons. simpl in *.
  destruct l as [|x l]; [done|]. simpl length. lia.
Qed.

(** X3: once the loop has taken in a stream, the counter of scanned files
    is the number of groups plus the counter of duplicates, and the
    counter of scanned bytes is the sum of the sizes of all members of all
    groups (as [uint32] and [uint64]). *)
Theorem scanned_is_groups_plus_duplicates sort_Slice ds :
  SortSliceSpec sort_Slice →
  ∃ a, findDuplicates sort_Slice ds agg0 = Ok a ∧
       st_count (stats a) =
         uint32 (Z.of_nat (size (duplicates a)) + st_duplicates (stats a)) ∧
       st_size (stats a) =
         uint64 (Zsum (usize <$> all_members (duplicates a))).
Proof.
  intros Hs.
  destruct (findDuplicates_total _ Hs ds) as (a & Hrun & Hinv).
  pose proof (findDuplicates_members _ Hs ds [] agg0 a agg_inv_init Hrun)
    as Hm.
  rewrite app_nil_l in Hm.
  assert (all_members (duplicates a) ≡ₚ ds) as Hperm.
  { apply Hm. unfold all_members. simpl. by rewrite map_to_list_empty. }
  destruct (findDuplicates_scanned _ _ _ _ 0 0 Hrun) as [Hc Hsz]; [done..|].
  rewrite Z.add_0_l in Hc, Hsz.
  exists a. split; [done|]. split.
  - rewrite Hc. destruct Hinv as (Hreg & _ & Hcount & _). rewrite Hcount.
    unfold uint32. rewrite Zplus_mod_idemp_r. f_equal.
    rewrite <- (Permutation_length Hperm). unfold all_members.
    rewrite members_count, length_map_to_list; [done|].
    apply Forall_forall. intros [h l] Hhl%elem_of_map_to_list. simpl.
    pose proof (Hreg h) as Hh. rewrite Hhl in Hh. by destruct Hh.
  - rewrite Hsz. f_equal. apply Zsum_perm. by rewrite Hperm.
Qed.

Lemma scanned_is_groups_plus_duplicates_witness :
  ∃ a, findDuplicates insertionSort [rec_five; tie_first; tie_second] agg0
         = Ok a ∧
       st_count (stats a) =
         uint32 (Z.of_nat (size (duplicates a)) + st_duplicates (stats a)) ∧
       st_size (stats a) =
         uint64 (Zsum (usize <$> all_members (duplicates a))).
Proof.
  exact (scanned_is_groups_plus_duplicates insertionSort
           [rec_five; tie_first; tie_second] insertionSort_ok).
Defined.

(** ** The rows of the terminal list *)

Lemma SetItemText_main items (i : nat) it main secondary :
  items !! i = Some it → MainText it = main →
  MainText <$> SetItemText i main secondary items = MainText <$> items.
Proof.
  unfold SetItemText. revert i.
  induction items as [|x items IH]; intros [|i]; simpl; try done.
  - by intros [= ->] ->.
  - intros Hi Hm. f_equal. by apply IH.
Qed.

Lemma same_path_same_record (ds : list tFileData) x y :
  NoDup (fd_path <$> ds) → x ∈ ds → y ∈ ds → fd_path x = fd_path y → x = y.
Proof.
  induction ds as [|d ds IH]; [by intros _ ?%elem_of_nil|].
  rewrite fmap_cons. intros [Hd Hnd]%NoDup_cons.
  intros [->|Hx]%elem_of_cons [->|Hy]%elem_of_cons Hp; [done| | |by apply IH].
  - destruct Hd. rewrite Hp. by apply list_elem_of_fmap_2.
  - destruct Hd. rewrite <- Hp. by apply list_elem_of_fmap_2.
Qed.

Section Rows.

Variable sort_Slice :
  (tFileData → tFileData → bool) → list tFileData → list tFileData.
Hypothesis sort_ok : SortSliceSpec sort_Slice.

Lemma findDuplicates_body_rows a d l0 head second rest :
  duplicates a !! key d = Some l0 →
  sort_Slice less_modified (l0 ++ [d]) = head :: second :: rest →
  findDuplicates_body sort_Slice a d =
    Ok (mkAgg (<[key d := head :: second :: rest]> (duplicates a))
          (stats_duplicate (stats_scanned (stats a) d) d)
          match list_find (λ it, fd_path head = MainText it) (right a) with
          | None =>
              AddItem (fd_path head) (dupFiles_of second rest)
                (rune (uint32
                   (st_duplicates
                      (stats_duplicate (stats_scanned (stats a) d) d) + 32)))
                (right a)
          | Some (currentIndex, _) =>
              SetItemText currentIndex (fd_path head)
                (dupFiles_of second rest) (right a)
          end).
Proof.
  intros Hl0 Hsort. unfold findDuplicates_body. fold (key d).
  by rewrite Hl0, Hsort.
Qed.

Lemma rows_inv_step ds a d a' :
  registry_inv ds a → NoDup (fd_path <$> ds ++ [d]) → rows_inv a →
  findDuplicates_body sort_Slice a d = Ok a' → rows_inv a'.
Proof.
  intros Hreg Hnd [Hmain Hrows]. pose proof (Hreg (key d)) as Hk.
  destruct (duplicates a !! key d) as [l0|] eqn:E.
  - destruct Hk as [Hne Hperm].
    destruct (findDuplicates_body_join _ sort_ok a d l0 E Hne)
      as (x & y & r & _ & Hsort & _).
    rewrite (findDuplicates_body_rows a d l0 x y r E Hsort).
    intros [= <-]. unfold rows_inv. simpl.
    pose proof (sort_Slice_perm _ sort_ok less_modified (l0 ++ [d])) as Hp.
    rewrite Hsort in Hp.
    assert (x ∈ ds ++ [d] ∧ key x = key d) as [Hxin Hxkey].
    { assert (x ∈ l0 ++ [d]) as Hx by (rewrite <- Hp; left).
      apply elem_of_app in Hx as [Hl|Hr].
      - rewrite Hperm in Hl. apply arrivals_elem in Hl as [? ?].
        split; [apply elem_of_app; by left|done].
      - apply list_elem_of_singleton in Hr. subst x.
        split; [apply elem_of_app; right; left|done]. }
    destruct (list_find (λ it, fd_path x = MainText it) (right a))
      as [[idx it]|] eqn:Hfind.
    + apply list_find_Some in Hfind as (Hidx & Hit & _). split.
      * by rewrite (SetItemText_main _ _ it).
      * intros h head second rest.
        destruct (decide (key d = h)) as [<-|Hh].
        -- rewrite lookup_insert_eq. intros [= <- <- <-].
           exists idx, (Shortcut it). unfold SetItemText.
           by rewrite list_lookup_alter_eq, Hidx.
        -- rewrite lookup_insert_ne by done. intros Hl.
           destruct (Hrows _ _ _ _ Hl) as (i & sc & Hi).
           exists i, sc. unfold SetItemText.
           rewrite list_lookup_alter_ne; [done|]. intros <-.
           rewrite Hidx in Hi. injection Hi as ->. simpl in Hit.
           destruct Hh.
           pose proof (Hreg h) as Hh'. rewrite Hl in Hh'.
           destruct Hh' as [_ Hperm'].
           assert (head ∈ arrivals h ds) as Hhead by (rewrite <- Hperm'; left).
           apply arrivals_elem in Hhead as [Hin <-].
           rewrite <- Hxkey. f_equal.
           apply (same_path_same_record (ds ++ [d])); try done.
           apply elem_of_app. by left.
    + apply list_find_None in Hfind. split.
      * unfold AddItem. rewrite fmap_app. apply NoDup_app.
        split; [done|]. split; [|apply NoDup_singleton].
        intros main (it & -> & Hit)%list_elem_of_fmap.
        intros Heq%list_elem_of_singleton.
        by apply (proj1 (Forall_forall _ _) Hfind it Hit).
      * intros h head second rest.
        destruct (decide (key d = h)) as [<-|Hh].
        -- rewrite lookup_insert_eq. intros [= <- <- <-].
           eexists (length (right a)), _. unfold AddItem.
           by rewrite lookup_app_r, Nat.sub_diag by lia.
        -- rewrite lookup_insert_ne by done. intros Hl.
           destruct (Hrows _ _ _ _ Hl) as (i & sc & Hi).
           exists i, sc. unfold AddItem. by apply lookup_app_l_Some.
  - rewrite (findDuplicates_body_new _ a d E). intros [= <-].
    unfold rows_inv. simpl.
    split; [done|]. intros h head second rest.
    destruct (decide (key d = h)) as [<-|Hh].
    + by rewrite lookup_insert_eq.
    + rewrite lookup_insert_ne by done. apply Hrows.
Qed.

Lemma rows_inv_run ds :
  ∀ pre a a', agg_inv pre a → NoDup (fd_path <$> pre ++ ds) → rows_inv a →
    findDuplicates sort_Slice ds a = Ok a' → rows_inv a'.
Proof.
  induction ds as [|d ds IH]; intros pre a a' Hinv Hnd Hrows; simpl.
  - by intros [= <-].
  - destruct (agg_inv_step _ sort_ok pre a d Hinv) as (a1 & E & Hinv1 & _).
    rewrite E. simpl.
    rewrite (app_assoc pre [d] ds : pre ++ d :: ds = (pre ++ [d]) ++ ds)
      in Hnd.
    apply (IH _ a1 a' Hinv1 Hnd).
    apply (rows_inv_step pre a d a1 (proj1 Hinv)); [|done|done].
    rewrite fmap_app in Hnd. by apply NoDup_app in Hnd as [? _].
Qed.

End Rows.

(** X4: when the records of a stream have pairwise distinct paths, the
    terminal list after the loop has no two rows with one first line, and
    for every group with a duplicate it has a row whose first line is the
    path of the canonical member and whose second line is the path of the
    second member, followed by the number of further members if any. *)
Theorem every_duplicate_group_has_its_row sort_Slice ds :
  SortSliceSpec sort_Slice →
  NoDup (fd_path <$> ds) →
  ∃ a, findDuplicates sort_Slice ds agg0 = Ok a ∧ rows_inv a.
Proof.
  intros Hs Hnd.
  destruct (findDuplicates_total _ Hs ds) as (a & Hrun & _).
  exists a. split; [done|].
  apply (rows_inv_run _ Hs ds [] agg0 a agg_inv_init Hnd); [|done].
  split; [constructor|]. intros h head second rest. simpl.
  by rewrite lookup_empty.
Qed.

Lemma every_duplicate_group_has_its_row_witness :
  ∃ a, findDuplicates insertionSort [tie_first; tie_second; older_third] agg0
         = Ok a ∧
       rows_inv a ∧
       right a = [mkItem "/d/a" "/d/b" 33; mkItem "/d/c" "/d/a (+1 more)" 34].
Proof.
  destruct (every_duplicate_group_has_its_row insertionSort
              [tie_first; tie_second; older_third] insertionSort_ok)
    as (a & Hrun & Hrows).
  { apply (bool_decide_unpack _). vm_compute. exact I. }
  exists a. split; [exact Hrun|]. split; [exact Hrows|].
  vm_compute in Hrun. injection Hrun as <-. reflexivity.
Defined.

(** ** The key of a group and the hash of its members *)

Lemma unhex_byte b :
  byte_of_Z (16 * hex_val (hex_digit (byte_val b / 16)) +
             hex_val (hex_digit (byte_val b mod 16))) = b.
Proof. destruct b; vm_compute; reflexivity. Qed.

Lemma unhex_Sprintf_x bs : unhex (Sprintf_x bs) = bs.
Proof.
  induction bs as [|b bs IH]; [done|].
  cbn [Sprintf_x unhex]. by rewrite unhex_byte, IH.
Qed.

Lemma key_inj d1 d2 : key d1 = key d2 ↔ fd_hash d1 = fd_hash d2.
Proof.
  unfold key. split; [|by intros ->].
  intros H. by rewrite <- (unhex_Sprintf_x (fd_hash d1)), H, unhex_Sprintf_x.
Qed.

(** X5: the hexadecimal key loses nothing of the hash: once the loop has
    taken in a stream, two of its records are members of one group if and
    only if their hashes are the same bytes. *)
Theorem same_group_iff_same_hash sort_Slice ds d1 d2 :
  SortSliceSpec sort_Slice →
  d1 ∈ ds → d2 ∈ ds →
  ∃ a, findDuplicates sort_Slice ds agg0 = Ok a ∧
       ((∃ h l, duplicates a !! h = Some l ∧ d1 ∈ l ∧ d2 ∈ l) ↔
        fd_hash d1 = fd_hash d2).
Proof.
  intros Hs H1 H2.
  destruct (findDuplicates_total _ Hs ds) as (a & Hrun & Hreg & _).
  exists a. split; [done|]. rewrite <- key_inj. split.
  - intros (h & l & Hl & Hd1 & Hd2).
    pose proof (Hreg h) as Hh. rewrite Hl in Hh. destruct Hh as [_ Hperm].
    rewrite Hperm in Hd1, Hd2.
    apply arrivals_elem in Hd1 as [_ ->]. by apply arrivals_elem in Hd2 as [_ ?].
  - intros Hkey. pose proof (Hreg (key d1)) as Hh.
    assert (d1 ∈ arrivals (key d1) ds) as Ha1
      by (by apply list_elem_of_filter).
    assert (d2 ∈ arrivals (key d1) ds) as Ha2
      by (by apply list_elem_of_filter).
    destruct (duplicates a !! key d1) as [l|] eqn:E.
    + destruct Hh as [_ Hperm]. exists (key d1), l.
      split; [done|]. split; by rewrite Hperm.
    + rewrite Hh in Ha1. by apply elem_of_nil in Ha1.
Qed.

Lemma same_group_iff_same_hash_witness :
  ∃ a, findDuplicates insertionSort [rec_five; tie_first; tie_second] agg0
         = Ok a ∧
       ((∃ h l, duplicates a !! h = Some l ∧ tie_first ∈ l ∧ tie_second ∈ l) ↔
        fd_hash tie_first = fd_hash tie_second).
Proof.
  apply (same_group_iff_same_hash insertionSort
           [rec_five; tie_first; tie_second] tie_first tie_second
           insertionSort_ok).
  - right. left.
  - right. right. left.
Defined.

(** ** The listing and the registry *)

Lemma group_duplicates_sublist kv :
  group_duplicates kv `sublist_of` fd_path <$> kv.2.
Proof.
  unfold group_duplicates. case_bool_decide; [apply sublist_nil_l|].
  apply fmap_sublist, sublist_drop.
Qed.

Lemma listing_sublist (L : list (string * list tFileData)) :
  L ≫= group_duplicates `sublist_of` fd_path <$> (L ≫= snd).
Proof.
  induction L as [|kv L IH]; [done|].
  rewrite !bind_cons, fmap_app.
  apply sublist_app; [apply group_duplicates_sublist | done].
Qed.

Lemma listing_length (L : list (string * list tFileData)) :
  Z.of_nat (length (L ≫= group_duplicates)) =
  Zsum ((λ kv, Z.max 0 (Z.of_nat (length kv.2) - 1)) <$> L).
Proof.
  unfold Zsum. induction L as [|[h l] L IH]; [done|].
  rewrite bind_cons, length_app, fmap_cons, Nat2Z.inj_add, IH. simpl.
  f_equal. unfold group_duplicates. simpl.
  case_bool_decide; simpl; [lia|]. rewrite length_fmap, length_drop. lia.
Qed.

(** X6: however the map is ranged over, the listing holds the same paths
    as often, and there are as many of them as the sum over the groups of
    max(0, members - 1); after the loop has taken in a stream, that is
    what the counter of duplicates reads, as a [uint32]. *)
Theorem listing_length_is_duplicates sort_Slice ds :
  SortSliceSpec sort_Slice →
  ∃ a, findDuplicates sort_Slice ds agg0 = Ok a ∧
       ∀ order, range_order (duplicates a) order →
         listDuplicates_in order ≡ₚ
           listDuplicates_in (map_to_list (duplicates a)) ∧
         Z.of_nat (length (listDuplicates_in order)) =
           duplicateCount_of (duplicates a) ∧
         st_duplicates (stats a) =
           uint32 (Z.of_nat (length (listDuplicates_in order))).
Proof.
  intros Hs.
  destruct (findDuplicates_total _ Hs ds) as (a & Hrun & _ & _ & Hc & _).
  exists a. split; [done|]. intros order Hord. unfold range_order in Hord.
  assert (Z.of_nat (length (listDuplicates_in order)) =
            duplicateCount_of (duplicates a)) as Hlen.
  { rewrite listDuplicates_in_flat, listing_length.
    unfold duplicateCount_of, sum_groups. apply Zsum_perm. by rewrite Hord. }
  split; [|split; [done|by rewrite Hlen]].
  rewrite !listDuplicates_in_flat. by rewrite Hord.
Qed.

Lemma listing_length_is_duplicates_witness :
  ∃ a, findDuplicates insertionSort four_alike agg0 = Ok a ∧
       ∀ order, range_order (duplicates a) order →
         listDuplicates_in order ≡ₚ
           listDuplicates_in (map_to_list (duplicates a)) ∧
         Z.of_nat (length (listDuplicates_in order)) =
           duplicateCount_of (duplicates a) ∧
         st_duplicates (stats a) =
           uint32 (Z.of_nat (length (listDuplicates_in order))).
Proof.
  exact (listing_length_is_duplicates insertionSort four_alike
           insertionSort_ok).
Defined.

Section Listing.

Variable sort_Slice :
  (tFileData → tFileData → bool) → list tFileData → list tFileData.
Hypothesis sort_ok : SortSliceSpec sort_Slice.

Lemma listing_of_distinct_paths ds a order :
  NoDup (fd_path <$> ds) →
  findDuplicates sort_Slice ds agg0 = Ok a →
  range_order (duplicates a) order →
  NoDup (listDuplicates_in order) ∧
  ∀ h head rest, duplicates a !! h = Some (head :: rest) →
    (fd_path head ∉ listDuplicates_in order) ∧
    ∀ d, d ∈ rest → fd_path d ∈ listDuplicates_in order.
Proof.
  intros Hnd Hrun Hord.
  destruct (findDuplicates_total _ sort_ok ds) as (a' & Hrun' & Hreg & _).
  rewrite Hrun in Hrun'. injection Hrun' as <-.
  pose proof (findDuplicates_members _ sort_ok ds [] agg0 a agg_inv_init Hrun)
    as Hm.
  assert (all_members (duplicates a) ≡ₚ ds) as Hperm.
  { apply Hm. unfold all_members. simpl. by rewrite map_to_list_empty. }
  assert (∀ h l d, duplicates a !! h = Some l → d ∈ l →
                   d ∈ ds ∧ key d = h) as Hmember.
  { intros h l d Hl Hd. pose proof (Hreg h) as Hh. rewrite Hl in Hh.
    destruct Hh as [_ Hp]. rewrite Hp in Hd. by apply arrivals_elem. }
  split.
  - rewrite listDuplicates_in_flat. unfold range_order in Hord.
    rewrite Hord. eapply sublist_NoDup; [|apply listing_sublist].
    fold (all_members (duplicates a)). by rewrite Hperm.
  - intros h head rest Hl. split.
    + rewrite (listDuplicates_in_spec _ _ _ Hord).
      intros (h' & l' & i & d & Hl' & _ & Hi & Hpath).
      assert (d ∈ l') as Hd by (apply list_elem_of_lookup; eauto).
      destruct (Hmember _ _ _ Hl' Hd) as [Hdin Hdk].
      destruct (Hmember _ _ head Hl) as [Hhin Hhk]; [left|].
      assert (d = head) as ->
        by (by apply (same_path_same_record ds)).
      assert (h' = h) as -> by congruence.
      rewrite Hl in Hl'. injection Hl' as <-. simpl in Hi.
      assert (NoDup (head :: rest)) as Hndl.
      { pose proof (Hreg h) as Hh. rewrite Hl in Hh. destruct Hh as [_ Hp].
        rewrite Hp. apply NoDup_filter. by apply NoDup_fmap_1 in Hnd. }
      apply NoDup_cons in Hndl as [Hnot _]. apply Hnot.
      apply list_elem_of_lookup. eauto.
    + intros d Hd. apply (listDuplicates_in_spec _ _ _ Hord).
      apply list_elem_of_lookup in Hd as [i Hi].
      exists h, (head :: rest), i, d. repeat split; [done| |done].
      destruct rest; [done|simpl; lia].
Qed.

End Listing.

(** X7: when the records of a stream have pairwise distinct paths, the
    listing taken after the loop names no path twice, names every member
    of a group behind its first, and never names the first, the canonical
    member. *)
Theorem listing_spares_canonical sort_Slice ds :
  SortSliceSpec sort_Slice →
  NoDup (fd_path <$> ds) →
  ∃ a, findDuplicates sort_Slice ds agg0 = Ok a ∧
       ∀ order, range_order (duplicates a) order →
         NoDup (listDuplicates_in order) ∧
         ∀ h head rest, duplicates a !! h = Some (head :: rest) →
           (fd_path head ∉ listDuplicates_in order) ∧
           ∀ d, d ∈ rest → fd_path d ∈ listDuplicates_in order.
Proof.
  intros Hs Hnd.
  destruct (findDuplicates_total _ Hs ds) as (a & Hrun & _).
  exists a. split; [done|]. intros order Hord.
  by apply (listing_of_distinct_paths _ Hs ds).
Qed.

Lemma listing_spares_canonical_witness :
  ∃ a, findDuplicates insertionSort four_alike agg0 = Ok a ∧
       ∀ order, range_order (duplicates a) order →
         NoDup (listDuplicates_in order) ∧
         ∀ h head rest, duplicates a !! h = Some (head :: rest) →
           (fd_path head ∉ listDuplicates_in order) ∧
           ∀ d, d ∈ rest → fd_path d ∈ listDuplicates_in order.
Proof.
  apply (listing_spares_canonical insertionSort four_alike insertionSort_ok).
  apply (bool_decide_unpack _). vm_compute. exact I.
Defined.

(** X8: when the records have pairwise distinct paths and every listed
    file can be removed, Delete returns, logs the number of listed files,
    leaves the canonical file of every group as it was and leaves no
    other member of any group. *)
Theorem delete_keeps_one_file_per_group sort_Slice ds o a order :
  SortSliceSpec sort_Slice →
  NoDup (fd_path <$> ds) →
  findDuplicates sort_Slice ds agg0 = Ok a →
  range_order (duplicates a) order →
  Forall (removable o) (listDuplicates_in order) →
  ∃ o', deleteDuplicates o order =
          (o', Ok (Z.of_nat (length (listDuplicates_in order)))) ∧
        ∀ h head rest, duplicates a !! h = Some (head :: rest) →
          os_files o' !! fd_path head = os_files o !! fd_path head ∧
          ∀ d, d ∈ rest → os_files o' !! fd_path d = None.
Proof.
  intros Hs Hnd Hrun Hord Hall.
  destruct (listing_of_distinct_paths _ Hs ds a order Hnd Hrun Hord)
    as [Hndl Hgroups].
  destruct (remove_each_all o (listDuplicates_in order) 0 Hndl Hall)
    as (o' & Hdel & Hfiles & _).
  exists o'. split; [done|]. intros h head rest Hl.
  destruct (Hgroups h head rest Hl) as [Hhead Hrest]. split.
  - rewrite Hfiles. by rewrite decide_False.
  - intros d Hd. rewrite Hfiles. by rewrite decide_True by auto.
Qed.

Lemma delete_keeps_one_file_per_group_witness :
  ∃ a o',
    findDuplicates insertionSort apart_records agg0 = Ok a ∧
    deleteDuplicates os_apart (map_to_list (duplicates a)) =
      (o', Ok (Z.of_nat (length
                 (listDuplicates_in (map_to_list (duplicates a)))))) ∧
    ∀ h head rest, duplicates a !! h = Some (head :: rest) →
      os_files o' !! fd_path head = os_files os_apart !! fd_path head ∧
      ∀ d, d ∈ rest → os_files o' !! fd_path d = None.
Proof.
  eexists. 
  match goal with
  | |- ∃ o', ?run = Ok ?a ∧ _ =>
      assert (run = Ok a) as Hrun by (vm_compute; reflexivity)
  end.
  match type of Hrun with
  | _ = Ok ?a =>
      destruct (delete_keeps_one_file_per_group insertionSort apart_records
                  os_apart a (map_to_list (duplicates a)) insertionSort_ok)
        as (o' & Hdel & Hkeep)
  end.
  - apply (bool_decide_unpack _). vm_compute. exact I.
  - exact Hrun.
  - unfold range_order. reflexivity.
  - replace (listDuplicates_in _) with ["/s/x/a"; "/s/y/b"]%string
      by (vm_compute; reflexivity).
    repeat constructor; try apply not_elem_of_empty; vm_compute; eauto.
  - exists o'. split; [exact Hrun|]. split; [exact Hdel|exact Hkeep].
Defined.

(** ** Move and Export when something fails *)

Lemma ensureTargetDir_fails o dir :
  ¬ creatable o dir → ∃ msg, ensureTargetDir o dir = (o, Panic msg).
Proof.
  intros Hn. unfold ensureTargetDir, os_MkdirAll.
  destruct (decide (dir ∈ os_dirs o)) as [Hin|Hnin]; [destruct Hn; by left|].
  destruct (decide (dir ∈ os_denied o)); [simpl; eauto|].
  destruct (decide (is_Some (os_files o !! dir))) as [Hf|Hf]; [simpl; eauto|].
  destruct Hn. right. split; [done|]. by apply eq_None_not_Some.
Qed.

(** X9: when the destination directory is not there and cannot be made
    (the system refuses, or a file has its name), Move and Export panic
    and leave the system as it was: no file is renamed and no manifest is
    created. *)
Theorem no_target_no_action o targetDir order :
  ¬ creatable o targetDir →
  ∃ msg, moveDuplicates o targetDir order = (o, Panic msg) ∧
         exportDuplicates o targetDir order = (o, Panic msg).
Proof.
  intros Hn. destruct (ensureTargetDir_fails o targetDir Hn) as [msg H].
  exists msg. unfold moveDuplicates, exportDuplicates. by rewrite H.
Qed.

Lemma no_target_no_action_witness :
  ∃ msg,
    moveDuplicates os_apart "/s/k" [("k", four_alike)] =
      (os_apart, Panic msg) ∧
    exportDuplicates os_apart "/s/k" [("k", four_alike)] =
      (os_apart, Panic msg).
Proof.
  apply (no_target_no_action os_apart "/s/k" [("k"%string, four_alike)]).
  intros [Hdir|[_ Hfile]].
  - by apply elem_of_empty in Hdir.
  - vm_compute in Hfile. discriminate.
Defined.





(** ** Export, twice *)






(** ** The pipeline: bounds *)

Lemma step_bounds_inv sort_Slice o p p' :
  step sort_Slice o p p' → bounds_inv p → bounds_inv p'.
Proof.
  unfold bounds_inv.
  destruct 1; simpl; intros (Hfc & Hcc & Hws);
    rewrite ?length_app, ?length_insert; simpl in *;
    repeat split; lia.
Qed.

(** X12: in every state the pipeline can reach, [fileChannel] holds at
    most 200 records and [checksumChannel] at most 100, however far the
    walker is ahead of the workers and the workers of the aggregator. *)
Theorem channels_stay_bounded sort_Slice o w p :
  reachable sort_Slice o w p →
  (length (fileChannel p) ≤ 200)%nat ∧ (length (checksumChannel p) ≤ 100)%nat.
Proof.
  intros Hreach. enough (bounds_inv p) as (? & ? & _) by done.
  revert p Hreach. apply rtc_ind_r.
  - unfold bounds_inv. simpl. lia.
  - intros q p _ Hstep Hq. by apply (step_bounds_inv _ _ _ _ Hstep).
Qed.

Lemma channels_stay_bounded_witness :
  (length (fileChannel early_flag) ≤ 200)%nat ∧
  (length (checksumChannel early_flag) ≤ 100)%nat.
Proof.
  apply (channels_stay_bounded insertionSort os_mixed
           ([mixed_a; mixed_b], None) early_flag).
  apply early_flag_reachable.
Defined.

(** ** The pipeline can run to its end *)

Lemma findDuplicates_complted sort_Slice ds :
  ∀ a a', findDuplicates sort_Slice ds a = Ok a' →
          st_complted (stats a') = st_complted (stats a).
Proof.
  induction ds as [|d ds IH]; intros a a'; simpl; [by intros [= <-]|].
  destruct (findDuplicates_body sort_Slice a d) as [a1|] eqn:E; [|done].
  simpl. intros Hrun. rewrite (IH _ _ Hrun).
  by apply findDuplicates_body_scanned in E as (_ & _ & ?).
Qed.

Lemma one_at_a_time sort_Slice o ds :
  ∀ a a' rep sh,
    Forall (λ d, readable o (fd_path d)) ds →
    findDuplicates sort_Slice (fingerprint_of o <$> ds) a = Ok a' →
    rtc (step sort_Slice o)
      (mkPipe (ds, None) [] [None; None] [] a rep sh None)
      (mkPipe ([], None) [] [None; None] [] a' rep sh None).
Proof.
  induction ds as [|d ds IH]; intros a a' rep sh Hall; simpl.
  - intros [= <-]. apply rtc_refl.
  - apply Forall_cons in Hall as [Hd Hall].
    destruct (findDuplicates_body sort_Slice a (fingerprint_of o d))
      as [a1|] eqn:E; [|done].
    simpl. intros Hrun.
    destruct (checksum_of_readable o d Hd) as [n Hck].
    eapply rtc_l; [by apply step_walk_send; simpl; lia|]. simpl.
    eapply rtc_l;
      [by apply (step_worker_take _ _ 0 d (fd_hash (fingerprint_of o d)) n)|].
    simpl.
    eapply rtc_l;
      [apply (step_worker_put _ _ 0 (fingerprint_of o d));
         [done | simpl; lia]|].
    simpl.
    eapply rtc_l; [by apply step_aggregate|].
    by apply IH.
Qed.

(** X16: when every file the walker sends can be opened and read, the
    pipeline can run to its end: working off one record after the other
    is one of its executions, and it ends with the queues empty, the
    workers idle, the flag up and the registry and counters that the loop
    computes from the fingerprinted records in the walker's order. *)
Theorem pipeline_can_complete sort_Slice o ds :
  SortSliceSpec sort_Slice →
  Forall (λ d, readable o (fd_path d)) ds →
  ∃ a, findDuplicates sort_Slice (fingerprint_of o <$> ds) agg0 = Ok a ∧
       reachable sort_Slice o (ds, None)
         (mkPipe ([], None) [] [None; None] [] (set_complted a) true [] None).
Proof.
  intros Hs Hall.
  destruct (findDuplicates_total _ Hs (fingerprint_of o <$> ds))
    as (a & Hrun & _).
  exists a. split; [done|]. unfold reachable, pipeline0.
  eapply rtc_r; [by apply one_at_a_time|].
  apply step_scan_done. by rewrite (findDuplicates_complted _ _ _ _ Hrun).
Qed.

Lemma pipeline_can_complete_witness :
  ∃ a, findDuplicates insertionSort
         (fingerprint_of os_mixed <$> [mixed_a; mixed_b]) agg0 = Ok a ∧
       reachable insertionSort os_mixed ([mixed_a; mixed_b], None)
         (mkPipe ([], None) [] [None; None] [] (set_complted a) true [] None).
Proof.
  apply (pipeline_can_complete insertionSort os_mixed [mixed_a; mixed_b]
           insertionSort_ok).
  repeat constructor; try apply not_elem_of_empty; vm_compute; eauto.
Defined.

(** ** The buffer of [checksum] *)

(** X17: the hash that [checksum] returns for a readable file does not
    depend on how the copy hands the file to the hasher: whatever the
    pieces, writing them one after the other leaves the hasher with the
    CRC-32 of the whole file. *)
Theorem checksum_whatever_the_pieces o file content pieces :
  os_files o !! file = Some content →
  file ∉ os_unreadable o → file ∉ os_ioerr o →
  concat pieces = content →
  checksum o file =
    Ok (crc32_Sum (fold_left simpleUpdate pieces 0),
        Z.of_nat (length content)).
Proof.
  intros Hf Hu Hi <-. rewrite (checksum_readable _ _ _ Hf Hu Hi).
  by rewrite digest_of_pieces.
Qed.

Lemma checksum_whatever_the_pieces_witness :
  checksum os_collision "/d/new" =
    Ok (crc32_Sum (fold_left simpleUpdate
                     [byte_of_Z <$> [98; 99]; []; byte_of_Z <$> [56; 43; 169];
                      byte_of_Z <$> [194]] 0),
        Z.of_nat (length content_six)).
Proof.
  apply (checksum_whatever_the_pieces os_collision "/d/new" content_six).
  - vm_compute. reflexivity.
  - apply not_elem_of_empty.
  - apply not_elem_of_empty.
  - reflexivity.
Defined.

(** * The pipeline, move by move *)

(** ** What is kept from move to move *)

Local Ltac push_fmap :=
  repeat first [rewrite fmap_app | rewrite fmap_cons | rewrite fmap_nil].

Lemma hold_insert (ws : list workerAt) (i : nat) x y :
  ws !! i = Some x →
  (<[i := y]> ws ≫= hold) ++ hold x ≡ₚ hold y ++ (ws ≫= hold).
Proof.
  revert i. induction ws as [|z ws IH]; intros [|i]; simpl; try done.
  - intros [= ->]. solve_Permutation.
  - intros Hi. rewrite <- app_assoc, (IH _ Hi). solve_Permutation.
Qed.

Lemma others_receive (ws : list workerAt) (i : nat) data
    (fc cc todo : list tFileData) :
  ws !! i = Some WIdle →
  fd_path <$> ((data :: fc) ++ (ws ≫= hold) ++ cc) ++ todo
    ≡ₚ fd_path <$> (fc ++ (<[i := WGot data]> ws ≫= hold) ++ cc) ++ todo.
Proof.
  intros Hi. pose proof (hold_insert _ _ _ (WGot data) Hi) as Hh.
  simpl in Hh. rewrite app_nil_r in Hh. rewrite Hh.
  push_fmap. solve_Permutation.
Qed.

Lemma others_checksum (ws : list workerAt) (i : nat) data h
    (fc cc todo : list tFileData) :
  ws !! i = Some (WGot data) →
  fd_path <$> (fc ++ (ws ≫= hold) ++ cc) ++ todo
    ≡ₚ fd_path <$>
         (fc ++ (<[i := WReady (set_hash data h)]> ws ≫= hold) ++ cc) ++ todo.
Proof.
  intros Hi.
  pose proof (hold_insert _ _ _ (WReady (set_hash data h)) Hi) as Hh.
  simpl in Hh.
  apply (fmap_Permutation fd_path) in Hh. rewrite fmap_app in Hh.
  simpl in Hh. symmetry in Hh. apply Permutation_cons_app_inv in Hh.
  rewrite app_nil_r in Hh.
  push_fmap. by rewrite <- Hh.
Qed.

Lemma others_send (ws : list workerAt) (i : nat) data
    (fc cc todo : list tFileData) :
  ws !! i = Some (WReady data) →
  fd_path <$> (fc ++ (ws ≫= hold) ++ cc) ++ todo
    ≡ₚ fd_path <$> (fc ++ (<[i := WIdle]> ws ≫= hold) ++ cc ++ [data]) ++ todo.
Proof.
  intros Hi. pose proof (hold_insert _ _ _ WIdle Hi) as Hh.
  simpl in Hh. rewrite <- Hh.
  push_fmap. solve_Permutation.
Qed.

Lemma fine_inv_on_others sort_Slice all others others' m n a c :
  others ≡ₚ others' →
  fine_inv_on sort_Slice all others m n a c →
  fine_inv_on sort_Slice all others' m n a c.
Proof.
  intros Hp (ds & ? & ? & ? & ? & ? & Hall).
  exists ds. repeat (split; [done|]). by rewrite <- Hp.
Qed.

Lemma fine_inv_on_crashed sort_Slice all others m n a c msg :
  fine_inv_on sort_Slice all others m n a c →
  fine_inv_on sort_Slice all others m n a (Some msg).
Proof.
  intros (ds & ? & ? & ? & ? & ? & Hall).
  exists ds. by repeat (split; [done|]).
Qed.

Local Ltac fine_simpl :=
  cbn [f_walker f_fileChannel f_workers f_checksumChannel f_duplicates
       f_stats f_right f_agg f_rep f_shown f_crashed
       upd_walker upd_fileChannel upd_workers upd_checksumChannel
       upd_duplicates upd_stats upd_right upd_agg upd_rep upd_shown
       upd_crashed count_up size_up duplicates_up duplicateSize_up
       seconds_up complted_up
       st_seconds st_count st_size st_duplicates st_duplicateSize
       st_complted fst snd] in *.

Local Ltac fine_place :=
  repeat match goal with
         | H : f_agg _ = _ |- _ => rewrite H; clear H
         | H : f_rep _ = _ |- _ => rewrite H; clear H
         | H : f_walker _ = _ |- _ => rewrite H; clear H
         | H : f_fileChannel _ = _ |- _ => rewrite H; clear H
         | H : f_checksumChannel _ = _ |- _ => rewrite H; clear H
         | H : f_crashed _ = None |- _ => rewrite H; clear H
         end.

Section FineFacts.

Variable sort_Slice :
  (tFileData → tFileData → bool) → list tFileData → list tFileData.
Hypothesis sort_ok : SortSliceSpec sort_Slice.
Variable o : osState.
Variable w : sent.

(** Storing the slice at line 247 is what one round of the loop does to
    the committed registry. *)
Lemma store_as_in_the_loop ds c d m' n :
  registry_inv ds (mkAgg c stats0 []) →
  groups_sorted (mkAgg c stats0 []) →
  all_members c ≡ₚ ds →
  (∀ a', findDuplicates_body sort_Slice
           (mkAgg c (mkStats 0 0 0 (uint32 (duplicateCount_of c)) 0 false) [])
           d = Ok a' →
         duplicates a' = m' ∧ st_duplicates (stats a') = n) →
  registry_inv (ds ++ [d]) (mkAgg m' stats0 []) ∧
  groups_sorted (mkAgg m' stats0 []) ∧
  all_members m' ≡ₚ ds ++ [d] ∧
  n = uint32 (duplicateCount_of m').
Proof.
  intros Hreg Hso Hm Hbody.
  set (a0 := mkAgg c (mkStats 0 0 0 (uint32 (duplicateCount_of c)) 0 false)
               []) in *.
  destruct (findDuplicates_body_step _ sort_ok ds a0 d Hreg)
    as (a' & Hrun & Hreg' & Hso' & Hc' & _ & _).
  destruct (Hbody a' Hrun) as [<- <-].
  split; [exact Hreg'|]. split; [exact (Hso' Hso)|]. split.
  - rewrite (findDuplicates_body_members _ sort_ok ds a0 d a' Hreg Hrun).
    simpl. by rewrite Hm.
  - by apply Hc'.
Qed.

Lemma fstep_fine_inv p p' :
  fstep sort_Slice o p p' → fine_inv sort_Slice w p → fine_inv sort_Slice w p'.
Proof.
  unfold fine_inv, f_in_flight.
  destruct 1; fine_simpl; fine_place; fine_simpl; try done.
  all: try (by apply fine_inv_on_crashed).
  - (* the walker sends *)
    apply fine_inv_on_others. push_fmap. solve_Permutation.
  - (* a worker receives *)
    apply fine_inv_on_others. by apply others_receive.
  - (* a worker has the hash *)
    apply fine_inv_on_others. by apply others_checksum.
  - (* a worker sends *)
    apply fine_inv_on_others. by apply others_send.
  - (* the aggregator receives *)
    intros (ds & Hreg & Hso & Hm & Hcnt & _ & Hall).
    exists ds. repeat (split; [done|]). intros _.
    rewrite <- (Hall eq_refl). simpl. push_fmap. solve_Permutation.
  - (* found *)
    intros (ds & Hreg & Hso & Hm & Hcnt & _ & Hall).
    exists ds. simpl in *.
    match goal with H : _ !! key d = Some _ |- _ =>
      rewrite (insert_id _ _ _ H); rename H into Hl end.
    repeat (split; [done|]). split; [|done]. by exists list0.
  - (* not found *)
    intros (ds & Hreg & Hso & Hm & Hcnt & _ & Hall).
    exists ds. by repeat (split; [done|]).
  - (* an exchange of the sort *)
    intros (ds & Hreg & Hso & Hm & Hcnt & (v & Hv & Hlen) & Hall).
    exists ds. simpl in *. rewrite insert_insert_eq.
    repeat (split; [done|]). split; [|done].
    eexists. split; [apply lookup_insert_eq|done].
  - (* the sort is over *)
    intros (ds & Hreg & Hso & Hm & Hcnt & (v & Hv & Hlen) & Hall).
    exists ds. simpl in *.
    pose proof (sort_Slice_perm _ sort_ok less_modified (list0 ++ [d])) as Hp.
    apply Permutation_length in Hp. rewrite length_app in Hp. simpl in Hp.
    destruct shared.
    + rewrite insert_insert_eq. repeat (split; [done|]). split; [|done].
      split; [|done]. eexists. split; [apply lookup_insert_eq|].
      rewrite length_take. lia.
    + repeat (split; [done|]). split; [|done]. split; [|done]. by exists v.
  - (* the counter of duplicates goes up *)
    intros (ds & Hreg & Hso & Hm & Hcnt & Hpl & Hall).
    exists ds. simpl in *. repeat (split; [done|]). split; [|done].
    rewrite Hcnt, Z.add_0_r. apply uint32_succ.
  - (* the joined group is stored *)
    intros (ds & Hreg & Hso & Hm & Hcnt & ((v & Hv & Hlen) & ->) & Hall).
    simpl in *.
    assert (list0 ≠ []) as Hne.
    { pose proof (Hreg (key d)) as Hk. simpl in Hk.
      rewrite lookup_insert_eq in Hk. by destruct Hk. }
    destruct (store_as_in_the_loop ds (<[key d := list0]> (f_duplicates p)) d
                (<[key d := sort_Slice less_modified (list0 ++ [d])]>
                   (f_duplicates p))
                (uint32 (uint32 (duplicateCount_of
                                   (<[key d := list0]> (f_duplicates p))) + 1))
                Hreg Hso Hm)
      as (Hreg' & Hso' & Hm' & Hc').
    { intros a'.
      destruct (findDuplicates_body_join _ sort_ok
                  (mkAgg (<[key d := list0]> (f_duplicates p))
                     (mkStats 0 0 0
                        (uint32 (duplicateCount_of
                                   (<[key d := list0]> (f_duplicates p))))
                        0 false) [])
                  d list0) as (x & y & r & right1 & Hsort & ->);
        [apply lookup_insert_eq | done |].
      intros [= <-]. simpl. rewrite insert_insert_eq, Hsort. done. }
    exists (ds ++ [d]). simpl. repeat (split; [done|]). split.
    + rewrite Hcnt, Z.add_0_r, <- Hc'. symmetry. apply uint32_succ.
    + split; [done|]. intros _. rewrite <- (Hall eq_refl). simpl.
      push_fmap. solve_Permutation.
  - (* the new group is stored *)
    intros (ds & Hreg & Hso & Hm & Hcnt & Hnone & Hall).
    simpl in *.
    destruct (store_as_in_the_loop ds (f_duplicates p) d
                (<[key d := [d]]> (f_duplicates p))
                (uint32 (duplicateCount_of (f_duplicates p)))
                Hreg Hso Hm)
      as (Hreg' & Hso' & Hm' & Hc').
    { intros a'. rewrite findDuplicates_body_new by done.
      by intros [= <-]. }
    exists (ds ++ [d]). simpl. repeat (split; [done|]). split.
    + rewrite Z.add_0_r, Hcnt, Z.add_0_r. exact Hc'.
    + split; [done|]. intros _. rewrite <- (Hall eq_refl). simpl.
      push_fmap. solve_Permutation.
Qed.

Lemma freachable_fine_inv p :
  freachable sort_Slice o w p → fine_inv sort_Slice w p.
Proof.
  revert p. apply rtc_ind_r.
  - exists []. unfold f_in_flight. simpl.
    split; [by intros h; simpl; rewrite lookup_empty|].
    split; [by intros h l; simpl; rewrite lookup_empty|].
    split; [unfold all_members; by rewrite map_to_list_empty|].
    split; [by rewrite Z.add_0_r; unfold duplicateCount_of;
            rewrite sum_groups_empty|].
    done.
  - intros q p _ Hstep Hq. by apply (fstep_fine_inv _ _ Hstep).
Qed.

End FineFacts.

Lemma committed_count a (m : gmap string (list tFileData)) sort_Slice :
  place_inv sort_Slice a m →
  duplicateCount_of (committed_of a m) = duplicateCount_of m.
Proof.
  assert (∀ d list0 v, m !! key d = Some v → length v = length list0 →
            duplicateCount_of (<[key d := list0]> m) = duplicateCount_of m)
    as Hover.
  { intros d list0 v Hv Hlen. unfold duplicateCount_of.
    rewrite (sum_groups_insert_over _ _ _ v) by done. rewrite Hlen. lia. }
  destruct a; simpl; try done.
  all: try (by intros (v & Hv & Hlen); apply (Hover _ _ v)).
  all: by intros [(v & Hv & Hlen) _]; apply (Hover _ _ v).
Qed.

Lemma committed_lookup a (m : gmap string (list tFileData)) h :
  (∀ d, d ∈ in_hand a → key d ≠ h) →
  committed_of a m !! h = m !! h.
Proof.
  intros Hh.
  destruct a; simpl; try done;
    apply lookup_insert_ne, Hh; simpl; apply list_elem_of_singleton; done.
Qed.

Lemma fstep_rep_inv sort_Slice o p p' :
  fstep sort_Slice o p p' → rep_inv p → rep_inv p'.
Proof.
  unfold rep_inv.
  destruct 1; fine_simpl; fine_place; fine_simpl; try done.
  - (* scan raises the flag *)
    destruct (f_rep p); simpl; try done.
    + intros (? & ? & ?). done.
    + intros (? & sh0 & t & ? & ? & ?). split; [done|]. by exists sh0, t.
    + intros (? & sh0 & t & ? & ? & ?). split; [done|]. by exists sh0, t.
  - (* the tick *)
    simpl. intros [-> Hall]. split; [|done].
    rewrite Nat2Z.inj_add. simpl. unfold uint64.
    by rewrite Zplus_mod_idemp_l.
  - (* the flag is read for the text *)
    simpl. intros [Hs Hall]. by repeat split.
  - (* the text is shown *)
    simpl. intros (-> & Hall & Hdone). split.
    + by rewrite length_app.
    + by exists (f_shown p), (mkReport done got).
  - (* the flag is read again, and is down *)
    simpl. intros (Hs & sh0 & t & Hsh & Hall & Hdone). rewrite Hsh in *.
    split; [done|].
    apply Forall_app. split; [done|]. apply Forall_singleton.
    destruct (shown_done t); [|done].
    match goal with H : st_complted _ = false |- _ =>
      rewrite (Hdone eq_refl) in H; discriminate end.
  - (* the flag is read again, and is up *)
    simpl. intros (Hs & sh0 & t & Hsh & Hall & Hdone). rewrite Hsh in *.
    split; [done|].
    by exists sh0, t.
Qed.

Lemma freachable_rep_inv sort_Slice o w p :
  freachable sort_Slice o w p → rep_inv p.
Proof.
  revert p. apply rtc_ind_r.
  - split; [done|constructor].
  - intros q p _ Hstep Hq. by apply (fstep_rep_inv _ _ _ _ Hstep).
Qed.

(** ** Two executions *)

Lemma counted_not_stored_reachable :
  freachable insertionSort os_mixed ([mixed_a; mixed_b], None)
    counted_not_stored.
Proof.
  assert (∀ d, d = mixed_a ∨ d = mixed_b →
            checksum os_mixed (fd_path d) =
              Ok (fd_hash (fingerprint_of os_mixed d), 1)) as Hck
    by (by intros d [-> | ->]; vm_compute).
  unfold freachable, fine0, counted_not_stored.
  eapply rtc_l; [by eapply fs_walk_send; fine_simpl; [..|simpl; lia]|].
  fine_simpl.
  eapply rtc_l; [by eapply fs_walk_send; fine_simpl; [..|simpl; lia]|].
  fine_simpl.
  eapply rtc_l; [by eapply (fs_worker_receive _ _ _ 0%nat)|]. fine_simpl.
  eapply rtc_l;
    [eapply (fs_worker_checksum _ _ _ 0%nat mixed_a);
       [done | done | apply Hck; by left]|].
  fine_simpl.
  eapply rtc_l;
    [eapply (fs_worker_send _ _ _ 0%nat); [done | done | simpl; lia]|].
  fine_simpl.
  eapply rtc_l; [by eapply (fs_worker_receive _ _ _ 1%nat)|]. fine_simpl.
  eapply rtc_l;
    [eapply (fs_worker_checksum _ _ _ 1%nat mixed_b);
       [done | done | apply Hck; by right]|].
  fine_simpl.
  eapply rtc_l;
    [eapply (fs_worker_send _ _ _ 1%nat); [done | done | simpl; lia]|].
  fine_simpl.
  eapply rtc_l; [by eapply fs_agg_receive|]. fine_simpl.
  eapply rtc_l; [by eapply fs_agg_count|]. fine_simpl.
  eapply rtc_l; [by eapply fs_agg_size|]. fine_simpl.
  eapply rtc_l; [by eapply fs_agg_fresh|]. fine_simpl.
  eapply rtc_l; [by eapply fs_agg_store_fresh|]. fine_simpl.
  eapply rtc_l; [by eapply fs_agg_receive|]. fine_simpl.
  eapply rtc_l; [by eapply fs_agg_count|]. fine_simpl.
  eapply rtc_l; [by eapply fs_agg_size|]. fine_simpl.
  eapply rtc_l;
    [eapply (fs_agg_found _ _ _ _ [fingerprint_of os_mixed mixed_a]);
       [done | done | by vm_compute]|].
  fine_simpl.
  eapply rtc_l; [by eapply (fs_agg_append _ _ _ _ _ false)|]. fine_simpl.
  eapply rtc_l; [by eapply fs_agg_sorted|]. fine_simpl.
  eapply rtc_l; [by eapply fs_agg_duplicates|]. fine_simpl.
  apply rtc_refl.
Qed.

Lemma stopped_after_no_reachable sort_Slice o :
  freachable sort_Slice o ([], None) stopped_after_no.
Proof.
  unfold freachable, fine0, stopped_after_no.
  eapply rtc_l; [by eapply fs_rep_tick|]. fine_simpl.
  eapply rtc_l; [by eapply fs_rep_done|]. fine_simpl.
  eapply rtc_l; [by eapply (fs_rep_read _ _ _ _ _ [])|]. fine_simpl.
  eapply rtc_l; [by eapply fs_rep_next|]. fine_simpl.
  do 2 (eapply rtc_l; [by eapply (fs_rep_read _ _ _ _ _ [])|]; fine_simpl).
  eapply rtc_l; [by eapply fs_rep_next|]. fine_simpl.
  do 5 (eapply rtc_l; [by eapply (fs_rep_read _ _ _ _ _ [])|]; fine_simpl).
  eapply rtc_l; [by eapply fs_rep_show|]. fine_simpl.
  eapply rtc_l; [by eapply fs_scan_done|]. fine_simpl.
  eapply rtc_l; [by eapply fs_rep_break|]. fine_simpl.
  apply rtc_refl.
Qed.

(** ** Nothing lost on the way *)

(** X13: in every state the pipeline can reach move by move without a
    panic, every file the walker has to send is in exactly one place: it
    is still to be sent, or in [fileChannel], or held by a worker, or in
    [checksumChannel], or in the hand of the aggregator between the
    receive of line 213 and the store of line 247, or a member of a group
    of the registry as the aggregator last left it. When the aggregator
    is at line 213 that registry is the map itself. *)
Theorem no_file_lost_between_stages sort_Slice o w p :
  SortSliceSpec sort_Slice →
  freachable sort_Slice o w p →
  f_crashed p = None →
  fd_path <$> (all_members (committed p) ++ in_hand (f_agg p) ++
               f_in_flight p ++ (f_walker p).1)
    ≡ₚ fd_path <$> w.1 ∧
  (f_agg p = AWait →
   fd_path <$> (all_members (f_duplicates p) ++ f_in_flight p ++
                (f_walker p).1)
     ≡ₚ fd_path <$> w.1).
Proof.
  intros Hs Hreach Hc.
  destruct (freachable_fine_inv _ Hs _ _ _ Hreach)
    as (ds & _ & _ & Hm & _ & _ & Hall).
  assert (fd_path <$> (all_members (committed p) ++ in_hand (f_agg p) ++
                       f_in_flight p ++ (f_walker p).1)
            ≡ₚ fd_path <$> w.1) as Hgen.
  { rewrite <- (Hall Hc). unfold committed. by rewrite !fmap_app, Hm. }
  split; [done|]. intros Ha. unfold committed in Hgen.
  by rewrite Ha in Hgen.
Qed.

Lemma no_file_lost_between_stages_witness :
  fd_path <$> (all_members (committed counted_not_stored) ++
               in_hand (f_agg counted_not_stored) ++
               f_in_flight counted_not_stored ++
               (f_walker counted_not_stored).1)
    ≡ₚ fd_path <$> ([mixed_a; mixed_b], @None string).1 ∧
  (f_agg counted_not_stored = AWait →
   fd_path <$> (all_members (f_duplicates counted_not_stored) ++
                f_in_flight counted_not_stored ++
                (f_walker counted_not_stored).1)
     ≡ₚ fd_path <$> ([mixed_a; mixed_b], @None string).1).
Proof.
  apply (no_file_lost_between_stages insertionSort os_mixed
           ([mixed_a; mixed_b], None) counted_not_stored insertionSort_ok).
  - apply counted_not_stored_reachable.
  - reflexivity.
Defined.

(** ** The counter of duplicates and the map *)

(** X14: the counter of duplicates is raised at line 224 and the map is
    given the longer slice at line 247. In every state the pipeline can
    reach move by move, [stats.duplicates] is the sum over the groups of
    the map of max(0, members - 1), as a [uint32], when the aggregator
    is outside these lines, and that sum and one when it is between
    them. No group of the map is ever empty, and every group other than
    the one the aggregator has in its hand is in non-decreasing order of
    modification time. *)
Theorem duplicates_counter_at_most_one_ahead sort_Slice o w p :
  SortSliceSpec sort_Slice →
  freachable sort_Slice o w p →
  st_duplicates (f_stats p) =
    uint32 (duplicateCount_of (f_duplicates p) + ahead (f_agg p)) ∧
  ∀ h l, f_duplicates p !! h = Some l →
    l ≠ [] ∧
    ((∀ d, d ∈ in_hand (f_agg p) → key d ≠ h) →
     StronglySorted by_modified l).
Proof.
  intros Hs Hreach.
  destruct (freachable_fine_inv _ Hs _ _ _ Hreach)
    as (ds & Hreg & Hso & _ & Hcnt & Hpl & _).
  split; [by rewrite Hcnt, (committed_count _ _ _ Hpl)|].
  intros h l Hl. split.
  - assert (∀ d list0 v,
              f_duplicates p !! key d = Some v → length v = length list0 →
              committed_of (f_agg p) (f_duplicates p)
                = <[key d := list0]> (f_duplicates p) →
              l ≠ []) as Hover.
    { intros d list0 v Hv Hlen Hcom. rewrite Hcom in Hreg.
      destruct (decide (key d = h)) as [<-|Hne].
      - pose proof (Hreg (key d)) as Hk. simpl in Hk.
        rewrite lookup_insert_eq in Hk. destruct Hk as [Hk _].
        rewrite Hl in Hv. injection Hv as <-.
        destruct l, list0; done.
      - pose proof (Hreg h) as Hk. simpl in Hk.
        rewrite lookup_insert_ne, Hl in Hk by done. by destruct Hk. }
    assert (committed_of (f_agg p) (f_duplicates p) = f_duplicates p →
            l ≠ []) as Hsame.
    { intros Hcom. rewrite Hcom in Hreg.
      pose proof (Hreg h) as Hk. simpl in Hk. rewrite Hl in Hk.
      by destruct Hk. }
    revert Hpl Hover Hsame.
    destruct (f_agg p); simpl; intros Hpl Hover Hsame;
      try (by apply Hsame).
    all: try match type of Hpl with _ ∧ _ => destruct Hpl as [Hpl _] end.
    all: destruct Hpl as (v & Hv & Hlen);
      eapply (Hover _ _ v); [exact Hv | exact Hlen | reflexivity].
  - intros Hh. apply (Hso h). simpl.
    by rewrite (committed_lookup _ _ _ Hh).
Qed.

Lemma duplicates_counter_at_most_one_ahead_witness :
  st_duplicates (f_stats counted_not_stored) =
    uint32 (duplicateCount_of (f_duplicates counted_not_stored) +
            ahead (f_agg counted_not_stored)) ∧
  ∀ h l, f_duplicates counted_not_stored !! h = Some l →
    l ≠ [] ∧
    ((∀ d, d ∈ in_hand (f_agg counted_not_stored) → key d ≠ h) →
     StronglySorted by_modified l).
Proof.
  apply (duplicates_counter_at_most_one_ahead insertionSort os_mixed
           ([mixed_a; mixed_b], None) counted_not_stored insertionSort_ok).
  apply counted_not_stored_reachable.
Defined.

(** ** The reporter *)

Lemma Forall_removelast {A} (P : A → Prop) (l : list A) :
  Forall P l → Forall P (removelast l).
Proof.
  induction 1 as [|x l Hx Hl IH]; [constructor|].
  simpl. destruct l; [constructor|]. by constructor.
Qed.

(** X15: [updateStats] reads the flag at line 255 for the text and again
    at line 269 for the [break]. In every state the pipeline can reach
    move by move, the counter of seconds is the number of texts begun, as
    a [uint64]; every text but the last shows the flag down; if the last
    text shows it up, the flag is up and the reporter is at line 269 or
    has stopped, so that no text follows one that shows the flag up; and
    when the reporter has stopped, it has shown a text and the flag is
    up. The last text itself may show the flag down. *)
Theorem flag_shown_up_only_last sort_Slice o w p :
  freachable sort_Slice o w p →
  st_seconds (f_stats p) = uint64 (Z.of_nat (begun p)) ∧
  Forall (λ t, shown_done t = false) (removelast (f_shown p)) ∧
  (∀ t, last (f_shown p) = Some t → shown_done t = true →
        st_complted (f_stats p) = true ∧
        (f_rep p = RShown ∨ f_rep p = RStopped)) ∧
  (f_rep p = RStopped → f_shown p ≠ [] ∧ st_complted (f_stats p) = true).
Proof.
  intros Hreach. pose proof (freachable_rep_inv _ _ _ _ Hreach) as Hinv.
  unfold rep_inv in Hinv. unfold begun.
  assert (∀ sh, Forall (λ t, shown_done t = false) sh →
            ∀ t, last sh = Some t → shown_done t = true → False) as Hno.
  { intros sh Hall t Ht Hd. apply last_Some_elem_of in Ht.
    rewrite Forall_forall in Hall. by rewrite (Hall t Ht) in Hd. }
  destruct (f_rep p); simpl in Hinv.
  - destruct Hinv as [-> Hall]. rewrite Nat.add_0_r.
    split; [done|]. split; [by apply Forall_removelast|].
    split; [|done]. intros t Ht Hd. destruct (Hno _ Hall t Ht Hd).
  - destruct Hinv as [-> Hall].
    split; [done|]. split; [by apply Forall_removelast|].
    split; [|done]. intros t Ht Hd. destruct (Hno _ Hall t Ht Hd).
  - destruct Hinv as (-> & Hall & _).
    split; [done|]. split; [by apply Forall_removelast|].
    split; [|done]. intros t Ht Hd. destruct (Hno _ Hall t Ht Hd).
  - destruct Hinv as (-> & sh0 & t0 & -> & Hall & Hdone).
    rewrite Nat.add_0_r, removelast_last.
    split; [done|]. split; [done|]. split; [|done].
    intros t Ht Hd. rewrite last_snoc in Ht. injection Ht as <-.
    split; [by apply Hdone | by left].
  - destruct Hinv as (-> & sh0 & t0 & -> & Hall & Hup).
    rewrite Nat.add_0_r, removelast_last.
    split; [done|]. split; [done|]. split.
    + intros t _ _. split; [done | by right].
    + intros _. split; [|done]. by destruct sh0.
Qed.

Lemma flag_shown_up_only_last_witness :
  st_seconds (f_stats stopped_after_no) =
    uint64 (Z.of_nat (begun stopped_after_no)) ∧
  Forall (λ t, shown_done t = false) (removelast (f_shown stopped_after_no)) ∧
  (∀ t, last (f_shown stopped_after_no) = Some t → shown_done t = true →
        st_complted (f_stats stopped_after_no) = true ∧
        (f_rep stopped_after_no = RShown ∨
         f_rep stopped_after_no = RStopped)) ∧
  (f_rep stopped_after_no = RStopped →
   f_shown stopped_after_no ≠ [] ∧
   st_complted (f_stats stopped_after_no) = true).
Proof.
  exact (flag_shown_up_only_last insertionSort os_mixed ([], None)
           stopped_after_no
           (stopped_after_no_reachable insertionSort os_mixed)).
Defined.

(** X18: the reporter can stop without ever having shown the flag up.
    With nothing to scan, the first text is put together while [scan] is
    still in [filepath.Walk]; [scan] raises the flag before the reporter
    comes to line 269; the reporter finds it up and leaves the loop, and
    the text on the screen says that the scan has not finished. *)
Theorem reporter_can_stop_showing_no sort_Slice o :
  ∃ p t, freachable sort_Slice o ([], None) p ∧
         f_rep p = RStopped ∧
         f_shown p = [t] ∧ shown_done t = false ∧
         st_complted (f_stats p) = true.
Proof.
  exists stopped_after_no. eexists.
  split; [apply stopped_after_no_reachable|]. by repeat split.
Qed.

(** ** What holds round by round holds move by move *)

Lemma fstep_flow_inv sort_Slice o p p' :
  fstep sort_Slice o p p' → flow_inv p → flow_inv p'.
Proof.
  unfold flow_inv, flow_inv_on.
  destruct 1; fine_simpl; fine_place; fine_simpl; try done.
  all: intros (Hfc & Hcc & Hws & Hwk & Hsh & Hrd).
  all: rewrite ?length_app, ?length_insert; simpl in *.
  all: try (by repeat split; first [lia | done]).
  - (* the walker sends *)
    repeat split; first [lia | done | idtac].
    intros Hf. by specialize (Hwk Hf).
  - (* scan raises the flag *)
    repeat split; first [lia | done | idtac].
    + eapply Forall_impl; [exact Hsh|]. done.
    + by destruct (f_rep p).
  - (* the text is shown *)
    repeat split; first [lia | done | idtac].
    apply Forall_app. split; [done|]. by apply Forall_singleton.
Qed.

Lemma freachable_flow_inv sort_Slice o w p :
  freachable sort_Slice o w p → flow_inv p.
Proof.
  revert p. apply rtc_ind_r.
  - unfold flow_inv, flow_inv_on. simpl. repeat split; first [lia | done].
  - intros q p _ Hstep Hq. by apply (fstep_flow_inv _ _ _ _ Hstep).
Qed.

(** X19: the bounds of the channels and the meaning of the flag hold
    move by move: in every state the pipeline can reach, [fileChannel]
    holds at most 200 records and [checksumChannel] at most 100, and the
    flag is up, or has been read up for a text, shown or not yet, only
    if the walker has returned without a panic, having sent every record
    it had to send. *)
Theorem bounds_and_flag_move_by_move sort_Slice o w p :
  freachable sort_Slice o w p →
  (length (f_fileChannel p) ≤ 200)%nat ∧
  (length (f_checksumChannel p) ≤ 100)%nat ∧
  (st_complted (f_stats p) = true ∨
   (∃ t, t ∈ f_shown p ∧ shown_done t = true) ∨
   (∃ st pending got, f_rep p = RReading true st pending got) →
   f_walker p = ([], None)).
Proof.
  intros Hreach.
  destruct (freachable_flow_inv _ _ _ _ Hreach)
    as (Hfc & Hcc & _ & Hwk & Hsh & Hrd).
  split; [done|]. split; [done|].
  intros [Hf|[(t & Ht & Hd)|(st & pending & got & Hr)]]; apply Hwk.
  - done.
  - by apply (proj1 (Forall_forall _ _) Hsh t Ht).
  - rewrite Hr in Hrd. by apply Hrd.
Qed.

Lemma bounds_and_flag_move_by_move_witness :
  (length (f_fileChannel stopped_after_no) ≤ 200)%nat ∧
  (length (f_checksumChannel stopped_after_no) ≤ 100)%nat ∧
  (st_complted (f_stats stopped_after_no) = true ∨
   (∃ t, t ∈ f_shown stopped_after_no ∧ shown_done t = true) ∨
   (∃ st pending got,
      f_rep stopped_after_no = RReading true st pending got) →
   f_walker stopped_after_no = ([], None)).
Proof.
  exact (bounds_and_flag_move_by_move insertionSort os_mixed ([], None)
           stopped_after_no
           (stopped_after_no_reachable insertionSort os_mixed)).
Defined.

(** ** The rounds of the aggregator and the loop *)

Lemma findDuplicates_snoc sort_Slice ds d a a' :
  findDuplicates sort_Slice ds agg0 = Ok a →
  findDuplicates_body sort_Slice a d = Ok a' →
  findDuplicates sort_Slice (ds ++ [d]) agg0 = Ok a'.
Proof.
  intros Hrun Hbody. rewrite findDuplicates_app, Hrun. simpl.
  by rewrite Hbody.
Qed.

Lemma findDuplicates_body_rows_of sort_Slice a d list0 r :
  duplicates a !! key d = Some list0 →
  update_rows (st_duplicates (stats_duplicate (stats_scanned (stats a) d) d))
    (right a) (sort_Slice less_modified (list0 ++ [d])) = Ok r →
  findDuplicates_body sort_Slice a d =
    Ok (mkAgg (<[key d := sort_Slice less_modified (list0 ++ [d])]>
                 (duplicates a))
          (stats_duplicate (stats_scanned (stats a) d) d) r).
Proof.
  intros Hl. unfold findDuplicates_body, update_rows. fold (key d).
  rewrite Hl.
  destruct (sort_Slice less_modified (list0 ++ [d])) as [|x [|y rest]];
    [done | done |].
  by intros [= <-].
Qed.

Local Ltac same_counters :=
  unfold counters in *; simpl in *;
  match goal with
  | H : (_, _, _, _) = (_, _, _, _) |- _ => injection H as -> -> -> ->
  end;
  reflexivity.

Lemma loop_inv_on_others sort_Slice all others others' c at_ m n r :
  others ≡ₚ others' →
  loop_inv_on sort_Slice all others c at_ m n r →
  loop_inv_on sort_Slice all others' c at_ m n r.
Proof.
  intros Hp (ds & a & ? & ? & Hall).
  exists ds, a. repeat (split; [done|]). by rewrite <- Hp.
Qed.

Lemma loop_inv_on_crashed sort_Slice all others c at_ m n r msg :
  loop_inv_on sort_Slice all others c at_ m n r →
  loop_inv_on sort_Slice all others (Some msg) at_ m n r.
Proof.
  intros (ds & a & ? & ? & Hall). exists ds, a. by repeat (split; [done|]).
Qed.

Lemma fstep_loop_inv sort_Slice o w p p' :
  fstep sort_Slice o p p' →
  loop_inv sort_Slice w p → loop_inv sort_Slice w p'.
Proof.
  unfold loop_inv, f_in_flight.
  destruct 1; fine_simpl; fine_place; fine_simpl; try done.
  all: try (by apply loop_inv_on_crashed).
  1: apply loop_inv_on_others; push_fmap; solve_Permutation.
  1: apply loop_inv_on_others; by apply others_receive.
  1: apply loop_inv_on_others; by apply others_checksum.
  1: apply loop_inv_on_others; by apply others_send.
  all: intros (ds & a & Hrun & Hround & Hall); simpl in Hround.
  - (* line 213 *)
    exists ds, a. split; [done|]. split; [done|]. intros _.
    rewrite <- (Hall eq_refl). simpl. push_fmap. solve_Permutation.
  - (* line 214 *)
    destruct Hround as (Hm & Hc & Hr).
    exists ds, a. simpl. split; [done|]. split; [|done].
    split; [done|]. split; [|done]. same_counters.
  - (* line 215 *)
    destruct Hround as (Hm & Hc & Hr).
    exists ds, a. simpl. split; [done|]. split; [|done].
    split; [done|]. split; [|done]. same_counters.
  - (* line 217, found *)
    destruct Hround as (Hm & Hc & Hr).
    exists ds, a. simpl. split; [done|]. split; [|done].
    repeat (split; [done|]). by rewrite <- Hm.
  - (* line 217, not found *)
    destruct Hround as (Hm & Hc & Hr).
    exists ds, a. simpl. split; [done|]. split; [|done].
    repeat (split; [done|]). by rewrite <- Hm.
  - (* line 219 *)
    destruct Hround as (Hm & Hc & Hr & Hl).
    exists ds, a. simpl. split; [done|]. split; [|done].
    split; [|done]. rewrite Hm. by apply insert_id.
  - (* an exchange of the sort *)
    destruct Hround as (Hm & Hc & Hr & Hl).
    exists ds, a. simpl. split; [done|]. split; [|done].
    split; [|done]. by rewrite insert_insert_eq.
  - (* the sort is over *)
    destruct Hround as (Hm & Hc & Hr & Hl).
    exists ds, a. simpl. split; [done|]. split; [|done].
    split; [|done]. destruct shared; [by rewrite insert_insert_eq | done].
  - (* line 224 *)
    destruct Hround as (Hm & Hc & Hr & Hl & Hs).
    exists ds, a. simpl. split; [done|]. split; [|done].
    split; [done|]. split; [|done]. same_counters.
  - (* line 225 *)
    destruct Hround as (Hm & Hc & Hr & Hl & Hs).
    exists ds, a. simpl. split; [done|]. split; [|done].
    split; [done|]. split; [|done]. same_counters.
  - (* lines 226 to 242 *)
    destruct Hround as (Hm & Hc & Hr & Hl & Hs).
    exists ds, a. simpl. split; [done|]. split; [|done].
    split; [done|]. split; [done|]. split; [|done].
    match goal with H : update_rows _ _ _ = Ok _ |- _ =>
      rewrite <- H, Hr end.
    f_equal. unfold counters in Hc. by injection Hc.
  - (* line 247, joined *)
    destruct Hround as (Hm & Hc & Hr & Hl & ->).
    eexists (ds ++ [d]), _. split; [|split].
    + apply (findDuplicates_snoc _ _ _ _ _ Hrun).
      by apply (findDuplicates_body_rows_of _ _ _ list0).
    + simpl. split; [|done]. by rewrite <- Hm, insert_insert_eq.
    + intros _. rewrite <- (Hall eq_refl). simpl.
      push_fmap. solve_Permutation.
  - (* line 247, new *)
    destruct Hround as (Hm & Hc & Hr & Hl).
    eexists (ds ++ [d]), _. split; [|split].
    + apply (findDuplicates_snoc _ _ _ _ _ Hrun).
      by apply findDuplicates_body_new.
    + simpl. by rewrite Hm.
    + intros _. rewrite <- (Hall eq_refl). simpl.
      push_fmap. solve_Permutation.
Qed.

Lemma freachable_loop_inv sort_Slice o w p :
  freachable sort_Slice o w p → loop_inv sort_Slice w p.
Proof.
  revert p. apply rtc_ind_r.
  - exists [], agg0. unfold f_in_flight. simpl. by repeat split.
  - intros q p _ Hstep Hq. by apply (fstep_loop_inv _ _ _ _ _ Hstep).
Qed.

(** X20: whenever the aggregator is at line 213, whatever the other
    goroutines have done in the meantime, the map, the rows of the list
    and the four counters that the aggregator writes are those that the
    loop, run on its own over the stream of the records stored so far,
    has computed; and unless something has panicked, the files of that
    stream, the files in flight and the files still to be sent are
    together the files the walker has to send. What is shown of the loop
    for every stream of records therefore holds of the pipeline whenever
    the aggregator waits for a record. *)
Theorem at_line_213_as_in_the_loop sort_Slice o w p :
  freachable sort_Slice o w p →
  f_agg p = AWait →
  ∃ ds a,
    findDuplicates sort_Slice ds agg0 = Ok a ∧
    f_duplicates p = duplicates a ∧
    f_right p = right a ∧
    st_count (f_stats p) = st_count (stats a) ∧
    st_size (f_stats p) = st_size (stats a) ∧
    st_duplicates (f_stats p) = st_duplicates (stats a) ∧
    st_duplicateSize (f_stats p) = st_duplicateSize (stats a) ∧
    (f_crashed p = None →
     fd_path <$> (ds ++ f_in_flight p ++ (f_walker p).1) ≡ₚ fd_path <$> w.1).
Proof.
  intros Hreach Hat.
  destruct (freachable_loop_inv _ _ _ _ Hreach)
    as (ds & a & Hrun & Hround & Hall).
  rewrite Hat in Hround, Hall. destruct Hround as (Hm & Hc & Hr).
  exists ds, a. unfold counters in Hc. injection Hc as ? ? ? ?.
  repeat (split; [done|]).
  intros Hc. rewrite <- (Hall Hc). simpl. by rewrite !fmap_app.
Qed.

Lemma both_stored_reachable :
  freachable insertionSort os_mixed ([mixed_a; mixed_b], None) both_stored.
Proof.
  unfold freachable.
  etrans; [apply counted_not_stored_reachable|].
  unfold counted_not_stored.
  eapply rtc_l; [by eapply fs_agg_duplicateSize|]. fine_simpl.
  eapply rtc_l; [by eapply fs_agg_rows|]. fine_simpl.
  eapply rtc_l; [by eapply fs_agg_store_joined|]. fine_simpl.
  match goal with
  | |- rtc _ ?x ?y => replace y with x; [apply rtc_refl|]
  end.
  unfold both_stored. f_equal; by vm_compute.
Qed.

Lemma at_line_213_as_in_the_loop_witness :
  ∃ ds a,
    findDuplicates insertionSort ds agg0 = Ok a ∧
    f_duplicates both_stored = duplicates a ∧
    f_right both_stored = right a ∧
    st_count (f_stats both_stored) = st_count (stats a) ∧
    st_size (f_stats both_stored) = st_size (stats a) ∧
    st_duplicates (f_stats both_stored) = st_duplicates (stats a) ∧
    st_duplicateSize (f_stats both_stored) = st_duplicateSize (stats a) ∧
    (f_crashed both_stored = None →
     fd_path <$> (ds ++ f_in_flight both_stored ++ (f_walker both_stored).1)
       ≡ₚ fd_path <$> ([mixed_a; mixed_b], @None string).1).
Proof.
  apply (at_line_213_as_in_the_loop insertionSort os_mixed
           ([mixed_a; mixed_b], None) both_stored).
  - apply both_stored_reachable.
  - reflexivity.
Defined.

(** * Short groups keep the order of arrival *)

Lemma insert_by_snoc_ahead ahead (d x : tFileData) l :
  ahead d x = true →
  insert_by ahead d (l ++ [x]) = insert_by ahead d l ++ [x].
Proof.
  intros Hdx. induction l as [|y l IH]; simpl.
  - by rewrite Hdx.
  - destruct (ahead d y); [done|]. by rewrite IH.
Qed.

Lemma insert_by_behind ahead (d : tFileData) l :
  Forall (λ y, ahead d y = false) l → insert_by ahead d l = l ++ [d].
Proof.
  induction 1 as [|y l Hy Hl IH]; simpl; [done|]. by rewrite Hy, IH.
Qed.

Lemma data_Less_app less (l1 l2 : list tFileData) (i j : nat) :
  (i < length l1)%nat → (j < length l1)%nat →
  data_Less less (l1 ++ l2) i j = data_Less less l1 i j.
Proof.
  intros Hi Hj. unfold data_Less. by rewrite !lookup_app_l.
Qed.

Lemma data_Swap_app (l1 l2 : list tFileData) (i j : nat) :
  (i < length l1)%nat → (j < length l1)%nat →
  data_Swap i j (l1 ++ l2) = data_Swap i j l1 ++ l2.
Proof.
  intros Hi Hj. unfold data_Swap. rewrite !lookup_app_l by done.
  destruct (l1 !! i), (l1 !! j); try done.
  rewrite insert_app_l by done.
  by rewrite insert_app_l by (by rewrite length_insert).
Qed.

Lemma data_Swap_length (l : list tFileData) (i j : nat) :
  length (data_Swap i j l) = length l.
Proof.
  unfold data_Swap. destruct (l !! i), (l !! j); try done.
  by rewrite !length_insert.
Qed.

Lemma sink_app less (a j : nat) (l1 l2 : list tFileData) :
  (j < length l1)%nat →
  sink less a j (l1 ++ l2) = sink less a j l1 ++ l2.
Proof.
  revert l1. induction j as [|j IH]; intros l1 Hj; simpl; [done|].
  rewrite data_Less_app by lia.
  destruct (bool_decide (a < S j)%nat && data_Less less l1 (S j) j); [|done].
  rewrite data_Swap_app by lia.
  apply IH. rewrite data_Swap_length. lia.
Qed.

Lemma data_Swap_last (l : list tFileData) (x d : tFileData) :
  data_Swap (S (length l)) (length l) ((l ++ [x]) ++ [d]) = (l ++ [d]) ++ [x].
Proof.
  unfold data_Swap.
  rewrite <- !app_assoc. simpl.
  rewrite (lookup_app_r l) by lia.
  replace (S (length l) - length l)%nat with 1%nat by lia. simpl.
  rewrite (lookup_app_r l) by lia. rewrite Nat.sub_diag. simpl.
  rewrite (insert_app_r_alt l) by lia. rewrite Nat.sub_diag. simpl.
  rewrite (insert_app_r_alt l) by lia.
  replace (S (length l) - length l)%nat with 1%nat by lia. done.
Qed.

(** In a slice that is in order but for its last element, the inner loop
    of [insertionSort_func] moves that element to the place behind the
    last element that is not modified later. *)
Lemma sink_is_insert_by (l0 : list tFileData) (d : tFileData) :
  StronglySorted by_modified l0 →
  sink less_modified 0 (length l0) (l0 ++ [d])
    = insert_by less_modified d l0.
Proof.
  induction l0 as [|x l IH] using rev_ind; intros Hsorted; [done|].
  rewrite length_app. simpl. rewrite Nat.add_1_r. simpl.
  assert (data_Less less_modified ((l ++ [x]) ++ [d]) (S (length l)) (length l)
          = less_modified d x) as ->.
  { unfold data_Less. rewrite <- !app_assoc. simpl.
    rewrite (lookup_app_r l) by lia.
    replace (S (length l) - length l)%nat with 1%nat by lia. simpl.
    rewrite (lookup_app_r l) by lia. by rewrite Nat.sub_diag. }
  pose proof (StronglySorted_app_1_l _ _ _ Hsorted) as Hl.
  destruct (less_modified d x) eqn:Hdx.
  - rewrite data_Swap_last, sink_app by (rewrite length_app; simpl; lia).
    rewrite (IH Hl). by rewrite insert_by_snoc_ahead.
  - symmetry. apply insert_by_behind.
    unfold less_modified in *. apply bool_decide_eq_false in Hdx.
    apply Forall_app. split; [|by apply Forall_singleton, bool_decide_eq_false].
    apply Forall_forall. intros y Hy. apply bool_decide_eq_false.
    assert (by_modified y x) as Hyx.
    { apply (StronglySorted_app_1_elem_of _ _ _ y x Hsorted); [done|].
      by apply list_elem_of_singleton. }
    unfold by_modified in Hyx. lia.
Qed.

Lemma sorted_neighbours (l0 : list tFileData) (j : nat) x y :
  StronglySorted by_modified l0 →
  l0 !! j = Some y → l0 !! S j = Some x → less_modified x y = false.
Proof.
  intros Hsorted Hy Hx. apply bool_decide_eq_false.
  rewrite <- (take_drop (S j) l0) in Hsorted.
  assert (by_modified y x) as Hyx; [|unfold by_modified in Hyx; lia].
  apply (StronglySorted_app_1_elem_of _ _ _ y x Hsorted).
  - apply list_elem_of_lookup. exists j. rewrite lookup_take_lt by lia. done.
  - apply list_elem_of_lookup. exists 0%nat. rewrite lookup_drop.
    by rewrite Nat.add_0_r.
Qed.

Lemma sink_in_order (l0 : list tFileData) (d : tFileData) (i : nat) :
  StronglySorted by_modified l0 → (i < length l0)%nat →
  sink less_modified 0 i (l0 ++ [d]) = l0 ++ [d].
Proof.
  intros Hsorted Hi. destruct i as [|j]; [done|]. simpl.
  destruct (lookup_lt_is_Some_2 l0 (S j) Hi) as [x Hx].
  destruct (lookup_lt_is_Some_2 l0 j) as [y Hy]; [lia|].
  unfold data_Less. rewrite !lookup_app_l by lia. rewrite Hx, Hy.
  by rewrite (sorted_neighbours l0 j x y).
Qed.

(** [insertionSort_func] on a slice that is in order but for its last
    element. *)
Lemma insertionSort_func_snoc (l0 : list tFileData) (d : tFileData) :
  StronglySorted by_modified l0 →
  insertionSort_func less_modified 0 (length (l0 ++ [d])) (l0 ++ [d])
    = insert_by less_modified d l0.
Proof.
  intros Hsorted. unfold insertionSort_func.
  rewrite length_app. simpl.
  replace (length l0 + 1 - 0 - 1)%nat with (length l0) by lia.
  destruct (length l0) as [|n] eqn:Hlen.
  - by destruct l0.
  - rewrite seq_S, foldl_snoc.
    assert (foldl (λ acc i, sink less_modified 0 i acc) (l0 ++ [d]) (seq 1 n)
            = l0 ++ [d]) as ->.
    { assert (∀ is_, Forall (λ i, i < length l0)%nat is_ →
                foldl (λ acc i, sink less_modified 0 i acc) (l0 ++ [d]) is_
                = l0 ++ [d]) as Hnoop.
      { induction 1 as [|i is_ Hi _ IH]; simpl; [done|].
        by rewrite sink_in_order. }
      apply Hnoop. apply Forall_forall. intros i Hi.
      apply elem_of_seq in Hi. lia. }
    replace (1 + n)%nat with (length l0) by lia.
    by apply sink_is_insert_by.
Qed.

(** The stable insertion sort on such a slice. *)
Lemma insertionSort_snoc (l0 : list tFileData) (d : tFileData) :
  StronglySorted by_modified l0 →
  insertionSort less_modified (l0 ++ [d]) = insert_by less_modified d l0.
Proof.
  intros Hsorted. unfold insertionSort. rewrite fold_left_app. simpl.
  f_equal.
  enough (∀ acc, StronglySorted by_modified (acc ++ l0) →
            fold_left (λ acc x, insert_by less_modified x acc) l0 acc
            = acc ++ l0) as H by apply (H []), Hsorted.
  clear Hsorted. induction l0 as [|x l0 IH]; intros acc Hsorted; simpl.
  - by rewrite app_nil_r.
  - rewrite insert_by_behind.
    + rewrite IH; rewrite <- app_assoc; done.
    + apply Forall_forall. intros y Hy. apply bool_decide_eq_false.
      assert (by_modified y x) as Hyx; [|unfold by_modified in Hyx; lia].
      apply (StronglySorted_app_1_elem_of _ _ _ y x Hsorted); [done|].
      left.
Qed.

(** Up to twelve elements [pdqsort_func] is [insertionSort_func], and up
    to six so is [quickSort_func]: the pass with gap six has nothing to
    compare. *)
Lemma pdqsort_func_short beyond less (l : list tFileData) :
  (length l ≤ 12)%nat →
  pdqsort_func beyond less l = insertionSort_func less 0 (length l) l.
Proof.
  intros Hlen. unfold pdqsort_func. simpl.
  by rewrite bool_decide_true by lia.
Qed.

Lemma quickSort_func_short beyond less (l : list tFileData) :
  (length l ≤ 6)%nat →
  quickSort_func beyond less l = insertionSort_func less 0 (length l) l.
Proof.
  intros Hlen. unfold quickSort_func.
  rewrite bool_decide_false by lia.
  destruct (bool_decide (1 < length l)%nat) eqn:Hone.
  - unfold shellPass6.
    by replace (length l - 0 - 6)%nat with 0%nat by lia.
  - apply bool_decide_eq_false in Hone. unfold insertionSort_func.
    by replace (length l - 0 - 1)%nat with 0%nat by lia.
Qed.

(** ** The loop with a routine that sorts short slices by insertion *)

Lemma arrivals_prefix_length h ds d :
  (length (arrivals h ds) ≤ length (arrivals h (ds ++ [d])))%nat.
Proof.
  rewrite arrivals_snoc, length_app. lia.
Qed.

Lemma findDuplicates_short_groups sort_Slice (bound : nat) ds :
  (∀ l, (length l ≤ bound)%nat →
        sort_Slice less_modified l
          = insertionSort_func less_modified 0 (length l) l) →
  (∀ h, (length (arrivals h ds) ≤ bound)%nat) →
  findDuplicates sort_Slice ds agg0 = findDuplicates insertionSort ds agg0.
Proof.
  intros Hshort. induction ds as [|d ds IH] using rev_ind; intros Hb; [done|].
  rewrite !findDuplicates_app, IH
    by (intros h; etrans; [apply (arrivals_prefix_length h ds d)|apply Hb]).
  destruct (findDuplicates_total _ insertionSort_ok ds)
    as (a & -> & Hreg & Hso & _).
  simpl. f_equal. unfold findDuplicates_body. fold (key d).
  pose proof (Hreg (key d)) as Hk.
  destruct (duplicates a !! key d) as [l0|] eqn:Hl; [|done].
  destruct Hk as [_ Hperm].
  rewrite Hshort, insertionSort_func_snoc, insertionSort_snoc;
    [done | by apply (Hso (key d)) | by apply (Hso (key d)) |].
  etrans; [|apply (Hb (key d))].
  rewrite arrivals_snoc, decide_True, !length_app by done.
  by rewrite Hperm.
Qed.

(** ** Insertion behind the equals keeps the order of arrival *)

Lemma arrived_before_later ds d x y :
  arrived_before ds x y → arrived_before (ds ++ [d]) x y.
Proof.
  intros (p & q & Hpq & Hp & Hq). exists p, q.
  split; [done|]. split; by apply lookup_app_l_Some.
Qed.

Lemma arrived_before_last ds d x :
  x ∈ ds → arrived_before (ds ++ [d]) x d.
Proof.
  intros [p Hp]%list_elem_of_lookup.
  exists p, (length ds). split; [by eapply lookup_lt_Some|].
  split; [by apply lookup_app_l_Some|].
  by rewrite lookup_app_r, Nat.sub_diag by lia.
Qed.

Lemma insert_by_split ahead (d : tFileData) l :
  ∃ pre post,
    l = pre ++ post ∧ insert_by ahead d l = pre ++ d :: post ∧
    Forall (λ y, ahead d y = false) pre ∧
    match post with
    | [] => True
    | y :: _ => ahead d y = true
    end.
Proof.
  induction l as [|y l (pre & post & -> & Hins & Hpre & Hpost)]; simpl.
  - by exists [], [].
  - destruct (ahead d y) eqn:Hdy.
    + by exists [], (y :: pre ++ post).
    + exists (y :: pre), post. simpl. rewrite Hins.
      split; [done|]. split; [done|]. split; [by constructor | done].
Qed.

Lemma ties_kept_by_insert ds (l0 : list tFileData) (d : tFileData) :
  StronglySorted by_modified l0 →
  (∀ x, x ∈ l0 → x ∈ ds) →
  ties_keep_arrival_order ds l0 →
  ties_keep_arrival_order (ds ++ [d]) (insert_by less_modified d l0).
Proof.
  intros Hsorted Hin Hties.
  destruct (insert_by_split less_modified d l0)
    as (pre & post & -> & -> & Hpre & Hpost).
  assert (∀ y, y ∈ post → fd_modified d < fd_modified y) as Hlater.
  { destruct post as [|y0 post]; [by intros y ?%elem_of_nil|].
    apply bool_decide_eq_true in Hpost.
    apply StronglySorted_app_1_r in Hsorted.
    apply StronglySorted_inv in Hsorted as [_ Hall].
    intros y [->|Hy]%elem_of_cons; [done|].
    rewrite Forall_forall in Hall. specialize (Hall y Hy).
    unfold by_modified in Hall. lia. }
  intros i j x y Hij Hx Hy Heq.
  destruct (decide (i < length pre)%nat) as [Hi|Hi].
  - rewrite lookup_app_l in Hx by done.
    destruct (decide (j < length pre)%nat) as [Hj|Hj].
    + rewrite lookup_app_l in Hy by done.
      apply arrived_before_later, (Hties i j); [done| | |done];
        by apply lookup_app_l_Some.
    + rewrite lookup_app_r in Hy by lia.
      destruct (j - length pre)%nat as [|k] eqn:Hk; simpl in Hy.
      * injection Hy as <-. apply arrived_before_last, Hin.
        apply elem_of_app. left. by eapply list_elem_of_lookup_2.
      * apply arrived_before_later, (Hties i (length pre + k)%nat);
          [lia | by apply lookup_app_l_Some | | done].
        by rewrite lookup_app_r, Nat.add_comm, Nat.add_sub by lia.
  - rewrite lookup_app_r in Hx by lia.
    rewrite lookup_app_r in Hy by lia.
    destruct (i - length pre)%nat as [|k] eqn:Hk; simpl in Hx.
    + injection Hx as <-.
      destruct (j - length pre)%nat as [|k'] eqn:Hk'; [lia|]. simpl in Hy.
      apply list_elem_of_lookup_2, Hlater in Hy. lia.
    + destruct (j - length pre)%nat as [|k'] eqn:Hk'; [lia|]. simpl in Hy.
      apply arrived_before_later,
        (Hties (length pre + k)%nat (length pre + k')%nat); [lia| | |done].
      * by rewrite lookup_app_r, Nat.add_comm, Nat.add_sub by lia.
      * by rewrite lookup_app_r, Nat.add_comm, Nat.add_sub by lia.
Qed.

Lemma ties_kept_by_insertionSort ds :
  ∃ a, findDuplicates insertionSort ds agg0 = Ok a ∧
       ∀ h l, duplicates a !! h = Some l → ties_keep_arrival_order ds l.
Proof.
  induction ds as [|d ds (a & Hrun & Hties)] using rev_ind.
  - exists agg0. split; [done|]. intros h l. simpl. by rewrite lookup_empty.
  - destruct (agg_inv_run _ insertionSort_ok ds [] agg0 agg_inv_init)
      as (a0 & Hrun0 & Hreg & Hso & _).
    rewrite Hrun in Hrun0. injection Hrun0 as <-. simpl in Hreg.
    rewrite findDuplicates_app, Hrun. simpl.
    pose proof (Hreg (key d)) as Hk.
    destruct (duplicates a !! key d) as [l0|] eqn:Hl.
    + destruct Hk as [Hne Hperm].
      destruct (findDuplicates_body_join _ insertionSort_ok a d l0 Hl Hne)
        as (x & y & r & right1 & Hsort & ->).
      eexists. split; [done|]. simpl. intros h l.
      destruct (decide (key d = h)) as [<-|Hh].
      * rewrite lookup_insert_eq. intros [= <-]. rewrite <- Hsort.
        rewrite insertionSort_snoc by (by apply (Hso (key d))).
        apply ties_kept_by_insert;
          [by apply (Hso (key d)) | | by apply (Hties (key d))].
        intros z Hz. rewrite Hperm in Hz.
        by apply arrivals_elem in Hz as [? _].
      * rewrite lookup_insert_ne by done. intros Hl'.
        intros i j u v Hij Hu Hv Heq.
        by apply arrived_before_later, (Hties h l Hl' i j).
    + rewrite (findDuplicates_body_new _ a d Hl).
      eexists. split; [done|]. simpl. intros h l.
      destruct (decide (key d = h)) as [<-|Hh].
      * rewrite lookup_insert_eq. intros [= <-].
        intros i j u v Hij Hu Hv _.
        destruct j; [lia | done].
      * rewrite lookup_insert_ne by done. intros Hl'.
        intros i j u v Hij Hu Hv Heq.
        by apply arrived_before_later, (Hties h l Hl' i j).
Qed.

(** X21: C2 holds as stated while the groups are short. With
    [sort.Slice] as released from Go 1.19 on, as long as no more than
    twelve files share a fingerprint, and as released through Go 1.18, as
    long as no more than six do, the loop returns, and in every group
    the members with one modification time are in the order in which
    they arrived: the routine sorts such a group by insertion, and the
    group was in order before the new member was appended. The
    thirteenth and the seventh member are where this ends. *)
Theorem ties_kept_in_short_groups beyond ds :
  ((∀ h, (length (arrivals h ds) ≤ 12)%nat) →
   ∃ a, findDuplicates (pdqsort_func beyond) ds agg0 = Ok a ∧
        ∀ h l, duplicates a !! h = Some l →
               StronglySorted by_modified l ∧
               ties_keep_arrival_order ds l) ∧
  ((∀ h, (length (arrivals h ds) ≤ 6)%nat) →
   ∃ a, findDuplicates (quickSort_func beyond) ds agg0 = Ok a ∧
        ∀ h l, duplicates a !! h = Some l →
               StronglySorted by_modified l ∧
               ties_keep_arrival_order ds l).
Proof.
  destruct (ties_kept_by_insertionSort ds) as (a & Hrun & Hties).
  destruct (findDuplicates_total _ insertionSort_ok ds)
    as (a0 & Hrun0 & _ & Hso & _).
  rewrite Hrun in Hrun0. injection Hrun0 as <-.
  split; intros Hb; exists a.
  - rewrite (findDuplicates_short_groups _ 12);
      [| intros l Hl; by apply pdqsort_func_short | done].
    split; [done|]. intros h l Hl.
    split; [by apply (Hso h) | by apply (Hties h)].
  - rewrite (findDuplicates_short_groups _ 6);
      [| intros l Hl; by apply quickSort_func_short | done].
    split; [done|]. intros h l Hl.
    split; [by apply (Hso h) | by apply (Hties h)].
Qed.

Lemma ties_kept_in_short_groups_witness :
  (∃ a, findDuplicates (pdqsort_func (λ _ l, l))
          [tie_first; tie_second; older_third] agg0 = Ok a ∧
        ∀ h l, duplicates a !! h = Some l →
               StronglySorted by_modified l ∧
               ties_keep_arrival_order
                 [tie_first; tie_second; older_third] l) ∧
  (∃ a, findDuplicates (quickSort_func (λ _ l, l))
          [tie_first; tie_second; older_third] agg0 = Ok a ∧
        ∀ h l, duplicates a !! h = Some l →
               StronglySorted by_modified l ∧
               ties_keep_arrival_order
                 [tie_first; tie_second; older_third] l).
Proof.
  destruct (ties_kept_in_short_groups (λ _ l, l)
              [tie_first; tie_second; older_third]) as [Hnew Hold].
  split; [apply Hnew | apply Hold]; intros h; unfold arrivals;
    (etrans; [apply length_filter|]); simpl; lia.
Defined.
